(** * The TLB level of the zsim memory hierarchy

    A shallow embedding of [TLB::translate], [TLB::access] and
    [TLB::invalidate] in both revisions present in the repository, over the
    interfaces of the collaborators they drive (the cache array and the
    coherence controller), together with the properties the specification
    states about them.

    Machine integers are [Z] with the wrap-around of the C++ type written
    out; calls into the collaborators thread an explicit world (array state,
    controller state, call log); [panic] and failed assertions end the run. *)

From Stdlib Require Import ZArith List Bool Lia.
From Stdlib Require Ascii String.
From stdpp Require Import base list.
Import ListNotations.

Local Open Scope Z_scope.

(** ** Machine integers *)

(** [Address] is [uint64_t]; cycles are [uint64_t]; line ids are [int32_t]
    (with [-1] for "not found"); latencies are [uint32_t]. *)
Definition Address := Z.

Definition wrap64 (x : Z) : Z := x mod 2 ^ 64.

Definition u64 (x : Z) : Prop := 0 <= x < 2 ^ 64.
Definition u32 (x : Z) : Prop := 0 <= x < 2 ^ 32.

(** ** Request descriptors *)

Inductive AccessType := GETS | GETX | PUTS | PUTX.

(** [MESIState], in a name space of its own ([I] and [S] are taken). *)
Module MESI.
Inductive t := I | S | E | M.
End MESI.

(** [MemReq]. The first field is read as [lineAddr] by the hierarchy and as
    [pageNum] by the TLB (both revisions brace-initialise it in first
    position).  [state] holds the content of the cell the C++ [state] pointer
    designates; [childLock] is always [nullptr] here and is left out. *)
Module MemReq.
Record t := mk {
  lineAddr : Address;
  type : AccessType;
  childId : Z;
  state : MESI.t;
  cycle : Z;
  initialState : MESI.t;
  srcId : Z;
  flags : Z
}.

Definition pageNum (r : t) : Address := lineAddr r.

Definition set_type (ty : AccessType) (r : t) : t :=
  mk (lineAddr r) ty (childId r) (state r) (cycle r) (initialState r)
     (srcId r) (flags r).

Definition set_state (s : MESI.t) (r : t) : t :=
  mk (lineAddr r) (type r) (childId r) s (cycle r) (initialState r)
     (srcId r) (flags r).
End MemReq.

Inductive InvType := INV | INVX | FWD.

Module InvReq.
Record t := mk {
  lineAddr : Address;
  type : InvType;
  cycle : Z;
  writeback : bool;
  srcId : Z
}.
End InvReq.

(** ** Collaborator interfaces *)

(** [CacheArray]: [lookup(key, req, updateReplacement)] returns the line id
    or [-1]; [preinsert(key, req, &wbAddr)] returns the chosen slot and
    writes the victim's key; [postinsert(key, req, lineId)] commits. Every
    call may move the array's (replacement) state. *)
Module CacheArray.
Class T (A : Type) := {
  lookup : A -> Address -> option MemReq.t -> bool -> Z * A;
  preinsert : A -> Address -> option MemReq.t -> Z * Address * A;
  postinsert : A -> Address -> MemReq.t -> Z -> A
}.
End CacheArray.

(** [CC]. [startAccess] takes the request by reference and "may change
    req.type": it returns the skip flag and the type it leaves.
    [processAccess] writes the granted state through [req.state].
    [processInv] sets [*req.writeback]. *)
Module CC.
Class T (C : Type) := {
  startAccess : C -> MemReq.t -> bool * AccessType * C;
  processAccess : C -> MemReq.t -> Z -> Z -> Z * MESI.t * C;
  processEviction : C -> MemReq.t -> Address -> Z -> Z -> Z * C;
  processInv : C -> InvReq.t -> Z -> Z -> Z * bool * C;
  endAccess : C -> MemReq.t -> C
}.
End CC.

(** ** The TLB object *)

(** Members read by the routines.  [pageBits], [pteSize] and [lineBits] are
    constants of the missing header; [pageWalk] exists in the flagged
    revision only. *)
Record TLB := {
  accLat : Z;
  invLat : Z;
  pageWalkLat : Z;
  pageWalk : bool;
  procMask : Address;
  srcId : Z;
  reqFlags : Z;
  pageBits : Z;
  pteSize : Z;
  lineBits : Z
}.

(** The members lie in the range of their C++ type, the divisor is not zero
    and the shift counts are below the width. *)
Definition wf_TLB (tlb : TLB) : Prop :=
  u32 (accLat tlb) /\ u32 (invLat tlb) /\ u32 (pageWalkLat tlb) /\
  u64 (procMask tlb) /\ u32 (srcId tlb) /\ u32 (reqFlags tlb) /\
  0 <= pageBits tlb < 64 /\ 0 < pteSize tlb < 2 ^ 64 /\
  0 <= lineBits tlb < 64.

(** ** Call log *)

(** Which C++ object a controller call was handed: the routine's reference
    parameter [req], or its local [mem_req]. *)
Inductive ReqObj := CallerReq | NestedReq.

(** One entry per call into a collaborator: the arguments, then what the call
    returned. *)
Inductive Event :=
| EvLookup (key : Address) (ret : Z)
| EvPreinsert (key : Address) (ret : Z) (victim : Address)
| EvPostinsert (key : Address) (req : MemReq.t) (lineId : Z)
| EvStartAccess (o : ReqObj) (req : MemReq.t) (skip : bool)
| EvProcessAccess (o : ReqObj) (req : MemReq.t) (lineId startCycle ret : Z)
| EvProcessEviction (req : MemReq.t) (wbAddr : Address)
                    (lineId startCycle ret : Z)
| EvProcessInv (req : InvReq.t) (lineId startCycle ret : Z)
| EvEndAccess (o : ReqObj) (req : MemReq.t).

Inductive Failure :=
| PanicInvalidate      (* panic("TLB entry should not be invalidated ...") *)
| AssertSkipAccess     (* assert(!skipAccess) *)
| AssertAbsentLine.    (* assert_msg(lineId != -1, ...) *)

(** ** World-passing monad with fatal exits *)

Section Pipeline.
Context {A C : Type} `{!CacheArray.T A} `{!CC.T C}.

Record World := mkWorld {
  w_array : A;
  w_cc : C;
  w_log : list Event
}.

Inductive Outcome (R : Type) :=
| Done (r : R) (w : World)
| Halt (f : Failure) (w : World).
Arguments Done {R} r w.
Arguments Halt {R} f w.

Definition Run (R : Type) := World -> Outcome R.

Definition ret {R} (r : R) : Run R := fun w => Done r w.

Definition bind {R Q} (m : Run R) (k : R -> Run Q) : Run Q :=
  fun w => match m w with
           | Done r w' => k r w'
           | Halt f w' => Halt f w'
           end.

Definition final {R} (o : Outcome R) : World :=
  match o with Done _ w => w | Halt _ w => w end.

Definition emit (e : Event) (w : World) : list Event := w_log w ++ [e].

(** Modelled from the spec: [panic] (macro of the missing log.h) ends the
    simulation run immediately. *)
Definition panic (f : Failure) : Run unit := fun w => Halt f w.

(** Modelled from the spec: a failed [assert] / [assert_msg] (log.h) is
    fatal. *)
Definition assert (f : Failure) (b : bool) : Run unit :=
  fun w => if b then Done tt w else Halt f w.

Definition array_lookup (key : Address) (req : option MemReq.t)
    (upd : bool) : Run Z :=
  fun w =>
    let '(l, a) := CacheArray.lookup (w_array w) key req upd in
    Done l (mkWorld a (w_cc w) (emit (EvLookup key l) w)).

Definition array_preinsert (key : Address) (req : option MemReq.t)
    : Run (Z * Address) :=
  fun w =>
    let '(l, wb, a) := CacheArray.preinsert (w_array w) key req in
    Done (l, wb) (mkWorld a (w_cc w) (emit (EvPreinsert key l wb) w)).

Definition array_postinsert (key : Address) (req : MemReq.t) (lineId : Z)
    : Run unit :=
  fun w =>
    Done tt (mkWorld (CacheArray.postinsert (w_array w) key req lineId)
                     (w_cc w) (emit (EvPostinsert key req lineId) w)).

(** Returns the skip flag and the request as the call leaves it. *)
Definition cc_startAccess (o : ReqObj) (req : MemReq.t)
    : Run (bool * MemReq.t) :=
  fun w =>
    let '(skip, ty, c) := CC.startAccess (w_cc w) req in
    Done (skip, MemReq.set_type ty req)
         (mkWorld (w_array w) c (emit (EvStartAccess o req skip) w)).

(** Returns the completion cycle and the state left in [*req.state]. *)
Definition cc_processAccess (o : ReqObj) (req : MemReq.t)
    (lineId startCycle : Z) : Run (Z * MESI.t) :=
  fun w =>
    let '(r, st, c) := CC.processAccess (w_cc w) req lineId startCycle in
    Done (r, st)
         (mkWorld (w_array w) c
                  (emit (EvProcessAccess o req lineId startCycle r) w)).

Definition cc_processEviction (req : MemReq.t) (wbAddr : Address)
    (lineId startCycle : Z) : Run Z :=
  fun w =>
    let '(r, c) :=
      CC.processEviction (w_cc w) req wbAddr lineId startCycle in
    Done r (mkWorld (w_array w) c
              (emit (EvProcessEviction req wbAddr lineId startCycle r) w)).

Definition cc_processInv (req : InvReq.t) (lineId startCycle : Z)
    : Run Z :=
  fun w =>
    let '(r, _, c) := CC.processInv (w_cc w) req lineId startCycle in
    Done r (mkWorld (w_array w) c
              (emit (EvProcessInv req lineId startCycle r) w)).

Definition cc_endAccess (o : ReqObj) (req : MemReq.t) : Run unit :=
  fun w =>
    Done tt (mkWorld (w_array w) (CC.endAccess (w_cc w) req)
                     (emit (EvEndAccess o req) w)).

End Pipeline.

Arguments World A C : clear implicits.
Arguments Outcome A C R : clear implicits.
Arguments Run A C R : clear implicits.
Arguments Done {A C R} r w.
Arguments Halt {A C R} f w.

Declare Scope run_scope.
Delimit Scope run_scope with run.
Notation "'call' p <- m ; k" := (bind m (fun p => k))
  (at level 10, p pattern, m at level 100, k at level 200,
   format "'[v' 'call'  p  <-  m ; '/' k ']'") : run_scope.
Notation "'exec' m ; k" := (bind m (fun _ => k))
  (at level 10, m at level 100, k at level 200,
   format "'[v' 'exec'  m ; '/' k ']'") : run_scope.

(** The array key [translate] derives from a virtual address:
    [procMask | (vAddr >> pageBits)]. *)
Definition translate_key (tlb : TLB) (vAddr : Address) : Address :=
  let vPageNum := Z.shiftr vAddr (pageBits tlb) in
  Z.lor (procMask tlb) vPageNum.

(** The line address of the page-table entry:
    [(req.pageNum / pteSize) >> lineBits]. *)
Definition pte_line (tlb : TLB) (pageNum : Address) : Address :=
  Z.shiftr (pageNum / pteSize tlb) (lineBits tlb).

(** ** The flagged revision (src/unnamed/part_001): [access] takes a
    [MemReq], brackets the whole access with [startAccess]/[endAccess],
    reports evictions and walks the page table only when [pageWalk] is set *)

Module Flagged.
Section Routines.
Context {A C : Type} `{!CacheArray.T A} `{!CC.T C}.
Local Open Scope run_scope.

(** [MemReq mem_req = {pLineAddr, GETS, 0, req.state, respCycle, nullptr,
    *req.state, req.srcId, req.flags}]. *)
Definition mem_req (req : MemReq.t) (pLineAddr : Address) (respCycle : Z)
    : MemReq.t :=
  MemReq.mk pLineAddr GETS 0 (MemReq.state req) respCycle
            (MemReq.state req) (MemReq.srcId req) (MemReq.flags req).

(** [TLB::access(MemReq& req)].  [req] is passed by reference: the result
    carries the request as the routine leaves it.  [respCycle] is read from
    [req.cycle] before [startAccess] runs; the body of
    [if (likely(!skipAccess))] is empty, so [skipAccess] is never used. *)
Definition access (tlb : TLB) (req : MemReq.t) : Run A C (Z * MemReq.t) :=
  let respCycle := MemReq.cycle req in
  call (skipAccess, req) <- cc_startAccess CallerReq req;
  call lineId <- array_lookup (MemReq.pageNum req) None false;
  let respCycle := wrap64 (respCycle + accLat tlb) in
  let accessed := false in
  call (lineId, respCycle, accessed, req) <-
    (if lineId =? -1 then
       call (lineId, WbAddr) <- array_preinsert (MemReq.pageNum req) None;
       call respCycle <- cc_processEviction req WbAddr lineId respCycle;
       call (respCycle, accessed, req) <-
         (if pageWalk tlb then
            let pLineAddr := pte_line tlb (MemReq.pageNum req) in
            let respCycle := wrap64 (respCycle + pageWalkLat tlb) in
            let mem_req := mem_req req pLineAddr respCycle in
            call (respCycle, st) <-
              cc_processAccess NestedReq mem_req lineId respCycle;
            (* mem_req.state aliases req.state *)
            ret (respCycle, true, MemReq.set_state st req)
          else ret (respCycle, accessed, req));
       exec array_postinsert (MemReq.pageNum req) req lineId;
       ret (lineId, respCycle, accessed, req)
     else ret (lineId, respCycle, accessed, req));
  call (respCycle, req) <-
    (if negb accessed then
       call (respCycle, st) <-
         cc_processAccess CallerReq req lineId respCycle;
       ret (respCycle, MemReq.set_state st req)
     else ret (respCycle, req));
  exec cc_endAccess CallerReq req;
  ret (respCycle, req).

(** [TLB::translate(Address vAddr, uint64_t curCycle)]. *)
Definition translate (tlb : TLB) (vAddr : Address) (curCycle : Z)
    : Run A C Z :=
  let pPageNum := translate_key tlb vAddr in
  let dummyState := MESI.I in
  let req :=
    MemReq.mk pPageNum GETS 0 dummyState curCycle dummyState
              (srcId tlb) (reqFlags tlb) in
  call (respCycle, _) <- access tlb req;
  ret respCycle.

(** [TLB::invalidate(const InvReq& req)]: the [panic] comes first. *)
Definition invalidate (tlb : TLB) (req : InvReq.t) : Run A C Z :=
  exec panic PanicInvalidate;
  call lineId <- array_lookup (InvReq.lineAddr req) None false;
  exec assert AssertAbsentLine (negb (lineId =? -1));
  let respCycle := wrap64 (InvReq.cycle req + invLat tlb) in
  call respCycle <- cc_processInv req lineId respCycle;
  ret respCycle.

End Routines.
End Flagged.

(** ** The unflagged revision (src/unnamed/part_000): [access] takes a
    [TLBReq], always walks the page table on a miss, never reports the
    eviction, and brackets only the nested fetch with
    [startAccess]/[endAccess] *)

(** [TLBReq] is brace-initialised as [{pPageNum, curCycle, 0}]; its
    declaration is in the missing header and the routines read the first two
    fields only. *)
Module TLBReq.
Record t := mk {
  pageNum : Address;
  cycle : Z;
  third : Z
}.
End TLBReq.

Module Unflagged.
Section Routines.
Context {A C : Type} `{!CacheArray.T A} `{!CC.T C}.
Local Open Scope run_scope.

(** [MESIState dummyState = MESIState::I;
    MemReq mem_req = {pLineAddr, GETS, 0, &dummyState, respCycle, nullptr,
    dummyState, srcId, reqFlags}]. *)
Definition mem_req (tlb : TLB) (pLineAddr : Address) (respCycle : Z)
    : MemReq.t :=
  let dummyState := MESI.I in
  MemReq.mk pLineAddr GETS 0 dummyState respCycle dummyState
            (srcId tlb) (reqFlags tlb).

(** [TLB::access(TLBReq& req)]. *)
Definition access (tlb : TLB) (req : TLBReq.t) : Run A C Z :=
  let respCycle := TLBReq.cycle req in
  call lineId <- array_lookup (TLBReq.pageNum req) None false;
  let respCycle := wrap64 (respCycle + accLat tlb) in
  if lineId =? -1 then
    call (lineId, WbAddr) <- array_preinsert (TLBReq.pageNum req) None;
    let pLineAddr := pte_line tlb (TLBReq.pageNum req) in
    let respCycle := wrap64 (respCycle + pageWalkLat tlb) in
    let mem_req := mem_req tlb pLineAddr respCycle in
    exec array_postinsert (TLBReq.pageNum req) mem_req lineId;
    call (skipAccess, mem_req) <- cc_startAccess NestedReq mem_req;
    exec assert AssertSkipAccess (negb skipAccess);
    call (respCycle, st) <-
      cc_processAccess NestedReq mem_req lineId respCycle;
    (* processAccess wrote the granted state through mem_req.state *)
    exec cc_endAccess NestedReq (MemReq.set_state st mem_req);
    ret respCycle
  else ret respCycle.

(** [TLB::translate(Address vAddr, uint64_t curCycle)]. *)
Definition translate (tlb : TLB) (vAddr : Address) (curCycle : Z)
    : Run A C Z :=
  let pPageNum := translate_key tlb vAddr in
  let req := TLBReq.mk pPageNum curCycle 0 in
  call respCycle <- access tlb req;
  ret respCycle.

(** [TLB::invalidate(const InvReq& req)]: the [panic] comes first. *)
Definition invalidate (tlb : TLB) (req : InvReq.t) : Run A C Z :=
  exec panic PanicInvalidate;
  call lineId <- array_lookup (InvReq.lineAddr req) None false;
  exec assert AssertAbsentLine (negb (lineId =? -1));
  let respCycle := wrap64 (InvReq.cycle req + invLat tlb) in
  call respCycle <- cc_processInv req lineId respCycle;
  ret respCycle.

End Routines.
End Unflagged.

(** ** Reference collaborators *)

(** Modelled from the spec: the [CacheArray] contract (the array classes are
    not among the sources).  A fully associative array of fixed capacity;
    [lookup] is a pure probe returning the slot or [-1]; [preinsert] picks the
    slot under a round-robin hand, reports its current key (0 when empty) and
    leaves the slot alone; [postinsert] commits the key into the slot and
    advances the hand. *)
Module SimpleArray.
Record t := mk {
  slots : list (option Address);
  hand : nat
}.

Definition empty (capacity : nat) : t := mk (replicate capacity None) 0.

Fixpoint find (key : Address) (l : list (option Address)) (i : Z) : Z :=
  match l with
  | [] => -1
  | Some k :: l' => if k =? key then i else find key l' (i + 1)
  | None :: l' => find key l' (i + 1)
  end.

Definition lookup (a : t) (key : Address) (_ : option MemReq.t) (_ : bool)
    : Z * t :=
  (find key (slots a) 0, a).

Definition preinsert (a : t) (key : Address) (_ : option MemReq.t)
    : Z * Address * t :=
  let victim := match slots a !! hand a with
                | Some (Some k) => k
                | _ => 0
                end in
  (Z.of_nat (hand a), victim, a).

Definition postinsert (a : t) (key : Address) (_ : MemReq.t) (lineId : Z)
    : t :=
  mk (<[Z.to_nat lineId := Some key]> (slots a))
     (Nat.modulo (Datatypes.S (hand a)) (length (slots a))).

Definition resident (a : t) (key : Address) : Prop :=
  Some key ∈ slots a.

#[global] Instance array : CacheArray.T t :=
  {| CacheArray.lookup := lookup;
     CacheArray.preinsert := preinsert;
     CacheArray.postinsert := postinsert |}.
End SimpleArray.

(** Modelled from the spec: the [CC] contract (the controllers are not among
    the sources).  [startAccess] reports the configured skip flag and leaves
    the type alone; [processAccess] and [processInv] charge [lat] cycles;
    [processEviction] charges nothing; [inflight] counts the accesses between
    [startAccess] and [endAccess]. *)
Module SimpleCC.
Record t := mk {
  skip : bool;
  lat : Z;
  inflight : Z
}.

Definition startAccess (c : t) (req : MemReq.t) : bool * AccessType * t :=
  (skip c, MemReq.type req, mk (skip c) (lat c) (inflight c + 1)).

Definition processAccess (c : t) (_ : MemReq.t) (_ startCycle : Z)
    : Z * MESI.t * t :=
  (wrap64 (startCycle + lat c), MESI.S, c).

Definition processEviction (c : t) (_ : MemReq.t) (_ : Address)
    (_ startCycle : Z) : Z * t :=
  (startCycle, c).

Definition processInv (c : t) (_ : InvReq.t) (_ startCycle : Z)
    : Z * bool * t :=
  (wrap64 (startCycle + lat c), false, c).

Definition endAccess (c : t) (_ : MemReq.t) : t :=
  mk (skip c) (lat c) (inflight c - 1).

#[global] Instance cc : CC.T t :=
  {| CC.startAccess := startAccess;
     CC.processAccess := processAccess;
     CC.processEviction := processEviction;
     CC.processInv := processInv;
     CC.endAccess := endAccess |}.
End SimpleCC.

(** The level of the specification's scenario: accLat 2, invLat 5,
    pageWalkLat 10, process mask 0, 4 KiB pages, 8-byte entries, 64-byte
    lines. *)
Definition scenario_tlb (walk : bool) : TLB :=
  {| accLat := 2; invLat := 5; pageWalkLat := 10; pageWalk := walk;
     procMask := 0; srcId := 2 ^ 32 - 1; reqFlags := 1;
     pageBits := 12; pteSize := 8; lineBits := 6 |}.

Definition scenario_world (capacity : nat) (skip : bool) (lat : Z)
    : World SimpleArray.t SimpleCC.t :=
  mkWorld (SimpleArray.empty capacity) (SimpleCC.mk skip lat 0) [].

(** ** Reading the call log *)

Definition is_preinsert (e : Event) : bool :=
  match e with EvPreinsert _ _ _ => true | _ => false end.

Definition is_postinsert (e : Event) : bool :=
  match e with EvPostinsert _ _ _ => true | _ => false end.

Definition is_insert (e : Event) : bool := is_preinsert e || is_postinsert e.

Definition is_processEviction (e : Event) : bool :=
  match e with EvProcessEviction _ _ _ _ _ => true | _ => false end.

Definition is_processAccess (e : Event) : bool :=
  match e with EvProcessAccess _ _ _ _ _ => true | _ => false end.

Definition is_startAccess (e : Event) : bool :=
  match e with EvStartAccess _ _ _ => true | _ => false end.

Definition is_endAccess (e : Event) : bool :=
  match e with EvEndAccess _ _ => true | _ => false end.

Definition is_bracket (e : Event) : bool :=
  is_startAccess e || is_endAccess e.

(** The calls of a log that satisfy [p], in order. *)
Definition calls (p : Event -> bool) (evs : list Event) : list Event :=
  List.filter p evs.

Definition ReqObj_eqb (a b : ReqObj) : bool :=
  match a, b with
  | CallerReq, CallerReq | NestedReq, NestedReq => true
  | _, _ => false
  end.

(** [bracketed open evs]: scanning [evs] with [open] the request object (if
    any) whose [startAccess] is still unanswered, every [startAccess] finds
    no bracket open, every [endAccess] closes the bracket of the same object,
    and none is left open at the end. *)
Fixpoint bracketed (open : option ReqObj) (evs : list Event) : bool :=
  match evs with
  | [] => match open with None => true | Some _ => false end
  | EvStartAccess o _ _ :: evs' =>
      match open with
      | None => bracketed (Some o) evs'
      | Some _ => false
      end
  | EvEndAccess o _ :: evs' =>
      match open with
      | Some o' => ReqObj_eqb o o' && bracketed None evs'
      | None => false
      end
  | _ :: evs' => bracketed open evs'
  end.

(** A controller call that returned a cycle no smaller than the start cycle
    it was passed. *)
Definition ev_monotone (e : Event) : Prop :=
  match e with
  | EvProcessAccess _ _ _ s r => s <= r
  | EvProcessEviction _ _ _ s r => s <= r
  | EvProcessInv _ _ s r => s <= r
  | _ => True
  end.

(** A controller call that was passed a start cycle of at least [c]. *)
Definition ev_starts_from (c : Z) (e : Event) : Prop :=
  match e with
  | EvProcessAccess _ _ _ s _ => c <= s
  | EvProcessEviction _ _ _ s _ => c <= s
  | _ => True
  end.

(** An eviction call whose returned cycle leaves room for [lat] more cycles
    in 64 bits. *)
Definition ev_leaves_room (lat : Z) (e : Event) : Prop :=
  match e with
  | EvProcessEviction _ _ _ _ r => r + lat < 2 ^ 64
  | _ => True
  end.

(** The key an array call was passed. *)
Definition ev_key (e : Event) : option Address :=
  match e with
  | EvLookup key _ => Some key
  | EvPreinsert key _ _ => Some key
  | EvPostinsert key _ _ => Some key
  | _ => None
  end.

(** The calls a run adds to the log of the world it starts from. *)
Definition trace {A C R : Type} (m : Run A C R) (w : World A C)
    : list Event :=
  skipn (length (w_log w)) (w_log (final (m w))).

(** ** Resident keys *)

(** Modelled from the spec: what the [CacheArray] contract (the array
    classes are not among the sources) says about the keys an array holds:
    [lookup] is a pure probe, [preinsert] does not touch the slots, and
    [postinsert] commits the key it is given and no other. *)
Class ArrayLaws (A : Type) `{!CacheArray.T A} := {
  resident : A -> Address -> Prop;
  lookup_resident : forall a key req upd k,
    resident (snd (CacheArray.lookup a key req upd)) k -> resident a k;
  preinsert_resident : forall a key req k,
    resident (snd (CacheArray.preinsert a key req)) k -> resident a k;
  postinsert_resident : forall a key req lineId k,
    resident (CacheArray.postinsert a key req lineId) k ->
    k = key \/ resident a k
}.

(** A run of [translate] calls, each given as (virtual address, cycle); a
    fatal call ends the run. *)
Fixpoint translate_all {A C : Type}
    (translate : TLB -> Address -> Z -> Run A C Z) (tlb : TLB)
    (reqs : list (Address * Z)) : Run A C unit :=
  match reqs with
  | [] => ret tt
  | (vAddr, curCycle) :: reqs' =>
      bind (translate tlb vAddr curCycle)
           (fun _ => translate_all translate tlb reqs')
  end.

(** ** Sample inputs *)

(** A one-slot array holding key 7, and an invalidation of that key issued at
    cycle 100. *)
Definition inv_world : World SimpleArray.t SimpleCC.t :=
  mkWorld (SimpleArray.mk [Some 7] 0) (SimpleCC.mk false 3 0) [].

Definition inv_req : InvReq.t := InvReq.mk 7 INV 100 false 0.

(** A read of page 1 issued at [cycle] by requester 0. *)
Definition page1_req (cycle : Z) : MemReq.t :=
  MemReq.mk 1 GETS 0 MESI.I cycle MESI.I 0 1.

(** The scenario level under the process mask [mask]. *)
Definition masked_tlb (mask : Address) : TLB :=
  {| accLat := 2; invLat := 5; pageWalkLat := 10; pageWalk := true;
     procMask := mask; srcId := 2 ^ 32 - 1; reqFlags := 1;
     pageBits := 12; pteSize := 8; lineBits := 6 |}.

(** ** Configuration value parsing (src/unnamed/part_002) *)

(** [Tokenize], [Range], [ParseMask] and [ParseList].  A [std::string] is a
    list of characters; a position is [Some n] or [None] for
    [string::npos]; [int32_t] arithmetic that would overflow (undefined
    behaviour) and the [std::out_of_range] of [substr] are outcomes of their
    own.  Stream extraction ([ss >> x]) belongs to the C++ library and is a
    parameter: [None] stands for [ss.fail()]. *)
Module Config.
Import Ascii.

Inductive Error :=
| OutOfFuel            (* the bound on loop iterations was too small *)
| OutOfRange           (* std::out_of_range thrown by substr *)
| SignedOverflow       (* int32_t overflow *)
| NotANumber           (* "%s in range %s is not a valid number" *)
| BadArity             (* "Range '%s' can only have 1-3 numbers ..." *)
| NegativeNumbers      (* "Range %s has negative numbers" *)
| ZeroStep             (* "Range %s has 0 step!" *)
| MinGeSup             (* "Range %s has min >= sup!" *)
| OutOfBounds          (* "Range %d:%d:%d includes out-of-bounds %d ..." *)
| ItemUnparsed.        (* "%s in list [%s] could not be parsed" *)

Inductive Result (T : Type) :=
| Ok (t : T)
| Err (e : Error).
Arguments Ok {T} t.
Arguments Err {T} e.

(** The delimiters of the range syntax: [" "] between ranges, [":"]
    between the numbers of a range. *)
Definition space : ascii := " "%char.
Definition colon : ascii := ":"%char.

Definition is_any_of (delimiters : list ascii) (c : ascii) : bool :=
  existsb (Ascii.eqb c) delimiters.

(** Index of the first character of [s] that satisfies [p]. *)
Fixpoint first_at (p : ascii -> bool) (s : list ascii) : option nat :=
  match s with
  | [] => None
  | c :: s' => if p c then Some O else option_map Datatypes.S (first_at p s')
  end.

(** [str.find_first_of(delimiters, pos)]. *)
Definition find_first_of (str delimiters : list ascii) (pos : option nat)
    : option nat :=
  match pos with
  | None => None
  | Some n =>
      option_map (Nat.add n) (first_at (is_any_of delimiters) (skipn n str))
  end.

(** [str.find_first_not_of(delimiters, pos)]. *)
Definition find_first_not_of (str delimiters : list ascii)
    (pos : option nat) : option nat :=
  match pos with
  | None => None
  | Some n =>
      option_map (Nat.add n)
        (first_at (fun c => negb (is_any_of delimiters c)) (skipn n str))
  end.

(** [pos - lastPos] in [size_type]: a count, or [None] for a count that
    reaches past every string ([npos - lastPos], or a difference that wraps
    around). *)
Definition pos_sub (pos lastPos : option nat) : option nat :=
  match pos, lastPos with
  | Some p, Some l => if Nat.leb l p then Some (p - l)%nat else None
  | _, _ => None
  end.

(** [str.substr(pos, count)]: throws when [pos > size()], and clamps the
    count to the end of the string. *)
Definition substr (str : list ascii) (pos count : option nat)
    : Result (list ascii) :=
  match pos with
  | Some n =>
      if Nat.leb n (List.length str) then
        Ok (match count with
            | Some k => firstn k (skipn n str)
            | None => skipn n str
            end)
      else Err OutOfRange
  | None => Err OutOfRange
  end.

(** The [while (string::npos != pos || string::npos != lastPos)] loop of
    [Tokenize], run for at most [fuel] iterations. *)
Fixpoint Tokenize_loop (fuel : nat) (str delimiters : list ascii)
    (lastPos pos : option nat) (tokens : list (list ascii))
    : Result (list (list ascii)) :=
  match pos, lastPos with
  | None, None => Ok tokens
  | _, _ =>
      match fuel with
      | O => Err OutOfFuel
      | Datatypes.S fuel' =>
          match substr str lastPos (pos_sub pos lastPos) with
          | Err e => Err e
          | Ok token =>
              let tokens := tokens ++ [token] in
              let lastPos := find_first_not_of str delimiters pos in
              let pos := find_first_of str delimiters lastPos in
              Tokenize_loop fuel' str delimiters lastPos pos tokens
          end
      end
  end.

(** [Tokenize(str, tokens, delimiters)]: the result is [tokens] as the call
    leaves it. *)
Definition Tokenize (str : list ascii) (tokens : list (list ascii))
    (delimiters : list ascii) : Result (list (list ascii)) :=
  let lastPos := Some O in
  let pos := find_first_of str delimiters lastPos in
  Tokenize_loop (Datatypes.S (List.length str)) str delimiters lastPos pos
    tokens.

(** A one-pass reading of what [Tokenize] appends, used to reason about it:
    [cur] is the token being read ([None] between tokens); a delimiter ends
    the token being read, any other character extends or starts one. *)
Fixpoint scan (delimiters : list ascii) (s : list ascii)
    (cur : option (list ascii)) : list (list ascii) :=
  match s with
  | [] => match cur with Some t => [t] | None => [] end
  | c :: s' =>
      if is_any_of delimiters c then
        match cur with
        | Some t => t :: scan delimiters s' None
        | None => scan delimiters s' None
        end
      else
        scan delimiters s'
          (Some (match cur with Some t => t ++ [c] | None => [c] end))
  end.

(** Conversion of a [uint32_t] to [int32_t]. *)
Definition to_int32 (x : Z) : Z :=
  let y := x mod 2 ^ 32 in
  if y <? 2 ^ 31 then y else y - 2 ^ 32.

Definition fits_int32 (x : Z) : bool :=
  (- 2 ^ 31 <=? x) && (x <? 2 ^ 31).

(** [struct Range]. *)
Record Range := mkRange {
  min : Z;
  sup : Z;
  step : Z
}.

Section Parsing.
(** [stringstream ss(s); uint32_t x = 0; ss >> x;] with [None] for
    [ss.fail()]. *)
Variable parse_uint32 : list ascii -> option Z.

(** [for (auto s : t) { ... n.push_back(x); }] of the [Range]
    constructor. *)
Fixpoint parse_numbers (t : list (list ascii)) : Result (list Z) :=
  match t with
  | [] => Ok []
  | s :: t' =>
      match parse_uint32 s with
      | None => Err NotANumber
      | Some x =>
          match parse_numbers t' with
          | Ok n => Ok (x :: n)
          | Err e => Err e
          end
      end
  end.

(** The final error checks of the [Range] constructor. *)
Definition Range_check (r : Range) : Result Range :=
  if (min r <? 0) || (step r <? 0) || (sup r <? 0) then Err NegativeNumbers
  else if step r =? 0 then Err ZeroStep
  else if sup r <=? min r then Err MinGeSup
  else Ok r.

(** [explicit Range(string r)]. *)
Definition Range_new (r : list ascii) : Result Range :=
  match Tokenize r [] [colon] with
  | Err e => Err e
  | Ok t =>
      match parse_numbers t with
      | Err e => Err e
      | Ok n =>
          match n with
          | [n0] =>
              let min := to_int32 n0 in
              if fits_int32 (min + 1)
              then Range_check (mkRange min (min + 1) 1)
              else Err SignedOverflow
          | [n0; n1] =>
              Range_check (mkRange (to_int32 n0) (to_int32 n1) 1)
          | [n0; n1; n2] =>
              Range_check (mkRange (to_int32 n0) (to_int32 n1) (to_int32 n2))
          | _ => Err BadArity
          end
      end
  end.

(** The [for (int32_t i = min; i < sup; i += step)] loop of [Range::fill],
    run for at most [fuel] iterations. *)
Fixpoint fill_loop (fuel : nat) (r : Range) (i : Z) (mask : list bool)
    : Result (list bool) :=
  if i <? sup r then
    match fuel with
    | O => Err OutOfFuel
    | Datatypes.S fuel' =>
        if (to_int32 (Z.of_nat (List.length mask)) <=? i) || (i <? 0)
        then Err OutOfBounds
        else
          let mask := <[Z.to_nat i := true]> mask in
          if fits_int32 (i + step r)
          then fill_loop fuel' r (i + step r) mask
          else Err SignedOverflow
    end
  else Ok mask.

(** [Range::fill(vector<bool>& mask)]: the result is [mask] as the call
    leaves it. *)
Definition fill (r : Range) (mask : list bool) : Result (list bool) :=
  fill_loop (Z.to_nat (sup r - min r)) r (min r) mask.

(** [for (auto r : ranges) { if (r.length() == 0) continue; Range range(r);
    range.fill(mask); }] of [ParseMask]. *)
Fixpoint ParseMask_loop (ranges : list (list ascii)) (mask : list bool)
    : Result (list bool) :=
  match ranges with
  | [] => Ok mask
  | r :: ranges' =>
      if Nat.eqb (List.length r) 0 then ParseMask_loop ranges' mask
      else
        match Range_new r with
        | Err e => Err e
        | Ok range =>
            match fill range mask with
            | Err e => Err e
            | Ok mask => ParseMask_loop ranges' mask
            end
        end
  end.

(** [ParseMask(maskStr, maskSize)]. *)
Definition ParseMask (maskStr : list ascii) (maskSize : Z)
    : Result (list bool) :=
  let mask := repeat false (Z.to_nat maskSize) in
  match Tokenize maskStr [] [space] with
  | Err e => Err e
  | Ok ranges => ParseMask_loop ranges mask
  end.

End Parsing.

Section ParseListOf.
Context {T : Type}.
(** [stringstream ss(n); T x; ss >> x;] with [None] for [ss.fail()]. *)
Variable parse : list ascii -> option T.

(** [for (auto n : nums) { if (n.length() == 0) continue; ...
    res.push_back(x); }] of [ParseList]. *)
Fixpoint ParseList_loop (nums : list (list ascii)) (res : list T)
    : Result (list T) :=
  match nums with
  | [] => Ok res
  | n :: nums' =>
      if Nat.eqb (List.length n) 0 then ParseList_loop nums' res
      else
        match parse n with
        | None => Err ItemUnparsed
        | Some x => ParseList_loop nums' (res ++ [x])
        end
  end.

(** [ParseList<T>(listStr, delimiters)]. *)
Definition ParseList (listStr delimiters : list ascii) : Result (list T) :=
  match Tokenize listStr [] delimiters with
  | Err e => Err e
  | Ok nums => ParseList_loop nums []
  end.
End ParseListOf.

(** The indices [Range::fill] visits from [i] on: [i], [i + step], ...
    below [sup]. *)
Definition covered_from (r : Range) (i n : Z) : Prop :=
  exists k, 0 <= k /\ n = i + k * step r /\ n < sup r.

(** The indices of the range: those visited from [min] on. *)
Definition covers (r : Range) (n : Z) : Prop := covered_from r (min r) n.

(** [r.length() != 0]. *)
Definition nonempty (t : list ascii) : bool :=
  negb (Nat.eqb (List.length t) 0).

(** A stand-in for [ss >> x] on tokens made of decimal digits only: the
    value when the token is a non-empty run of digits below 2^32, failure
    otherwise. *)
Definition digit_of (c : ascii) : option Z :=
  let n := Z.of_nat (nat_of_ascii c) in
  if (48 <=? n) && (n <=? 57) then Some (n - 48) else None.

Fixpoint digits_value (acc : Z) (s : list ascii) : option Z :=
  match s with
  | [] => Some acc
  | c :: s' =>
      match digit_of c with
      | Some d => digits_value (10 * acc + d) s'
      | None => None
      end
  end.

Definition parse_digits (s : list ascii) : option Z :=
  match s with
  | [] => None
  | _ =>
      match digits_value 0 s with
      | Some v => if v <? 2 ^ 32 then Some v else None
      | None => None
      end
  end.

(** The characters of a string literal. *)
Definition chars (s : String.string) : list ascii :=
  String.list_ascii_of_string s.

(** Sample inputs. *)
Module Samples.
Import String.

Definition comma : ascii := ","%char.

(** The even cores of eight, and core 5. *)
Definition evens_str : list ascii := chars "0:8:2".
Definition five_str : list ascii := chars "5".
Definition evens_and_five_str : list ascii := chars "0:8:2 5".
Definition evens : Range := mkRange 0 8 2.
Definition evens_and_five : list bool :=
  [true; false; true; false; true; true; true; false].

Definition blanks : list ascii := chars "  ".
Definition word : list ascii := chars "l1d".
Definition one_two : list ascii := chars "1,2".
Definition three : list ascii := chars "3".
Definition gap_one_two : list ascii := chars ",1,2".
Definition gap_one_two_tokens : list (list ascii) :=
  [chars ""; chars "1"; chars "2"].

End Samples.

End Config.

(** ** Per-process statistics: the stat-tree walks
    (proc_stats.cpp, second part of src/src/stats_filter.cpp) *)

(** The stat classes are declared in a header that is not among the
    sources.  A stat is modelled by what the walks read of it: an aggregate
    has a regularity flag and children ([isRegular], [size], [get(i)]); a
    scalar has a value ([get]); a vector has counters ([size], [count(i)])
    and may carry counter names ([hasCounterNames]); anything else is
    "unrecognized".  [Counter::inc] and [VectorCounter::inc] are taken as a
    parameter.  A [uint64_t*] into a buffer is an index into the list that
    models the buffer; reading or writing past its end is an outcome of its
    own. *)
Module Stats.

#[warnings="-register-all"]
Inductive Stat :=
| Aggregate (name desc : String.string) (regular : bool)
            (children : list Stat)
| Scalar (name desc : String.string) (value : Z)
| Vector (name desc : String.string) (counters : list Z)
         (counterNames : bool)
| Unrecognized (name desc : String.string).

Inductive Error :=
| UnrecognizedStat     (* panic("Unrecognized stat type") *)
| CounterNames         (* assert(!vs->hasCounterNames()) *)
| BufferOverrun.       (* access past the end of the buffer *)

Inductive Result (T : Type) :=
| Ok (t : T)
| Err (e : Error).
Arguments Ok {T} t.
Arguments Err {T} e.

Definition name_of (s : Stat) : String.string :=
  match s with
  | Aggregate n _ _ _ | Scalar n _ _ | Vector n _ _ _ | Unrecognized n _ => n
  end.

Definition desc_of (s : Stat) : String.string :=
  match s with
  | Aggregate _ d _ _ | Scalar _ d _ | Vector _ d _ _ | Unrecognized _ d => d
  end.

(** [StatSize(Stat* s)]; [sz] is a [uint64_t]. *)
Fixpoint StatSize (s : Stat) : Result Z :=
  match s with
  | Aggregate _ _ _ children =>
      (fix loop (cs : list Stat) (sz : Z) : Result Z :=
         match cs with
         | [] => Ok sz
         | c :: cs' =>
             match StatSize c with
             | Ok n => loop cs' (wrap64 (sz + n))
             | Err e => Err e
             end
         end) children 0
  | Scalar _ _ _ => Ok 1
  | Vector _ _ counters _ => Ok (Z.of_nat (List.length counters))
  | Unrecognized _ _ => Err UnrecognizedStat
  end.

(** [*(curPtr++) = v]. *)
Definition store (buf : list Z) (curPtr : nat) (v : Z)
    : Result (list Z * nat) :=
  if Nat.ltb curPtr (List.length buf)
  then Ok (<[curPtr := v]> buf, Datatypes.S curPtr)
  else Err BufferOverrun.

(** [for (i = 0; i < vs->size(); i++) *(curPtr++) = vs->count(i);]. *)
Fixpoint store_all (buf : list Z) (curPtr : nat) (vs : list Z)
    : Result (list Z * nat) :=
  match vs with
  | [] => Ok (buf, curPtr)
  | v :: vs' =>
      match store buf curPtr v with
      | Ok (buf', curPtr') => store_all buf' curPtr' vs'
      | Err e => Err e
      end
  end.

(** [DumpWalk(Stat* s, uint64_t* curPtr)]: the buffer as the walk leaves it
    and the pointer it returns. *)
Fixpoint DumpWalk (s : Stat) (buf : list Z) (curPtr : nat)
    : Result (list Z * nat) :=
  match s with
  | Aggregate _ _ _ children =>
      (fix loop (cs : list Stat) (buf : list Z) (curPtr : nat)
         : Result (list Z * nat) :=
         match cs with
         | [] => Ok (buf, curPtr)
         | c :: cs' =>
             match DumpWalk c buf curPtr with
             | Ok (buf', curPtr') => loop cs' buf' curPtr'
             | Err e => Err e
             end
         end) children buf curPtr
  | Scalar _ _ value => store buf curPtr value
  | Vector _ _ counters _ => store_all buf curPtr counters
  | Unrecognized _ _ => Err UnrecognizedStat
  end.

Section Inc.
(** [Counter::inc(delta)] / [VectorCounter::inc(idx, delta)]: the new value
    of a counter from its value and [delta]. *)
Variable counter_inc : Z -> Z -> Z.

(** [for (i = 0; i < vs->size(); i++) vs->inc(i, *(curPtr++));]. *)
Fixpoint inc_all (buf : list Z) (curPtr : nat) (vs : list Z)
    : Result (list Z * nat) :=
  match vs with
  | [] => Ok ([], curPtr)
  | v :: vs' =>
      match buf !! curPtr with
      | Some delta =>
          match inc_all buf (Datatypes.S curPtr) vs' with
          | Ok (vs'', curPtr') => Ok (counter_inc v delta :: vs'', curPtr')
          | Err e => Err e
          end
      | None => Err BufferOverrun
      end
  end.

(** [IncWalk(Stat* s, uint64_t* curPtr)]: the stat as the walk leaves it and
    the pointer it returns. *)
Fixpoint IncWalk (s : Stat) (buf : list Z) (curPtr : nat)
    : Result (Stat * nat) :=
  match s with
  | Aggregate name desc regular children =>
      match
        (fix loop (cs : list Stat) (curPtr : nat)
           : Result (list Stat * nat) :=
           match cs with
           | [] => Ok ([], curPtr)
           | c :: cs' =>
               match IncWalk c buf curPtr with
               | Ok (c', curPtr') =>
                   match loop cs' curPtr' with
                   | Ok (cs'', curPtr'') => Ok (c' :: cs'', curPtr'')
                   | Err e => Err e
                   end
               | Err e => Err e
               end
           end) children curPtr
      with
      | Ok (children', curPtr') =>
          Ok (Aggregate name desc regular children', curPtr')
      | Err e => Err e
      end
  | Scalar name desc value =>
      match buf !! curPtr with
      | Some delta =>
          Ok (Scalar name desc (counter_inc value delta), Datatypes.S curPtr)
      | None => Err BufferOverrun
      end
  | Vector name desc counters counterNames =>
      match inc_all buf curPtr counters with
      | Ok (counters', curPtr') =>
          Ok (Vector name desc counters' counterNames, curPtr')
      | Err e => Err e
      end
  | Unrecognized _ _ => Err UnrecognizedStat
  end.
End Inc.

(** [ProcStats::replStat(Stat* s, const char* name, const char* desc)],
    with [None] for a null [name] or [desc].  The counters it creates start
    at zero; that reading one of them through [get] or [count] first runs
    [update] is not part of a stat's data. *)
Fixpoint replStat (s : Stat) (name desc : option String.string)
    : Result Stat :=
  let name := match name with Some n => n | None => name_of s end in
  let desc := match desc with Some d => d | None => desc_of s end in
  match s with
  | Aggregate _ _ regular children =>
      match
        (fix loop (cs : list Stat) : Result (list Stat) :=
           match cs with
           | [] => Ok []
           | c :: cs' =>
               match replStat c None None with
               | Ok c' =>
                   match loop cs' with
                   | Ok cs'' => Ok (c' :: cs'')
                   | Err e => Err e
                   end
               | Err e => Err e
               end
           end) children
      with
      | Ok children' => Ok (Aggregate name desc regular children')
      | Err e => Err e
      end
  | Scalar _ _ _ => Ok (Scalar name desc 0)
  | Vector _ _ counters counterNames =>
      if counterNames then Err CounterNames
      else Ok (Vector name desc (repeat 0 (List.length counters)) false)
  | Unrecognized _ _ => Err UnrecognizedStat
  end.

(** The values of a stat in the order the walks visit them. *)
Fixpoint values (s : Stat) : list Z :=
  match s with
  | Aggregate _ _ _ children => List.concat (List.map values children)
  | Scalar _ _ value => [value]
  | Vector _ _ counters _ => counters
  | Unrecognized _ _ => []
  end.

(** No unrecognized stat anywhere in the tree. *)
Fixpoint recognized (s : Stat) : bool :=
  match s with
  | Aggregate _ _ _ children => forallb recognized children
  | Scalar _ _ _ | Vector _ _ _ _ => true
  | Unrecognized _ _ => false
  end.

(** No vector with counter names anywhere in the tree. *)
Fixpoint nameless (s : Stat) : bool :=
  match s with
  | Aggregate _ _ _ children => forallb nameless children
  | Vector _ _ _ counterNames => negb counterNames
  | Scalar _ _ _ | Unrecognized _ _ => true
  end.

(** The tree with its values forgotten: kinds, names, flags and sizes. *)
Fixpoint shape (s : Stat) : Stat :=
  match s with
  | Aggregate n d regular children =>
      Aggregate n d regular (List.map shape children)
  | Scalar n d _ => Scalar n d 0
  | Vector n d counters counterNames =>
      Vector n d (repeat 0 (List.length counters)) counterNames
  | Unrecognized n d => Unrecognized n d
  end.

(** The loops over the children of an aggregate, by name. *)
Fixpoint StatSize_children (cs : list Stat) (sz : Z) : Result Z :=
  match cs with
  | [] => Ok sz
  | c :: cs' =>
      match StatSize c with
      | Ok n => StatSize_children cs' (wrap64 (sz + n))
      | Err e => Err e
      end
  end.

Fixpoint DumpWalk_children (cs : list Stat) (buf : list Z) (curPtr : nat)
    : Result (list Z * nat) :=
  match cs with
  | [] => Ok (buf, curPtr)
  | c :: cs' =>
      match DumpWalk c buf curPtr with
      | Ok (buf', curPtr') => DumpWalk_children cs' buf' curPtr'
      | Err e => Err e
      end
  end.

Fixpoint IncWalk_children (counter_inc : Z -> Z -> Z) (cs : list Stat)
    (buf : list Z) (curPtr : nat) : Result (list Stat * nat) :=
  match cs with
  | [] => Ok ([], curPtr)
  | c :: cs' =>
      match IncWalk counter_inc c buf curPtr with
      | Ok (c', curPtr') =>
          match IncWalk_children counter_inc cs' buf curPtr' with
          | Ok (cs'', curPtr'') => Ok (c' :: cs'', curPtr'')
          | Err e => Err e
          end
      | Err e => Err e
      end
  end.

Fixpoint replStat_children (cs : list Stat) : Result (list Stat) :=
  match cs with
  | [] => Ok []
  | c :: cs' =>
      match replStat c None None with
      | Ok c' =>
          match replStat_children cs' with
          | Ok cs'' => Ok (c' :: cs'')
          | Err e => Err e
          end
      | Err e => Err e
      end
  end.

(** Induction on a stat tree, with the property for all children of an
    aggregate. *)
Section Induction.
Variable P : Stat -> Prop.
Hypothesis P_Aggregate :
  forall n d regular children,
    Forall P children -> P (Aggregate n d regular children).
Hypothesis P_Scalar : forall n d v, P (Scalar n d v).
Hypothesis P_Vector : forall n d cs names, P (Vector n d cs names).
Hypothesis P_Unrecognized : forall n d, P (Unrecognized n d).

Fixpoint Stat_tree_ind (s : Stat) : P s :=
  match s with
  | Aggregate n d regular children =>
      P_Aggregate n d regular children
        ((fix all (cs : list Stat) : Forall P cs :=
            match cs with
            | [] => @List.Forall_nil _ P
            | c :: cs' => @List.Forall_cons _ P c cs' (Stat_tree_ind c) (all cs')
            end) children)
  | Scalar n d v => P_Scalar n d v
  | Vector n d cs names => P_Vector n d cs names
  | Unrecognized n d => P_Unrecognized n d
  end.
End Induction.

(** Sample inputs. *)
Module Samples.
Import String.

(** The stats of one core: a cycle counter, a vector of three event
    counters and a nested group with two counters. *)
Definition core (cycles e0 e1 e2 hits misses : Z) : Stat :=
  Aggregate "core" "Core stats" true
    [Scalar "cycles" "Simulated cycles" cycles;
     Vector "events" "Event counts" [e0; e1; e2] false;
     Aggregate "l1d" "L1D stats" false
       [Scalar "hGETS" "GETS hits" hits;
        Scalar "mGETS" "GETS misses" misses]].

Definition core0 : Stat := core 100 1 2 3 40 4.
Definition core1 : Stat := core 7 0 0 1 5 5.

(** A tree [replStat] rejects: a vector with counter names after an
    unrecognized stat. *)
Definition foreign : Stat :=
  Aggregate "core" "Core stats" true
    [Unrecognized "histogram" "Latency histogram";
     Vector "events" "Event counts" [1; 2] true].

(** Counters that add modulo 2^64. *)
Definition add64 (v delta : Z) : Z := wrap64 (v + delta).

End Samples.

End Stats.

(** ** Per-process statistics: [ProcStats::update] *)

(** [zinfo], the scheduler and the process tree are not among the sources:
    the fields of [zinfo] the routine reads, [sched->getScheduledPid] and
    [procArray[p]->getGroupIdx] are parameters.  [assert] is fatal when it
    fails, and so is [AggregateStat::get] past the last child. *)
Module ProcStats.

Definition wrap32 (x : Z) : Z := x mod 2 ^ 32.

Inductive Failure :=
| Walk (e : Stats.Error)  (* raised inside StatSize, DumpWalk, IncWalk or
                             replStat *)
| NotPerCore              (* panic("Stat %s is not per-core (%s)", ...) *)
| AssertRegular           (* assert(as->isRegular()) *)
| AssertPhase             (* assert(lastUpdatePhase < zinfo->numPhases) *)
| AssertEndBuf            (* assert(buf + bufSize == endBuf) *)
| AssertAggregate         (* assert(...->isAggregate()) *)
| AssertStatSize          (* assert(StatSize(cs) == StatSize(ps)) *)
| AssertStart             (* assert(start == bufSize) *)
| ChildOutOfRange.        (* get(i) with i >= size() *)

Inductive Outcome (T : Type) :=
| Done (t : T)
| Fail (f : Failure).
Arguments Done {T} t.
Arguments Fail {T} f.

(** An [AggregateStat*]. *)
Record AggregateStat := mkAggregate {
  name : String.string;
  desc : String.string;
  isRegular : bool;
  children : list Stats.Stat
}.

Definition upcast (a : AggregateStat) : Stats.Stat :=
  Stats.Aggregate (name a) (desc a) (isRegular a) (children a).

(** [static_cast<AggregateStat*>(s)] under [assert(s->isAggregate())]. *)
Definition as_aggregate (s : Stats.Stat) : Outcome AggregateStat :=
  match s with
  | Stats.Aggregate n d r cs => Done (mkAggregate n d r cs)
  | _ => Fail AssertAggregate
  end.

(** [a->get(i)]. *)
Definition get (a : AggregateStat) (i : Z) : Outcome Stats.Stat :=
  match children a !! Z.to_nat i with
  | Some s => Done s
  | None => Fail ChildOutOfRange
  end.

(** The aggregate with child [i] replaced: what a write through the pointer
    [a->get(i)] does to [a]. *)
Definition set (a : AggregateStat) (i : Z) (s : Stats.Stat)
    : AggregateStat :=
  mkAggregate (name a) (desc a) (isRegular a)
              (<[Z.to_nat i := s]> (children a)).

Record GlobSimInfo := {
  lineSize : Z;
  numCores : Z;
  numPhases : Z;
  getScheduledPid : Z -> Z;
  getGroupIdx : Z -> Z
}.

(** The members of [ProcStats]. *)
Record t := mk {
  coreStats : AggregateStat;
  procStats : AggregateStat;
  bufSize : Z;
  buf : list Z;
  lastBuf : list Z;
  lastUpdatePhase : Z
}.

(** [a->append(child)]. *)
Definition append (a : AggregateStat) (child : Stats.Stat) : AggregateStat :=
  mkAggregate (name a) (desc a) (isRegular a) (children a ++ [child]).

Module Names.
Import String.
Definition procStats : string := "procStats".
Definition perProcess : string := "Per-process stats".
Definition group (number : string) : string := "procStats-" ++ number.
End Names.

Section Construct.
Variable zinfo : GlobSimInfo.
(** [Str(p)] of the missing str.h. *)
Variable Str : Z -> String.string.

(** The loop that checks that [coreStats] are appropriate. *)
Fixpoint check_per_core (stats : list Stats.Stat) : Outcome unit :=
  match stats with
  | [] => Done tt
  | s :: stats' =>
      match s with
      | Stats.Aggregate _ _ regular cores =>
          if negb regular then Fail NotPerCore
          else if negb (Z.of_nat (List.length cores) =? numCores zinfo)
          then Fail NotPerCore
          else check_per_core stats'
      | _ => Fail NotPerCore
      end
  end.

(** [for (uint32_t i = 0; i < coreStats->size(); i++) { ...
    ps->append(replStat(as->get(0), as->name(), as->desc())); }]: the
    children appended to [ps]. *)
Fixpoint replicate_core0 (stats : list Stats.Stat)
    : Outcome (list Stats.Stat) :=
  match stats with
  | [] => Done []
  | s :: stats' =>
      match as_aggregate s with
      | Fail f => Fail f
      | Done cores =>
          if negb (isRegular cores) then Fail AssertRegular
          else
            match get cores 0 with
            | Fail f => Fail f
            | Done core0 =>
                match Stats.replStat core0 (Some (name cores))
                        (Some (desc cores)) with
                | Stats.Err e => Fail (Walk e)
                | Stats.Ok r =>
                    match replicate_core0 stats' with
                    | Fail f => Fail f
                    | Done rs => Done (r :: rs)
                    end
                end
            end
      end
  end.

(** [for (uint32_t p = 0; p < maxProcs; p++) { ... procStats->append(ps); }]
    with [n] rounds left: the children appended to [procStats]. *)
Fixpoint make_groups (coreStats : AggregateStat) (n : nat) (p : Z)
    : Outcome (list Stats.Stat) :=
  match n with
  | O => Done []
  | Datatypes.S n' =>
      match replicate_core0 (children coreStats) with
      | Fail f => Fail f
      | Done rs =>
          let ps :=
            Stats.Aggregate (Names.group (Str p)) Names.perProcess false rs in
          match make_groups coreStats n' (p + 1) with
          | Fail f => Fail f
          | Done groups => Done (ps :: groups)
          end
      end
  end.

(** [ProcStats::ProcStats(AggregateStat* parentStat,
    AggregateStat* _coreStats)]: the object and [parentStat] as the
    constructor leaves it.  [gm_calloc] returns zeroed memory. *)
Definition new (parentStat coreStats : AggregateStat)
    : Outcome (t * AggregateStat) :=
  let maxProcs := lineSize zinfo in
  let lastUpdatePhase := 0 in
  match check_per_core (children coreStats) with
  | Fail f => Fail f
  | Done _ =>
      match Stats.StatSize (upcast coreStats) with
      | Stats.Err e => Fail (Walk e)
      | Stats.Ok bufSize =>
          let buf := repeat 0 (Z.to_nat bufSize) in
          let lastBuf := repeat 0 (Z.to_nat bufSize) in
          match make_groups coreStats (Z.to_nat maxProcs) 0 with
          | Fail f => Fail f
          | Done groups =>
              let procStats :=
                mkAggregate Names.procStats Names.perProcess true groups in
              Done (mk coreStats procStats bufSize buf lastBuf
                       lastUpdatePhase,
                    append parentStat (upcast procStats))
          end
      end
  end.

End Construct.

Section Update.
Variable counter_inc : Z -> Z -> Z.
Variable zinfo : GlobSimInfo.

(** [for (uint64_t i = 0; i < bufSize; i++) lastBuf[i] = buf[i] -
    lastBuf[i];] with [n] rounds left. *)
Fixpoint diff_loop (n i : nat) (buf lastBuf : list Z) : Outcome (list Z) :=
  match n with
  | O => Done lastBuf
  | Datatypes.S n' =>
      match buf !! i, lastBuf !! i with
      | Some b, Some l =>
          diff_loop n' (Datatypes.S i) buf (<[i := wrap64 (b - l)]> lastBuf)
      | _, _ => Fail (Walk Stats.BufferOverrun)
      end
  end.

(** [uint32_t p = zinfo->sched->getScheduledPid(c);
    if (p == (uint32_t)-1) p = zinfo->lineSize - 1;
    else p = zinfo->procArray[p]->getGroupIdx();]. *)
Definition group_of (c : Z) : Z :=
  let p := wrap32 (getScheduledPid zinfo c) in
  if p =? 2 ^ 32 - 1 then wrap32 (lineSize zinfo - 1)
  else wrap32 (getGroupIdx zinfo p).

(** The body of the loops: core [c] of per-core stat [i]. *)
Definition account (i c : Z) (s : Stats.Stat) (procStats : AggregateStat)
    (buf : list Z) (start : Z) : Outcome (AggregateStat * Z) :=
  match as_aggregate s with
  | Fail f => Fail f
  | Done cs =>
      let p := group_of c in
      match get procStats p with
      | Fail f => Fail f
      | Done g =>
          match as_aggregate g with
          | Fail f => Fail f
          | Done group =>
              match get group i with
              | Fail f => Fail f
              | Done ps =>
                  match Stats.StatSize (upcast cs), Stats.StatSize ps with
                  | Stats.Err e, _ | _, Stats.Err e => Fail (Walk e)
                  | Stats.Ok size, Stats.Ok psize =>
                      if size =? psize then
                        match Stats.IncWalk counter_inc ps buf
                                (Z.to_nat start) with
                        | Stats.Err e => Fail (Walk e)
                        | Stats.Ok (ps', _) =>
                            Done (set procStats p (upcast (set group i ps')),
                                  wrap64 (start + size))
                        end
                      else Fail AssertStatSize
                  end
              end
          end
      end
  end.

(** [for (uint32_t c = 0; c < as->size(); c++) { ... }] from core [c] on. *)
Fixpoint cores_loop (i : Z) (cores : list Stats.Stat) (c : Z)
    (procStats : AggregateStat) (buf : list Z) (start : Z)
    : Outcome (AggregateStat * Z) :=
  match cores with
  | [] => Done (procStats, start)
  | s :: cores' =>
      match account i c s procStats buf start with
      | Fail f => Fail f
      | Done (procStats', start') =>
          cores_loop i cores' (c + 1) procStats' buf start'
      end
  end.

(** [for (uint32_t i = 0; i < coreStats->size(); i++) { ... }] from stat
    [i] on. *)
Fixpoint stats_loop (stats : list Stats.Stat) (i : Z)
    (procStats : AggregateStat) (buf : list Z) (start : Z)
    : Outcome (AggregateStat * Z) :=
  match stats with
  | [] => Done (procStats, start)
  | s :: stats' =>
      match as_aggregate s with
      | Fail f => Fail f
      | Done cores =>
          match cores_loop i (children cores) 0 procStats buf start with
          | Fail f => Fail f
          | Done (procStats', start') =>
              stats_loop stats' (i + 1) procStats' buf start'
          end
      end
  end.

(** [ProcStats::update()]. *)
Definition update (ps : t) : Outcome t :=
  if lastUpdatePhase ps =? numPhases zinfo then Done ps
  else if negb (lastUpdatePhase ps <? numPhases zinfo) then Fail AssertPhase
  else
    match Stats.DumpWalk (upcast (coreStats ps)) (buf ps) 0 with
    | Stats.Err e => Fail (Walk e)
    | Stats.Ok (buf1, endBuf) =>
        if negb (bufSize ps =? Z.of_nat endBuf) then Fail AssertEndBuf
        else
          match diff_loop (Z.to_nat (bufSize ps)) 0 buf1 (lastBuf ps) with
          | Fail f => Fail f
          | Done lastBuf1 =>
              (* std::swap(lastBuf, buf) *)
              let buf2 := lastBuf1 in
              let lastBuf2 := buf1 in
              match stats_loop (children (coreStats ps)) 0 (procStats ps)
                      buf2 0 with
              | Fail f => Fail f
              | Done (procStats', start) =>
                  if negb (start =? bufSize ps) then Fail AssertStart
                  else
                    Done (mk (coreStats ps) procStats' (bufSize ps)
                             buf2 lastBuf2 (numPhases zinfo))
              end
          end
    end.

(** [ProcStats::notifyDeschedule()]. *)
Definition notifyDeschedule (ps : t) : Outcome t := update ps.

End Update.

(** The sum of a run of counters, as a [uint64_t]. *)
Definition total (vs : list Z) : Z := wrap64 (fold_right Z.add 0 vs).

(** The books are balanced: the per-process counters add up to the core
    values recorded at the last update (and the buffers are shorter than
    2^64). *)
Definition balanced (ps : t) : Prop :=
  Z.of_nat (List.length (buf ps)) < 2 ^ 64 /\
  Z.of_nat (List.length (lastBuf ps)) < 2 ^ 64 /\
  total (Stats.values (upcast (procStats ps))) =
  total (firstn (Z.to_nat (bufSize ps)) (lastBuf ps)).

(** [s] is a per-core stat: a regular aggregate with one child per core. *)
Definition per_core (zinfo : GlobSimInfo) (s : Stats.Stat) : bool :=
  match s with
  | Stats.Aggregate _ _ regular cores =>
      regular && (Z.of_nat (List.length cores) =? numCores zinfo)
  | _ => false
  end.

(** [r] replicates the per-core stat [s]: it has the name and description
    of [s], the size of the stat of core 0 and zeroed counters. *)
Definition replica_of (r s : Stats.Stat) : Prop :=
  match s with
  | Stats.Aggregate n d regular (core0 :: _) =>
      regular = true /\
      Stats.name_of r = n /\ Stats.desc_of r = d /\
      Stats.StatSize r = Stats.StatSize core0 /\
      Stats.values r = repeat 0 (List.length (Stats.values core0))
  | _ => False
  end.

(** Sample inputs: two cores, two process groups; core 0 runs process 0 of
    group 0 and core 1 is idle. *)
Module Samples.
Import String.

Definition zinfo : GlobSimInfo :=
  {| lineSize := 2; numCores := 2; numPhases := 1;
     getScheduledPid := fun c => if c =? 0 then 0 else 2 ^ 32 - 1;
     getGroupIdx := fun _ => 0 |}.

Definition Str (p : Z) : string := if p =? 0 then "0" else "1".

Definition root : AggregateStat := mkAggregate "root" "Stats" false [].

Definition coreStats : AggregateStat :=
  mkAggregate "cores" "Per-core stats" false
    [Stats.Aggregate "core" "Core stats" true
       [Stats.Samples.core0; Stats.Samples.core1]].

(** Core stats with a stat that is not per-core. *)
Definition flat : AggregateStat :=
  mkAggregate "cores" "Per-core stats" false
    [Stats.Aggregate "core" "Core stats" true
       [Stats.Samples.core0; Stats.Samples.core1];
     Stats.Scalar "phases" "Simulated phases" 3].

(** The object the constructor returns for these, and the object after the
    update of phase 1. *)
Definition fresh : t :=
  Eval vm_compute in
    match new zinfo Str root coreStats with
    | Done (ps, _) => ps
    | Fail _ => mk coreStats root 0 [] [] 0
    end.

Definition updated : t :=
  Eval vm_compute in
    match update Stats.Samples.add64 zinfo fresh with
    | Done ps => ps
    | Fail _ => fresh
    end.

End Samples.

End ProcStats.

(** * Properties *)

Lemma scenario_tlb_wf walk : wf_TLB (scenario_tlb walk).
Proof. unfold wf_TLB, u32, u64; simpl; lia. Qed.

(** The scenario: a miss with a walk at cycle 100, then a hit at 150. *)
Example scenario_miss_then_hit :
  let tlb := scenario_tlb true in
  match Flagged.translate tlb 4096 100 (scenario_world 4 false 30) with
  | Done r w =>
      r = 100 + 2 + 10 + 30 /\
      match Flagged.translate tlb 4096 150 w with
      | Done r' _ => r' = 150 + 2 + 30
      | Halt _ _ => False
      end
  | Halt _ _ => False
  end.
Proof. vm_compute. split; reflexivity. Qed.

(** Capacity 1: inserting A then B evicts A. *)
Example scenario_capacity_one :
  let tlb := scenario_tlb true in
  let w0 := scenario_world 1 false 30 in
  let w1 := final (Flagged.translate tlb 4096 0 w0) in
  let w2 := final (Flagged.translate tlb 8192 10 w1) in
  fst (CacheArray.lookup (w_array w2) 1 None false) = -1 /\
  fst (CacheArray.lookup (w_array w2) 2 None false) = 0.
Proof. vm_compute. split; reflexivity. Qed.

(** ** Stepping through the collaborator calls *)

Lemma pageNum_set_type ty r :
  MemReq.pageNum (MemReq.set_type ty r) = MemReq.pageNum r.
Proof. reflexivity. Qed.

Lemma pageNum_set_state st r :
  MemReq.pageNum (MemReq.set_state st r) = MemReq.pageNum r.
Proof. reflexivity. Qed.

Lemma cycle_set_type ty r :
  MemReq.cycle (MemReq.set_type ty r) = MemReq.cycle r.
Proof. reflexivity. Qed.

Section Steps.
Context {A C : Type} `{!CacheArray.T A} `{!CC.T C}.
Context {R : Type}.
Variable w : World A C.

Lemma bind_ret {Q} (q : Q) (k : Q -> Run A C R) : bind (ret q) k w = k q w.
Proof. reflexivity. Qed.

Lemma bind_bind {P Q} (m : Run A C P) (f : P -> Run A C Q)
    (k : Q -> Run A C R) :
  bind (bind m f) k w = bind m (fun x => bind (f x) k) w.
Proof. unfold bind. now destruct (m w). Qed.

Lemma step_lookup key req upd (k : Z -> Run A C R) l a :
  CacheArray.lookup (w_array w) key req upd = (l, a) ->
  bind (array_lookup key req upd) k w =
  k l (mkWorld a (w_cc w) (w_log w ++ [EvLookup key l])).
Proof. intros E. unfold bind, array_lookup, emit. now rewrite E. Qed.

Lemma step_preinsert key req (k : Z * Address -> Run A C R) l wb a :
  CacheArray.preinsert (w_array w) key req = (l, wb, a) ->
  bind (array_preinsert key req) k w =
  k (l, wb) (mkWorld a (w_cc w) (w_log w ++ [EvPreinsert key l wb])).
Proof. intros E. unfold bind, array_preinsert, emit. now rewrite E. Qed.

Lemma step_postinsert key req lineId (k : unit -> Run A C R) :
  bind (array_postinsert key req lineId) k w =
  k tt (mkWorld (CacheArray.postinsert (w_array w) key req lineId)
          (w_cc w) (w_log w ++ [EvPostinsert key req lineId])).
Proof. reflexivity. Qed.

Lemma step_startAccess o req (k : bool * MemReq.t -> Run A C R) skip ty c :
  CC.startAccess (w_cc w) req = (skip, ty, c) ->
  bind (cc_startAccess o req) k w =
  k (skip, MemReq.set_type ty req)
    (mkWorld (w_array w) c (w_log w ++ [EvStartAccess o req skip])).
Proof. intros E. unfold bind, cc_startAccess, emit. now rewrite E. Qed.

Lemma step_processAccess o req lineId s (k : Z * MESI.t -> Run A C R)
    r st c :
  CC.processAccess (w_cc w) req lineId s = (r, st, c) ->
  bind (cc_processAccess o req lineId s) k w =
  k (r, st)
    (mkWorld (w_array w) c
       (w_log w ++ [EvProcessAccess o req lineId s r])).
Proof. intros E. unfold bind, cc_processAccess, emit. now rewrite E. Qed.

Lemma step_processEviction req wb lineId s (k : Z -> Run A C R) r c :
  CC.processEviction (w_cc w) req wb lineId s = (r, c) ->
  bind (cc_processEviction req wb lineId s) k w =
  k r (mkWorld (w_array w) c
         (w_log w ++ [EvProcessEviction req wb lineId s r])).
Proof. intros E. unfold bind, cc_processEviction, emit. now rewrite E. Qed.

Lemma step_endAccess o req (k : unit -> Run A C R) :
  bind (cc_endAccess o req) k w =
  k tt (mkWorld (w_array w) (CC.endAccess (w_cc w) req)
          (w_log w ++ [EvEndAccess o req])).
Proof. reflexivity. Qed.

Lemma step_assert f b (k : unit -> Run A C R) :
  bind (assert f b) k w = if b then k tt w else Halt f w.
Proof. unfold bind, assert. now destruct b. Qed.
End Steps.

Ltac flatten_log := rewrite <- ?app_assoc; cbn [app].

(** Reassociate binds, drop returns, and read fields of updated requests
    and worlds. *)
Ltac norm :=
  repeat first
    [ rewrite bind_bind | rewrite bind_ret | rewrite pageNum_set_type
    | rewrite pageNum_set_state | rewrite cycle_set_type
    | progress cbn [w_cc w_array w_log negb Z.eqb Pos.eqb] ].

(** Run the next collaborator call with the equation that gives its result. *)
Ltac step E :=
  norm;
  first [ erewrite step_startAccess by exact E
        | erewrite step_lookup by exact E
        | erewrite step_preinsert by exact E
        | erewrite step_processEviction by exact E
        | erewrite step_processAccess by exact E ];
  norm.

Ltac finish :=
  norm; rewrite ?step_postinsert, ?step_endAccess; norm;
  rewrite ?step_postinsert, ?step_endAccess; norm;
  unfold ret; cbn [w_array w_cc w_log]; flatten_log; reflexivity.

(** ** The paths of the flagged [access] *)

Section FlaggedPaths.
Context {A C : Type} `{!CacheArray.T A} `{!CC.T C}.
Variables (tlb : TLB) (req : MemReq.t) (w : World A C).
Variables (skip : bool) (ty : AccessType) (c1 : C) (l : Z) (a1 : A).

Hypothesis Hstart : CC.startAccess (w_cc w) req = (skip, ty, c1).
Hypothesis Hlookup :
  CacheArray.lookup (w_array w) (MemReq.pageNum req) None false = (l, a1).

Lemma flagged_access_hit r st c2 :
  l <> -1 ->
  CC.processAccess c1 (MemReq.set_type ty req) l
    (wrap64 (MemReq.cycle req + accLat tlb)) = (r, st, c2) ->
  let req1 := MemReq.set_type ty req in
  let req2 := MemReq.set_state st req1 in
  Flagged.access tlb req w =
  Done (r, req2)
    (mkWorld a1 (CC.endAccess c2 req2)
       (w_log w ++
        [EvStartAccess CallerReq req skip;
         EvLookup (MemReq.pageNum req) l;
         EvProcessAccess CallerReq req1 l
           (wrap64 (MemReq.cycle req + accLat tlb)) r;
         EvEndAccess CallerReq req2])).
Proof.
  intros Hl Hpa req1 req2. unfold Flagged.access.
  step Hstart. step Hlookup.
  destruct (Z.eqb_spec l (-1)) as [|_]; [contradiction|].
  step Hpa. finish.
Qed.

Section Miss.
Variables (slot : Z) (wb : Address) (a2 : A) (ev : Z) (c2 : C).
Hypothesis Hmiss : l = -1.
Hypothesis Hpre :
  CacheArray.preinsert a1 (MemReq.pageNum req) None = (slot, wb, a2).
Hypothesis Hev :
  CC.processEviction c1 (MemReq.set_type ty req) wb slot
    (wrap64 (MemReq.cycle req + accLat tlb)) = (ev, c2).

Lemma flagged_access_miss_walk r st c3 :
  pageWalk tlb = true ->
  let req1 := MemReq.set_type ty req in
  let nested :=
    Flagged.mem_req req1 (pte_line tlb (MemReq.pageNum req))
      (wrap64 (ev + pageWalkLat tlb)) in
  CC.processAccess c2 nested slot (wrap64 (ev + pageWalkLat tlb)) =
    (r, st, c3) ->
  let req2 := MemReq.set_state st req1 in
  Flagged.access tlb req w =
  Done (r, req2)
    (mkWorld (CacheArray.postinsert a2 (MemReq.pageNum req) req2 slot)
       (CC.endAccess c3 req2)
       (w_log w ++
        [EvStartAccess CallerReq req skip;
         EvLookup (MemReq.pageNum req) (-1);
         EvPreinsert (MemReq.pageNum req) slot wb;
         EvProcessEviction req1 wb slot
           (wrap64 (MemReq.cycle req + accLat tlb)) ev;
         EvProcessAccess NestedReq nested slot
           (wrap64 (ev + pageWalkLat tlb)) r;
         EvPostinsert (MemReq.pageNum req) req2 slot;
         EvEndAccess CallerReq req2])).
Proof.
  intros Hwalk req1 nested Hpa req2. subst l. unfold Flagged.access.
  step Hstart. step Hlookup. step Hpre. step Hev. rewrite Hwalk.
  step Hpa. finish.
Qed.

Lemma flagged_access_miss_nowalk r st c3 :
  pageWalk tlb = false ->
  let req1 := MemReq.set_type ty req in
  CC.processAccess c2 req1 slot ev = (r, st, c3) ->
  let req2 := MemReq.set_state st req1 in
  Flagged.access tlb req w =
  Done (r, req2)
    (mkWorld (CacheArray.postinsert a2 (MemReq.pageNum req) req1 slot)
       (CC.endAccess c3 req2)
       (w_log w ++
        [EvStartAccess CallerReq req skip;
         EvLookup (MemReq.pageNum req) (-1);
         EvPreinsert (MemReq.pageNum req) slot wb;
         EvProcessEviction req1 wb slot
           (wrap64 (MemReq.cycle req + accLat tlb)) ev;
         EvPostinsert (MemReq.pageNum req) req1 slot;
         EvProcessAccess CallerReq req1 slot ev r;
         EvEndAccess CallerReq req2])).
Proof.
  intros Hwalk req1 Hpa req2. subst l. unfold Flagged.access.
  step Hstart. step Hlookup. step Hpre. step Hev. rewrite Hwalk.
  norm. rewrite step_postinsert. step Hpa. finish.
Qed.
End Miss.
End FlaggedPaths.

(** ** The paths of the unflagged [access] *)

Section UnflaggedPaths.
Context {A C : Type} `{!CacheArray.T A} `{!CC.T C}.
Variables (tlb : TLB) (req : TLBReq.t) (w : World A C).
Variables (l : Z) (a1 : A).

Hypothesis Hlookup :
  CacheArray.lookup (w_array w) (TLBReq.pageNum req) None false = (l, a1).

Lemma unflagged_access_hit :
  l <> -1 ->
  Unflagged.access tlb req w =
  Done (wrap64 (TLBReq.cycle req + accLat tlb))
    (mkWorld a1 (w_cc w) (w_log w ++ [EvLookup (TLBReq.pageNum req) l])).
Proof.
  intros Hl. unfold Unflagged.access. step Hlookup.
  destruct (Z.eqb_spec l (-1)) as [|_]; [contradiction|]. reflexivity.
Qed.

Section Miss.
Variables (slot : Z) (wb : Address) (a2 : A).
Variables (skip : bool) (ty : AccessType) (c1 : C).
Hypothesis Hmiss : l = -1.
Hypothesis Hpre :
  CacheArray.preinsert a1 (TLBReq.pageNum req) None = (slot, wb, a2).

Hypothesis Hstart :
  CC.startAccess (w_cc w)
    (Unflagged.mem_req tlb (pte_line tlb (TLBReq.pageNum req))
       (wrap64 (wrap64 (TLBReq.cycle req + accLat tlb) + pageWalkLat tlb)))
  = (skip, ty, c1).

Lemma unflagged_access_miss_skip :
  skip = true ->
  let walked :=
    wrap64 (wrap64 (TLBReq.cycle req + accLat tlb) + pageWalkLat tlb) in
  let nested :=
    Unflagged.mem_req tlb (pte_line tlb (TLBReq.pageNum req)) walked in
  Unflagged.access tlb req w =
  Halt AssertSkipAccess
    (mkWorld (CacheArray.postinsert a2 (TLBReq.pageNum req) nested slot)
       c1
       (w_log w ++
        [EvLookup (TLBReq.pageNum req) (-1);
         EvPreinsert (TLBReq.pageNum req) slot wb;
         EvPostinsert (TLBReq.pageNum req) nested slot;
         EvStartAccess NestedReq nested true])).
Proof.
  intros Hskip walked nested. subst l skip. unfold Unflagged.access.
  step Hlookup. step Hpre. rewrite step_postinsert. step Hstart.
  rewrite step_assert. cbn [negb]. flatten_log. reflexivity.
Qed.

Lemma unflagged_access_miss_fetch r st c2 :
  skip = false ->
  let walked :=
    wrap64 (wrap64 (TLBReq.cycle req + accLat tlb) + pageWalkLat tlb) in
  let nested :=
    Unflagged.mem_req tlb (pte_line tlb (TLBReq.pageNum req)) walked in
  CC.processAccess c1 (MemReq.set_type ty nested) slot walked =
    (r, st, c2) ->
  let nested1 := MemReq.set_type ty nested in
  let nested2 := MemReq.set_state st nested1 in
  Unflagged.access tlb req w =
  Done r
    (mkWorld (CacheArray.postinsert a2 (TLBReq.pageNum req) nested slot)
       (CC.endAccess c2 nested2)
       (w_log w ++
        [EvLookup (TLBReq.pageNum req) (-1);
         EvPreinsert (TLBReq.pageNum req) slot wb;
         EvPostinsert (TLBReq.pageNum req) nested slot;
         EvStartAccess NestedReq nested false;
         EvProcessAccess NestedReq nested1 slot walked r;
         EvEndAccess NestedReq nested2])).
Proof.
  intros Hskip walked nested Hpa nested1 nested2. subst l skip.
  unfold Unflagged.access.
  step Hlookup. step Hpre. rewrite step_postinsert. step Hstart.
  rewrite step_assert. cbn [negb]. step Hpa. finish.
Qed.
End Miss.
End UnflaggedPaths.

(** ** Reading traces *)

Lemma trace_of_log {A C R : Type} (m : Run A C R) (w : World A C) evs :
  w_log (final (m w)) = w_log w ++ evs -> trace m w = evs.
Proof.
  intros E. unfold trace. rewrite E.
  rewrite skipn_app, skipn_all, Nat.sub_diag. reflexivity.
Qed.

Lemma trace_done {A C R : Type} (m : Run A C R) (w : World A C) r a c evs :
  m w = Done r (mkWorld a c (w_log w ++ evs)) -> trace m w = evs.
Proof. intros E. apply trace_of_log. now rewrite E. Qed.

Lemma trace_halt {A C R : Type} (m : Run A C R) (w : World A C) f a c evs :
  m w = Halt f (mkWorld a c (w_log w ++ evs)) -> trace m w = evs.
Proof. intros E. apply trace_of_log. now rewrite E. Qed.

(** Case analysis over the paths of the flagged [access]: names the result
    of every collaborator call and states the outcome of the run as [Hrun],
    its trace as [Htrace]. *)
Ltac flagged_cases tlb req w :=
  let key := constr:(MemReq.pageNum req) in
  let cyc := constr:(wrap64 (MemReq.cycle req + accLat tlb)) in
  destruct (CC.startAccess (w_cc w) req) as [[skip ty] c1] eqn:Hstart;
  destruct (CacheArray.lookup (w_array w) key None false)
    as [l a1] eqn:Hlookup;
  destruct (Z.eq_dec l (-1)) as [Hl|Hl];
  [ destruct (CacheArray.preinsert a1 key None)
      as [[slot wb] a2] eqn:Hpre;
    destruct (CC.processEviction c1 (MemReq.set_type ty req) wb slot cyc)
      as [ev c2] eqn:Hev;
    destruct (pageWalk tlb) eqn:Hwalk;
    [ destruct (CC.processAccess c2
                  (Flagged.mem_req (MemReq.set_type ty req)
                     (pte_line tlb key) (wrap64 (ev + pageWalkLat tlb)))
                  slot (wrap64 (ev + pageWalkLat tlb)))
        as [[r st] c3] eqn:Hpa;
      pose proof (flagged_access_miss_walk tlb req w skip ty c1 l a1
                 Hstart Hlookup slot wb a2 ev c2 Hl Hpre Hev r st c3
                 Hwalk Hpa) as Hrun
    | destruct (CC.processAccess c2 (MemReq.set_type ty req) slot ev)
        as [[r st] c3] eqn:Hpa;
      pose proof (flagged_access_miss_nowalk tlb req w skip ty c1 l a1
                 Hstart Hlookup slot wb a2 ev c2 Hl Hpre Hev r st c3
                 Hwalk Hpa) as Hrun ]
  | destruct (CC.processAccess c1 (MemReq.set_type ty req) l cyc)
      as [[r st] c2] eqn:Hpa;
    pose proof (flagged_access_hit tlb req w skip ty c1 l a1
               Hstart Hlookup r st c2 Hl Hpa) as Hrun ];
  lazymatch goal with
  | Hr : _ |- _ =>
      cbv zeta in Hr; pose proof (trace_done _ _ _ _ _ _ Hr) as Htrace
  end.

(** Case analysis over the paths of the unflagged [access]. *)
Ltac unflagged_cases tlb req w :=
  let key := constr:(TLBReq.pageNum req) in
  let walked :=
    constr:(wrap64 (wrap64 (TLBReq.cycle req + accLat tlb)
                    + pageWalkLat tlb)) in
  let nested := constr:(Unflagged.mem_req tlb (pte_line tlb key) walked) in
  destruct (CacheArray.lookup (w_array w) key None false)
    as [l a1] eqn:Hlookup;
  destruct (Z.eq_dec l (-1)) as [Hl|Hl];
  [ destruct (CacheArray.preinsert a1 key None)
      as [[slot wb] a2] eqn:Hpre;
    destruct (CC.startAccess (w_cc w) nested) as [[skip ty] c1] eqn:Hstart;
    destruct skip eqn:Hskip;
    [ pose proof (unflagged_access_miss_skip tlb req w l a1 Hlookup slot wb a2
                 true ty c1 Hl Hpre Hstart eq_refl) as Hrun
    | destruct (CC.processAccess c1 (MemReq.set_type ty nested) slot walked)
        as [[r st] c2] eqn:Hpa;
      pose proof (unflagged_access_miss_fetch tlb req w l a1 Hlookup slot wb a2
                 false ty c1 Hl Hpre Hstart r st c2 eq_refl Hpa) as Hrun ]
  | pose proof (unflagged_access_hit tlb req w l a1 Hlookup Hl) as Hrun ];
  lazymatch goal with
  | Hr : _ |- _ =>
      cbv zeta in Hr;
      first [ pose proof (trace_done _ _ _ _ _ _ Hr) as Htrace
            | pose proof (trace_halt _ _ _ _ _ _ Hr) as Htrace ]
  end.

(** ** Invalidation *)

(** C1 (as amended). [TLB::invalidate] is fatal for every invalidation
    request, whether or not its address is present in the array: in both
    revisions the routine panics before it looks the address up, so the world
    is left as it was (no lookup, no [processInv] call, no latency added). *)
Theorem invalidate_always_fatal {A C : Type} `{!CacheArray.T A} `{!CC.T C}
    (tlb : TLB) (req : InvReq.t) (w : World A C) :
  Flagged.invalidate tlb req w = Halt PanicInvalidate w /\
  Unflagged.invalidate tlb req w = Halt PanicInvalidate w.
Proof. split; reflexivity. Qed.

(** C1 as stated fails: key 7 is present in the array (in slot 0), and
    invalidating it is fatal in both revisions instead of returning
    [100 + 5 + 3]. *)
Lemma invalidate_present_is_fatal :
  fst (CacheArray.lookup (w_array inv_world) (InvReq.lineAddr inv_req)
         None false) = 0 /\
  Flagged.invalidate (scenario_tlb true) inv_req inv_world
    = Halt PanicInvalidate inv_world /\
  Unflagged.invalidate (scenario_tlb true) inv_req inv_world
    = Halt PanicInvalidate inv_world /\
  ~ (exists w',
       Flagged.invalidate (scenario_tlb true) inv_req inv_world
       = Done (100 + 5 + 3) w').
Proof.
  repeat split; try reflexivity. intros [w' Hdone]. discriminate Hdone.
Qed.

(** ** The skip flag *)

(** The failing input of C2, evaluated: [startAccess] reports skip, and the
    flagged [access] still looks page 1 up, picks a victim, reports the
    eviction, fetches the page-table entry and commits the key, returning
    [100 + 2 + 10 + 30]. *)
Example flagged_skip_runs_the_pipeline :
  let req := page1_req 100 in
  let nested := Flagged.mem_req req (pte_line (scenario_tlb true) 1) 112 in
  let req' := MemReq.set_state MESI.S req in
  match Flagged.access (scenario_tlb true) req (scenario_world 4 true 30) with
  | Done (r, _) w' =>
      r = 142 /\
      w_log w' =
        [EvStartAccess CallerReq req true;
         EvLookup 1 (-1);
         EvPreinsert 1 0 0;
         EvProcessEviction req 0 0 102 102;
         EvProcessAccess NestedReq nested 0 112 142;
         EvPostinsert 1 req' 0;
         EvEndAccess CallerReq req']
  | Halt _ _ => False
  end.
Proof. vm_compute. split; reflexivity. Qed.

(** C2 (what the code does instead). In the flagged revision the skip flag
    is read into a variable whose only use guards an empty block: when
    [startAccess] reports skip, [access] still probes the array, still calls
    [processAccess] exactly once and returns the cycle that call returned,
    and on a miss still selects a victim, reports the eviction and commits
    the key. *)
Theorem flagged_access_ignores_skip {A C : Type}
    `{!CacheArray.T A} `{!CC.T C}
    (tlb : TLB) (req : MemReq.t) (w : World A C)
    (newType : AccessType) (cc' : C) :
  CC.startAccess (w_cc w) req = (true, newType, cc') ->
  exists r req' w' l evs,
    Flagged.access tlb req w = Done (r, req') w' /\
    w_log w' =
      w_log w ++
      EvStartAccess CallerReq req true
        :: EvLookup (MemReq.pageNum req) l :: evs /\
    (exists o rq ln s,
        calls is_processAccess evs = [EvProcessAccess o rq ln s r]) /\
    (l = -1 ->
     length (calls is_processEviction evs) = 1%nat /\
     length (calls is_preinsert evs) = 1%nat /\
     length (calls is_postinsert evs) = 1%nat).
Proof.
  intros Hskip. flagged_cases tlb req w;
    injection Hskip as -> -> ->;
    do 5 eexists; (split; [exact Hrun|]); cbn [w_log];
    (split; [reflexivity|]); (split; [cbn; eauto 6|]);
    cbn; intros; try contradiction; auto.
Qed.

Lemma flagged_access_ignores_skip_witness :
  exists r req' w' l evs,
    Flagged.access (scenario_tlb true) (page1_req 100)
      (scenario_world 4 true 30) = Done (r, req') w' /\
    w_log w' =
      w_log (scenario_world 4 true 30) ++
      EvStartAccess CallerReq (page1_req 100) true
        :: EvLookup (MemReq.pageNum (page1_req 100)) l :: evs /\
    (exists o rq ln s,
        calls is_processAccess evs = [EvProcessAccess o rq ln s r]) /\
    (l = -1 ->
     length (calls is_processEviction evs) = 1%nat /\
     length (calls is_preinsert evs) = 1%nat /\
     length (calls is_postinsert evs) = 1%nat).
Proof.
  apply (flagged_access_ignores_skip (scenario_tlb true) (page1_req 100)
           (scenario_world 4 true 30) GETS (SimpleCC.mk true 30 1)).
  reflexivity.
Defined.

(** ** Eviction on a miss *)

(** C3 as stated fails on the unflagged revision: page 1 misses in the empty
    array, a victim slot is chosen, and [processEviction] is never called. *)
Lemma unflagged_miss_reports_no_eviction :
  let tlb := scenario_tlb true in
  let w := scenario_world 4 false 30 in
  let req := TLBReq.mk 1 100 0 in
  let nested := Unflagged.mem_req tlb (pte_line tlb 1) 112 in
  fst (CacheArray.lookup (w_array w) (TLBReq.pageNum req) None false) = -1 /\
  trace (Unflagged.access tlb req) w =
    [EvLookup 1 (-1);
     EvPreinsert 1 0 0;
     EvPostinsert 1 nested 0;
     EvStartAccess NestedReq nested false;
     EvProcessAccess NestedReq nested 0 112 142;
     EvEndAccess NestedReq (MemReq.set_state MESI.S nested)] /\
  calls is_processEviction (trace (Unflagged.access tlb req) w) = [].
Proof. vm_compute. repeat split; reflexivity. Qed.

(** C3 (as amended). In the flagged revision, every access that misses in
    the array calls [preinsert] to choose a victim slot, then
    [processEviction] with the victim key and the slot [preinsert] returned,
    started at the issuing cycle plus [accLat] (mod 2^64); the fill work that
    follows starts from the cycle [processEviction] returned: the single
    [processAccess] call is started at that cycle, plus [pageWalkLat]
    (mod 2^64) when the page walk is enabled.  The unflagged revision never
    calls [processEviction]. *)
Theorem flagged_miss_reports_eviction {A C : Type}
    `{!CacheArray.T A} `{!CC.T C}
    (tlb : TLB) (req : MemReq.t) (w : World A C)
    (skipped : bool) (newType : AccessType) (cc1 : C) (arr1 arr2 : A)
    (victimSlot : Z) (victimKey : Address) (evicted : Z) (cc2 : C) :
  wf_TLB tlb ->
  CC.startAccess (w_cc w) req = (skipped, newType, cc1) ->
  CacheArray.lookup (w_array w) (MemReq.pageNum req) None false
    = (-1, arr1) ->
  CacheArray.preinsert arr1 (MemReq.pageNum req) None
    = (victimSlot, victimKey, arr2) ->
  CC.processEviction cc1 (MemReq.set_type newType req) victimKey victimSlot
    (wrap64 (MemReq.cycle req + accLat tlb)) = (evicted, cc2) ->
  (exists r req' w' fill o rq,
      Flagged.access tlb req w = Done (r, req') w' /\
      trace (Flagged.access tlb req) w =
        [EvStartAccess CallerReq req skipped;
         EvLookup (MemReq.pageNum req) (-1);
         EvPreinsert (MemReq.pageNum req) victimSlot victimKey;
         EvProcessEviction (MemReq.set_type newType req) victimKey
           victimSlot (wrap64 (MemReq.cycle req + accLat tlb)) evicted]
        ++ fill /\
      calls is_preinsert fill = [] /\
      calls is_processEviction fill = [] /\
      calls is_processAccess fill =
        [EvProcessAccess o rq victimSlot
           (if pageWalk tlb then wrap64 (evicted + pageWalkLat tlb)
            else evicted) r]) /\
  (forall treq : TLBReq.t,
      calls is_processEviction (trace (Unflagged.access tlb treq) w) = []).
Proof.
  intros _ Hs Hl0 Hp He. split.
  - flagged_cases tlb req w;
      injection Hs as -> -> ->; injection Hl0 as -> ->;
      try congruence;
      rewrite Hpre in Hp; injection Hp as -> -> ->;
      rewrite Hev in He; injection He as -> ->;
      rewrite Htrace;
      do 6 eexists; (split; [exact Hrun|]);
      (split; [cbn [app]; reflexivity|]); cbn; auto.
  - intros treq. unflagged_cases tlb treq w; rewrite Htrace; reflexivity.
Qed.

Lemma flagged_miss_reports_eviction_witness :
  let tlb := scenario_tlb true in
  let req := page1_req 100 in
  let w := scenario_world 4 false 30 in
  (exists r req' w' fill o rq,
      Flagged.access tlb req w = Done (r, req') w' /\
      trace (Flagged.access tlb req) w =
        [EvStartAccess CallerReq req false;
         EvLookup (MemReq.pageNum req) (-1);
         EvPreinsert (MemReq.pageNum req) 0 0;
         EvProcessEviction (MemReq.set_type GETS req) 0 0
           (wrap64 (MemReq.cycle req + accLat tlb)) 102]
        ++ fill /\
      calls is_preinsert fill = [] /\
      calls is_processEviction fill = [] /\
      calls is_processAccess fill =
        [EvProcessAccess o rq 0
           (if pageWalk tlb then wrap64 (102 + pageWalkLat tlb) else 102)
           r]) /\
  (forall treq : TLBReq.t,
      calls is_processEviction (trace (Unflagged.access tlb treq) w) = []).
Proof.
  apply (flagged_miss_reports_eviction (scenario_tlb true) (page1_req 100)
           (scenario_world 4 false 30) false GETS (SimpleCC.mk false 30 1)
           (SimpleArray.empty 4) (SimpleArray.empty 4) 0 0 102
           (SimpleCC.mk false 30 1)).
  - apply scenario_tlb_wf.
  - reflexivity.
  - reflexivity.
  - reflexivity.
  - reflexivity.
Defined.

(** ** Completion cycle *)

Lemma wrap64_small x : 0 <= x < 2 ^ 64 -> wrap64 x = x.
Proof. intros Hx. unfold wrap64. now apply Z.mod_small. Qed.

(** Split a [Forall] over an explicit log into one fact per call. *)
Ltac split_forall :=
  repeat match goal with
         | H : Forall _ (_ :: _) |- _ =>
             apply List.Forall_cons_iff in H; destruct H
         | H : Forall _ [] |- _ => clear H
         end.

(** Evaluate the trace of a run on concrete inputs. *)
Ltac eval_trace :=
  match goal with
  | |- context [trace ?m ?w] =>
      let t := eval vm_compute in (trace m w) in
      change (trace m w) with t
  end.

(** Drop every [wrap64] whose argument the context bounds within 64 bits. *)
Ltac unwrap :=
  repeat match goal with
         | |- context [wrap64 ?x] => rewrite (wrap64_small x) by lia
         | H : context [wrap64 ?x] |- _ =>
             rewrite (wrap64_small x) in H by lia
         end.

(** C4 as stated fails when a cycle addition wraps: a miss issued at cycle
    2^64 - 3 with accLat 2 and pageWalkLat 10, against a controller that
    returns every start cycle unchanged, completes at cycle 9, far below
    the issuing cycle plus [accLat]. *)
Lemma completion_wraps_below_issue :
  let tlb := scenario_tlb true in
  let req := page1_req (2 ^ 64 - 3) in
  let w := scenario_world 4 false 0 in
  Forall ev_monotone (trace (Flagged.access tlb req) w) /\
  (exists req' w', Flagged.access tlb req w = Done (9, req') w') /\
  ~ (MemReq.cycle req + accLat tlb <= 9).
Proof.
  split; [|split].
  - vm_compute. repeat constructor; discriminate.
  - vm_compute. eauto.
  - vm_compute. intros Hle. now apply Hle.
Qed.

(** C4 (as amended). Provided no 64-bit addition of the routine wraps (the
    issuing cycle plus [accLat] fits, and so does the running cycle plus
    [pageWalkLat] where the page walk adds it) and every controller call made
    returns a cycle no smaller than the start cycle it was passed, [access]
    completes no earlier than the issuing cycle plus [accLat], and every
    [processEviction] / [processAccess] call, on the hit and on the miss
    path, is started no earlier than that: [accLat] is added before any
    coherence-induced latency.  The flagged revision always returns; the
    unflagged one returns unless its [assert(!skipAccess)] fails. *)
Theorem access_completion_bound {A C : Type} `{!CacheArray.T A} `{!CC.T C} :
  (forall (tlb : TLB) (req : MemReq.t) (w : World A C),
      wf_TLB tlb ->
      u64 (MemReq.cycle req) ->
      MemReq.cycle req + accLat tlb < 2 ^ 64 ->
      Forall ev_monotone (trace (Flagged.access tlb req) w) ->
      (pageWalk tlb = true ->
       Forall (ev_leaves_room (pageWalkLat tlb))
              (trace (Flagged.access tlb req) w)) ->
      (exists r req' w',
          Flagged.access tlb req w = Done (r, req') w' /\
          MemReq.cycle req + accLat tlb <= r) /\
      Forall (ev_starts_from (MemReq.cycle req + accLat tlb))
             (trace (Flagged.access tlb req) w)) /\
  (forall (tlb : TLB) (req : TLBReq.t) (w : World A C),
      wf_TLB tlb ->
      u64 (TLBReq.cycle req) ->
      TLBReq.cycle req + accLat tlb < 2 ^ 64 ->
      (fst (CacheArray.lookup (w_array w) (TLBReq.pageNum req) None false)
         = -1 ->
       TLBReq.cycle req + accLat tlb + pageWalkLat tlb < 2 ^ 64) ->
      Forall ev_monotone (trace (Unflagged.access tlb req) w) ->
      match Unflagged.access tlb req w with
      | Done r _ => TLBReq.cycle req + accLat tlb <= r
      | Halt f _ => f = AssertSkipAccess
      end /\
      Forall (ev_starts_from (TLBReq.cycle req + accLat tlb))
             (trace (Unflagged.access tlb req) w)).
Proof.
  split; intros tlb req w Hwf Hcyc Hfit.
  - intros Hmono Hroom.
    assert (Hlat : 0 <= accLat tlb /\ 0 <= pageWalkLat tlb)
      by (unfold wf_TLB, u32 in Hwf; lia).
    unfold u64 in Hcyc.
    flagged_cases tlb req w; rewrite Htrace in *;
      try specialize (Hroom eq_refl);
      split_forall; cbn [ev_monotone ev_leaves_room] in *; unwrap;
      (split; [do 3 eexists; split; [exact Hrun|lia]|]);
      repeat constructor; cbn [ev_starts_from]; lia.
  - intros Hwalk Hmono.
    assert (Hlat : 0 <= accLat tlb /\ 0 <= pageWalkLat tlb)
      by (unfold wf_TLB, u32 in Hwf; lia).
    unfold u64 in Hcyc.
    unflagged_cases tlb req w; rewrite Hrun, Htrace in *;
      cbn [fst] in Hwalk; try specialize (Hwalk Hl);
      split_forall; cbn [ev_monotone] in *; unwrap;
      (split; [first [reflexivity | lia]|]);
      repeat constructor; cbn [ev_starts_from]; lia.
Qed.

Lemma access_completion_bound_witness :
  let tlb := scenario_tlb true in
  let w := scenario_world 4 false 30 in
  ((exists r req' w',
       Flagged.access tlb (page1_req 100) w = Done (r, req') w' /\
       MemReq.cycle (page1_req 100) + accLat tlb <= r) /\
   Forall (ev_starts_from (MemReq.cycle (page1_req 100) + accLat tlb))
          (trace (Flagged.access tlb (page1_req 100)) w)) /\
  (match Unflagged.access tlb (TLBReq.mk 1 100 0) w with
   | Done r _ => TLBReq.cycle (TLBReq.mk 1 100 0) + accLat tlb <= r
   | Halt f _ => f = AssertSkipAccess
   end /\
   Forall (ev_starts_from (TLBReq.cycle (TLBReq.mk 1 100 0) + accLat tlb))
          (trace (Unflagged.access tlb (TLBReq.mk 1 100 0)) w)).
Proof.
  split.
  - apply (proj1 access_completion_bound (scenario_tlb true) (page1_req 100)
             (scenario_world 4 false 30)).
    + apply scenario_tlb_wf.
    + unfold u64; cbn; lia.
    + cbn; lia.
    + vm_compute. repeat constructor; discriminate.
    + intros _. eval_trace. repeat constructor; cbn; lia.
  - apply (proj2 access_completion_bound (scenario_tlb true)
             (TLBReq.mk 1 100 0) (scenario_world 4 false 30)).
    + apply scenario_tlb_wf.
    + unfold u64; cbn; lia.
    + cbn; lia.
    + intros _. cbn; lia.
    + vm_compute. repeat constructor; discriminate.
Defined.

(** ** The page walk *)

(** C5. In the flagged revision, on every miss with the page walk enabled
    the routine builds one nested request: type [GETS], address
    [(req.pageNum / pteSize) >> lineBits], requester and flags of [req],
    issued at the running cycle after [pageWalkLat] was added to what
    [processEviction] returned (mod 2^64).  [processAccess] is called exactly
    once, on that nested request, with the slot [preinsert] chose and that
    cycle, and the cycle it returns is the completion cycle.  The unflagged
    revision has no flag and walks on every miss: whenever its access
    returns, [processAccess] was called exactly once, on the nested request
    built the same way, and the only other outcome is the failed
    [assert(!skipAccess)]. *)
Theorem miss_walks_once {A C : Type} `{!CacheArray.T A} `{!CC.T C}
    (tlb : TLB) (req : MemReq.t) (w : World A C)
    (skipped : bool) (newType : AccessType) (cc1 : C) (arr1 arr2 : A)
    (victimSlot : Z) (victimKey : Address) (evicted : Z) (cc2 : C) :
  wf_TLB tlb ->
  pageWalk tlb = true ->
  CC.startAccess (w_cc w) req = (skipped, newType, cc1) ->
  CacheArray.lookup (w_array w) (MemReq.pageNum req) None false
    = (-1, arr1) ->
  CacheArray.preinsert arr1 (MemReq.pageNum req) None
    = (victimSlot, victimKey, arr2) ->
  CC.processEviction cc1 (MemReq.set_type newType req) victimKey victimSlot
    (wrap64 (MemReq.cycle req + accLat tlb)) = (evicted, cc2) ->
  (let walked := wrap64 (evicted + pageWalkLat tlb) in
   let nested :=
     MemReq.mk (Z.shiftr (MemReq.pageNum req / pteSize tlb) (lineBits tlb))
               GETS 0 (MemReq.state req) walked (MemReq.state req)
               (MemReq.srcId req) (MemReq.flags req) in
   exists r req' w',
     Flagged.access tlb req w = Done (r, req') w' /\
     calls is_processAccess (trace (Flagged.access tlb req) w) =
       [EvProcessAccess NestedReq nested victimSlot walked r]) /\
  (forall (treq : TLBReq.t) (w0 : World A C),
      fst (CacheArray.lookup (w_array w0) (TLBReq.pageNum treq) None false)
        = -1 ->
      let walked :=
        wrap64 (wrap64 (TLBReq.cycle treq + accLat tlb) + pageWalkLat tlb) in
      let nested :=
        MemReq.mk
          (Z.shiftr (TLBReq.pageNum treq / pteSize tlb) (lineBits tlb))
          GETS 0 MESI.I walked MESI.I (srcId tlb) (reqFlags tlb) in
      match Unflagged.access tlb treq w0 with
      | Done r _ =>
          exists slot leftType,
            calls is_processAccess (trace (Unflagged.access tlb treq) w0) =
              [EvProcessAccess NestedReq (MemReq.set_type leftType nested)
                 slot walked r]
      | Halt f _ => f = AssertSkipAccess
      end).
Proof.
  intros _ Hflag Hs Hl0 Hp He. split.
  - intros walked nested.
    flagged_cases tlb req w;
      injection Hs as -> -> ->; injection Hl0 as -> ->;
      try congruence;
      rewrite Hpre in Hp; injection Hp as -> -> ->;
      rewrite Hev in He; injection He as -> ->.
    rewrite Htrace. do 3 eexists. split; [exact Hrun|]. reflexivity.
  - intros treq w0 Hmiss walked nested.
    unflagged_cases tlb treq w0; cbn [fst] in Hmiss; try contradiction;
      rewrite Hrun, ?Htrace.
    + reflexivity.
    + exists slot, ty. reflexivity.
Qed.

Lemma miss_walks_once_witness :
  let tlb := scenario_tlb true in
  let req := page1_req 100 in
  let w := scenario_world 4 false 30 in
  (let nested := MemReq.mk 0 GETS 0 MESI.I 112 MESI.I 0 1 in
   exists r req' w',
     Flagged.access tlb req w = Done (r, req') w' /\
     calls is_processAccess (trace (Flagged.access tlb req) w) =
       [EvProcessAccess NestedReq nested 0 112 r]) /\
  (forall (treq : TLBReq.t) (w0 : World SimpleArray.t SimpleCC.t),
      fst (CacheArray.lookup (w_array w0) (TLBReq.pageNum treq) None false)
        = -1 ->
      let walked :=
        wrap64 (wrap64 (TLBReq.cycle treq + accLat tlb) + pageWalkLat tlb) in
      let nested :=
        MemReq.mk
          (Z.shiftr (TLBReq.pageNum treq / pteSize tlb) (lineBits tlb))
          GETS 0 MESI.I walked MESI.I (srcId tlb) (reqFlags tlb) in
      match Unflagged.access tlb treq w0 with
      | Done r _ =>
          exists slot leftType,
            calls is_processAccess (trace (Unflagged.access tlb treq) w0) =
              [EvProcessAccess NestedReq (MemReq.set_type leftType nested)
                 slot walked r]
      | Halt f _ => f = AssertSkipAccess
      end).
Proof.
  apply (miss_walks_once (scenario_tlb true) (page1_req 100)
           (scenario_world 4 false 30) false GETS (SimpleCC.mk false 30 1)
           (SimpleArray.empty 4) (SimpleArray.empty 4) 0 0 102
           (SimpleCC.mk false 30 1)).
  - apply scenario_tlb_wf.
  - reflexivity.
  - reflexivity.
  - reflexivity.
  - reflexivity.
  - reflexivity.
Defined.

(** ** Process masks *)

Lemma testbit_below_mask m k i :
  Z.land m (Z.ones k) = 0 -> 0 <= i < k -> Z.testbit m i = false.
Proof.
  intros Hm Hi.
  assert (Hb : Z.testbit (Z.land m (Z.ones k)) i = false)
    by (rewrite Hm; apply Z.bits_0).
  rewrite Z.land_spec, Z.ones_spec_low, andb_true_r in Hb by lia.
  exact Hb.
Qed.

Lemma testbit_above_range p k i :
  0 <= p < 2 ^ k -> k <= i -> Z.testbit p i = false.
Proof.
  intros Hp Hi. destruct (Z.eq_dec p 0) as [->|Hnz].
  - apply Z.bits_0.
  - apply Z.bits_above_log2; [lia|].
    assert (Z.log2 p < k) by (apply Z.log2_lt_pow2; lia). lia.
Qed.

Lemma lor_mask_inj m1 m2 p k :
  0 <= p < 2 ^ k ->
  Z.land m1 (Z.ones k) = 0 -> Z.land m2 (Z.ones k) = 0 ->
  Z.lor m1 p = Z.lor m2 p -> m1 = m2.
Proof.
  intros Hp H1 H2 Heq. apply Z.bits_inj'. intros i Hi.
  destruct (Z.lt_ge_cases i k) as [Hlt|Hge].
  - rewrite !(testbit_below_mask _ k) by (assumption || lia). reflexivity.
  - assert (Hb : Z.testbit (Z.lor m1 p) i = Z.testbit (Z.lor m2 p) i)
      by now rewrite Heq.
    rewrite !Z.lor_spec, (testbit_above_range p k i), !orb_false_r in Hb
      by assumption.
    exact Hb.
Qed.

Lemma final_flagged_translate {A C : Type} `{!CacheArray.T A} `{!CC.T C}
    (tlb : TLB) (vAddr : Address) (curCycle : Z) (w : World A C) :
  final (Flagged.translate tlb vAddr curCycle w) =
  final (Flagged.access tlb
           (MemReq.mk (translate_key tlb vAddr) GETS 0 MESI.I curCycle
                      MESI.I (srcId tlb) (reqFlags tlb)) w).
Proof.
  unfold Flagged.translate, bind.
  destruct (Flagged.access _ _ _) as [[r q] w'|f w']; reflexivity.
Qed.

Lemma final_unflagged_translate {A C : Type} `{!CacheArray.T A} `{!CC.T C}
    (tlb : TLB) (vAddr : Address) (curCycle : Z) (w : World A C) :
  final (Unflagged.translate tlb vAddr curCycle w) =
  final (Unflagged.access tlb
           (TLBReq.mk (translate_key tlb vAddr) curCycle 0) w).
Proof.
  unfold Unflagged.translate, bind.
  destruct (Unflagged.access _ _ _) as [r w'|f w']; reflexivity.
Qed.

(** Every array call either [translate] makes is passed the key
    [procMask | (vAddr >> pageBits)]. *)
Lemma translate_array_keys {A C : Type} `{!CacheArray.T A} `{!CC.T C}
    (tlb : TLB) (vAddr : Address) (curCycle : Z) (w : World A C)
    (e : Event) (key : Address) :
  In e (trace (Flagged.translate tlb vAddr curCycle) w) \/
  In e (trace (Unflagged.translate tlb vAddr curCycle) w) ->
  ev_key e = Some key ->
  key = translate_key tlb vAddr.
Proof.
  unfold trace. rewrite final_flagged_translate, final_unflagged_translate.
  fold (trace (Flagged.access tlb
                 (MemReq.mk (translate_key tlb vAddr) GETS 0 MESI.I curCycle
                            MESI.I (srcId tlb) (reqFlags tlb))) w).
  fold (trace (Unflagged.access tlb
                 (TLBReq.mk (translate_key tlb vAddr) curCycle 0)) w).
  intros [Hin|Hin] Hkey.
  - set (req := MemReq.mk _ _ _ _ _ _ _ _) in *.
    flagged_cases tlb req w; rewrite Htrace in Hin; cbn [In] in Hin;
      repeat (destruct Hin as [<-|Hin]; [cbn in Hkey; congruence|]);
      contradiction.
  - set (req := TLBReq.mk _ _ _) in *.
    unflagged_cases tlb req w; rewrite Htrace in Hin; cbn [In] in Hin;
      repeat (destruct Hin as [<-|Hin]; [cbn in Hkey; congruence|]);
      contradiction.
Qed.

(** C6. Take two TLB configurations with the same page size and distinct
    process masks, and two virtual addresses with the same page number; let
    the page number fit in [k] bits and the masks have no bit set among the
    low [k].  Then the keys [translate] computes,
    [procMask | (vAddr >> pageBits)], are distinct, and so no array call
    (lookup, preinsert, postinsert) made by [translate] under one mask is
    passed a key that an array call made under the other mask is passed, in
    either revision. *)
Theorem translate_keys_distinct {A C : Type} `{!CacheArray.T A} `{!CC.T C}
    (tlb1 tlb2 : TLB) (vAddr1 vAddr2 : Address) (k : Z) :
  wf_TLB tlb1 -> wf_TLB tlb2 ->
  pageBits tlb1 = pageBits tlb2 ->
  Z.shiftr vAddr1 (pageBits tlb1) = Z.shiftr vAddr2 (pageBits tlb2) ->
  0 <= Z.shiftr vAddr1 (pageBits tlb1) < 2 ^ k ->
  Z.land (procMask tlb1) (Z.ones k) = 0 ->
  Z.land (procMask tlb2) (Z.ones k) = 0 ->
  procMask tlb1 <> procMask tlb2 ->
  translate_key tlb1 vAddr1 <> translate_key tlb2 vAddr2 /\
  (forall (w1 w2 : World A C) (cycle1 cycle2 : Z) (e1 e2 : Event)
          (key1 key2 : Address),
      In e1 (trace (Flagged.translate tlb1 vAddr1 cycle1) w1) \/
      In e1 (trace (Unflagged.translate tlb1 vAddr1 cycle1) w1) ->
      In e2 (trace (Flagged.translate tlb2 vAddr2 cycle2) w2) \/
      In e2 (trace (Unflagged.translate tlb2 vAddr2 cycle2) w2) ->
      ev_key e1 = Some key1 -> ev_key e2 = Some key2 ->
      key1 <> key2).
Proof.
  intros _ _ Hbits Hpage Hrange Hm1 Hm2 Hne.
  assert (Hkeys : translate_key tlb1 vAddr1 <> translate_key tlb2 vAddr2).
  { unfold translate_key. rewrite <- Hpage. intros Heq.
    apply Hne. eapply lor_mask_inj; eassumption. }
  split; [exact Hkeys|].
  intros w1 w2 cycle1 cycle2 e1 e2 key1 key2 Hin1 Hin2 Hk1 Hk2.
  rewrite (translate_array_keys _ _ _ _ _ _ Hin1 Hk1).
  rewrite (translate_array_keys _ _ _ _ _ _ Hin2 Hk2).
  exact Hkeys.
Qed.

Lemma translate_keys_distinct_witness :
  translate_key (masked_tlb (2 ^ 52)) 4096
    <> translate_key (masked_tlb (2 ^ 53)) 4100 /\
  (forall (w1 w2 : World SimpleArray.t SimpleCC.t) (cycle1 cycle2 : Z)
          (e1 e2 : Event) (key1 key2 : Address),
      In e1 (trace (Flagged.translate (masked_tlb (2 ^ 52)) 4096 cycle1) w1)
      \/
      In e1 (trace (Unflagged.translate (masked_tlb (2 ^ 52)) 4096 cycle1)
               w1) ->
      In e2 (trace (Flagged.translate (masked_tlb (2 ^ 53)) 4100 cycle2) w2)
      \/
      In e2 (trace (Unflagged.translate (masked_tlb (2 ^ 53)) 4100 cycle2)
               w2) ->
      ev_key e1 = Some key1 -> ev_key e2 = Some key2 ->
      key1 <> key2).
Proof.
  apply (translate_keys_distinct (masked_tlb (2 ^ 52)) (masked_tlb (2 ^ 53))
           4096 4100 52).
  - unfold wf_TLB, u32, u64; cbn; lia.
  - unfold wf_TLB, u32, u64; cbn; lia.
  - reflexivity.
  - reflexivity.
  - vm_compute. split; [discriminate|reflexivity].
  - reflexivity.
  - reflexivity.
  - discriminate.
Defined.

(** ** Bracketing by [startAccess] / [endAccess] *)

(** C7. The flagged [access] always returns, and on every path (skip
    reported or not, hit or miss) its trace opens with the one [startAccess]
    call and closes with the one [endAccess] call, both on the caller's
    request, which differs from the request passed in at most in the type
    and state the controller wrote.  The unflagged [access], whenever it
    returns, has made either no [startAccess]/[endAccess] call (hit) or
    exactly one [startAccess] followed by exactly one [endAccess] on the
    nested request (miss); it fails to return only when [startAccess]
    reported skip and the assertion stopped the run. *)
Theorem start_end_bracketed {A C : Type} `{!CacheArray.T A} `{!CC.T C} :
  (forall (tlb : TLB) (req : MemReq.t) (w : World A C),
      wf_TLB tlb ->
      exists r req' w' skipped mid,
        Flagged.access tlb req w = Done (r, req') w' /\
        trace (Flagged.access tlb req) w =
          EvStartAccess CallerReq req skipped
            :: mid ++ [EvEndAccess CallerReq req'] /\
        calls is_bracket mid = [] /\
        bracketed None (trace (Flagged.access tlb req) w) = true /\
        exists newType granted,
          req' = MemReq.set_state granted (MemReq.set_type newType req)) /\
  (forall (tlb : TLB) (req : TLBReq.t) (w : World A C),
      wf_TLB tlb ->
      match Unflagged.access tlb req w with
      | Done _ _ =>
          bracketed None (trace (Unflagged.access tlb req) w) = true /\
          (calls is_bracket (trace (Unflagged.access tlb req) w) = [] \/
           exists nested newType granted,
             calls is_bracket (trace (Unflagged.access tlb req) w) =
               [EvStartAccess NestedReq nested false;
                EvEndAccess NestedReq
                  (MemReq.set_state granted
                     (MemReq.set_type newType nested))])
      | Halt f _ =>
          f = AssertSkipAccess /\
          exists nested,
            calls is_bracket (trace (Unflagged.access tlb req) w) =
              [EvStartAccess NestedReq nested true]
      end).
Proof.
  split; intros tlb req w _.
  - flagged_cases tlb req w; rewrite Htrace;
      do 3 eexists; exists skip; eexists;
      (split; [exact Hrun|]);
      (split; [cbn [app]; repeat f_equal;
               lazymatch goal with
               | |- ?l = ?mid ++ [?e] =>
                   let n := eval cbv in (Nat.pred (length l)) in
                   change l with (firstn n l ++ skipn n l); cbn [firstn skipn];
                   reflexivity
               end|]);
      cbn; eauto.
  - unflagged_cases tlb req w; rewrite Hrun, Htrace; cbn; eauto 8.
Qed.

Lemma start_end_bracketed_witness :
  let tlb := scenario_tlb true in
  let w := scenario_world 4 true 30 in
  (exists r req' w' skipped mid,
      Flagged.access tlb (page1_req 100) w = Done (r, req') w' /\
      trace (Flagged.access tlb (page1_req 100)) w =
        EvStartAccess CallerReq (page1_req 100) skipped
          :: mid ++ [EvEndAccess CallerReq req'] /\
      calls is_bracket mid = [] /\
      bracketed None (trace (Flagged.access tlb (page1_req 100)) w) = true /\
      exists newType granted,
        req' = MemReq.set_state granted
                 (MemReq.set_type newType (page1_req 100))) /\
  match Unflagged.access tlb (TLBReq.mk 1 100 0) w with
  | Done _ _ =>
      bracketed None (trace (Unflagged.access tlb (TLBReq.mk 1 100 0)) w)
        = true /\
      (calls is_bracket (trace (Unflagged.access tlb (TLBReq.mk 1 100 0)) w)
         = [] \/
       exists nested newType granted,
         calls is_bracket
           (trace (Unflagged.access tlb (TLBReq.mk 1 100 0)) w) =
           [EvStartAccess NestedReq nested false;
            EvEndAccess NestedReq
              (MemReq.set_state granted (MemReq.set_type newType nested))])
  | Halt f _ =>
      f = AssertSkipAccess /\
      exists nested,
        calls is_bracket
          (trace (Unflagged.access tlb (TLBReq.mk 1 100 0)) w) =
          [EvStartAccess NestedReq nested true]
  end.
Proof.
  split.
  - apply (proj1 start_end_bracketed (scenario_tlb true) (page1_req 100)
             (scenario_world 4 true 30)).
    apply scenario_tlb_wf.
  - apply (proj2 start_end_bracketed (scenario_tlb true) (TLBReq.mk 1 100 0)
             (scenario_world 4 true 30)).
    apply scenario_tlb_wf.
Defined.

(** ** Array calls on hits and misses *)

(** C8. In both revisions, an access that hits ([lookup] returns a line)
    makes no [preinsert], no [postinsert] and no [processEviction] call; an
    access that misses ([lookup] returns -1) makes exactly one [preinsert]
    call followed by exactly one [postinsert] call, for the key of the
    request and the slot [preinsert] returned.  (On the unflagged miss this
    holds whether or not the run then stops at the assertion.) *)
Theorem insert_calls_per_access {A C : Type} `{!CacheArray.T A} `{!CC.T C} :
  (forall (tlb : TLB) (req : MemReq.t) (w : World A C),
      wf_TLB tlb ->
      let found :=
        fst (CacheArray.lookup (w_array w) (MemReq.pageNum req) None false) in
      let t := trace (Flagged.access tlb req) w in
      (found <> -1 ->
       calls is_insert t = [] /\ calls is_processEviction t = []) /\
      (found = -1 ->
       exists slot victim committed,
         calls is_insert t =
           [EvPreinsert (MemReq.pageNum req) slot victim;
            EvPostinsert (MemReq.pageNum req) committed slot])) /\
  (forall (tlb : TLB) (req : TLBReq.t) (w : World A C),
      wf_TLB tlb ->
      let found :=
        fst (CacheArray.lookup (w_array w) (TLBReq.pageNum req) None false) in
      let t := trace (Unflagged.access tlb req) w in
      (found <> -1 ->
       calls is_insert t = [] /\ calls is_processEviction t = []) /\
      (found = -1 ->
       exists slot victim committed,
         calls is_insert t =
           [EvPreinsert (TLBReq.pageNum req) slot victim;
            EvPostinsert (TLBReq.pageNum req) committed slot])).
Proof.
  split; intros tlb req w _ found t; subst found t.
  - flagged_cases tlb req w; rewrite Htrace; cbn [fst];
      (split; [intros Hhit|intros Hmiss]);
      try contradiction; cbn; eauto.
  - unflagged_cases tlb req w; rewrite Htrace; cbn [fst];
      (split; [intros Hhit|intros Hmiss]);
      try contradiction; cbn; eauto.
Qed.

Lemma insert_calls_per_access_witness :
  let tlb := scenario_tlb true in
  let w := scenario_world 4 false 30 in
  (let found :=
     fst (CacheArray.lookup (w_array w) (MemReq.pageNum (page1_req 100))
            None false) in
   let t := trace (Flagged.access tlb (page1_req 100)) w in
   (found <> -1 ->
    calls is_insert t = [] /\ calls is_processEviction t = []) /\
   (found = -1 ->
    exists slot victim committed,
      calls is_insert t =
        [EvPreinsert (MemReq.pageNum (page1_req 100)) slot victim;
         EvPostinsert (MemReq.pageNum (page1_req 100)) committed slot])) /\
  (let found :=
     fst (CacheArray.lookup (w_array w) (TLBReq.pageNum (TLBReq.mk 1 100 0))
            None false) in
   let t := trace (Unflagged.access tlb (TLBReq.mk 1 100 0)) w in
   (found <> -1 ->
    calls is_insert t = [] /\ calls is_processEviction t = []) /\
   (found = -1 ->
    exists slot victim committed,
      calls is_insert t =
        [EvPreinsert (TLBReq.pageNum (TLBReq.mk 1 100 0)) slot victim;
         EvPostinsert (TLBReq.pageNum (TLBReq.mk 1 100 0)) committed slot])).
Proof.
  split.
  - apply (proj1 insert_calls_per_access (scenario_tlb true) (page1_req 100)
             (scenario_world 4 false 30)).
    apply scenario_tlb_wf.
  - apply (proj2 insert_calls_per_access (scenario_tlb true)
             (TLBReq.mk 1 100 0) (scenario_world 4 false 30)).
    apply scenario_tlb_wf.
Defined.

(** ** The assertion on the nested fetch *)

(** C9. In the unflagged revision, on every miss [startAccess] is called on
    the nested page-table-entry request after the key was committed.  If it
    reports skip, the run halts at [assert(!skipAccess)]: there is no skip
    path, and neither [processAccess] nor [endAccess] is called.  If it does
    not, the access returns. *)
Theorem nested_skip_is_asserted {A C : Type} `{!CacheArray.T A} `{!CC.T C}
    (tlb : TLB) (req : TLBReq.t) (w : World A C)
    (arr1 arr2 : A) (victimSlot : Z) (victimKey : Address)
    (skipped : bool) (newType : AccessType) (cc1 : C) :
  let walked :=
    wrap64 (wrap64 (TLBReq.cycle req + accLat tlb) + pageWalkLat tlb) in
  let nested :=
    Unflagged.mem_req tlb (pte_line tlb (TLBReq.pageNum req)) walked in
  wf_TLB tlb ->
  CacheArray.lookup (w_array w) (TLBReq.pageNum req) None false
    = (-1, arr1) ->
  CacheArray.preinsert arr1 (TLBReq.pageNum req) None
    = (victimSlot, victimKey, arr2) ->
  CC.startAccess (w_cc w) nested = (skipped, newType, cc1) ->
  if skipped then
    Unflagged.access tlb req w =
      Halt AssertSkipAccess
        (mkWorld
           (CacheArray.postinsert arr2 (TLBReq.pageNum req) nested victimSlot)
           cc1
           (w_log w ++
            [EvLookup (TLBReq.pageNum req) (-1);
             EvPreinsert (TLBReq.pageNum req) victimSlot victimKey;
             EvPostinsert (TLBReq.pageNum req) nested victimSlot;
             EvStartAccess NestedReq nested true])) /\
    calls is_processAccess (trace (Unflagged.access tlb req) w) = [] /\
    calls is_endAccess (trace (Unflagged.access tlb req) w) = []
  else
    exists r w', Unflagged.access tlb req w = Done r w'.
Proof.
  intros walked nested _ Hl0 Hp Hs.
  unflagged_cases tlb req w;
    injection Hl0 as -> ->; try congruence;
    rewrite Hpre in Hp; injection Hp as -> -> ->;
    pose proof (eq_trans (eq_sym Hstart) Hs) as Heq;
    injection Heq as <- -> ->.
  - rewrite Htrace. split; [exact Hrun|]. split; reflexivity.
  - eauto.
Qed.

Lemma nested_skip_is_asserted_witness :
  let tlb := scenario_tlb true in
  let req := TLBReq.mk 1 100 0 in
  let w := scenario_world 4 true 30 in
  let nested := Unflagged.mem_req tlb (pte_line tlb 1) 112 in
  Unflagged.access tlb req w =
    Halt AssertSkipAccess
      (mkWorld
         (CacheArray.postinsert (SimpleArray.empty 4) 1 nested 0)
         (SimpleCC.mk true 30 1)
         (w_log w ++
          [EvLookup 1 (-1);
           EvPreinsert 1 0 0;
           EvPostinsert 1 nested 0;
           EvStartAccess NestedReq nested true])) /\
  calls is_processAccess (trace (Unflagged.access tlb req) w) = [] /\
  calls is_endAccess (trace (Unflagged.access tlb req) w) = [].
Proof.
  apply (nested_skip_is_asserted (scenario_tlb true) (TLBReq.mk 1 100 0)
           (scenario_world 4 true 30) (SimpleArray.empty 4)
           (SimpleArray.empty 4) 0 0 true GETS (SimpleCC.mk true 30 1)).
  - apply scenario_tlb_wf.
  - reflexivity.
  - reflexivity.
  - reflexivity.
Defined.

(** ** Keys resident in the array *)

Section Residency.
Context {A C : Type} `{!CacheArray.T A} `{!CC.T C} `{!ArrayLaws A}.
Variable tlb : TLB.

Lemma resident_after_lookup (a a' : A) key req upd l k :
  CacheArray.lookup a key req upd = (l, a') -> resident a' k -> resident a k.
Proof.
  intros E Hk. apply (lookup_resident a key req upd). now rewrite E.
Qed.

Lemma resident_after_preinsert (a a' : A) key req l wb k :
  CacheArray.preinsert a key req = (l, wb, a') ->
  resident a' k -> resident a k.
Proof.
  intros E Hk. apply (preinsert_resident a key req). now rewrite E.
Qed.

Lemma flagged_access_resident (req : MemReq.t) (w : World A C) k :
  resident (w_array (final (Flagged.access tlb req w))) k ->
  k = MemReq.pageNum req \/ resident (w_array w) k.
Proof.
  flagged_cases tlb req w; rewrite Hrun; cbn [final w_array]; intros Hk.
  - apply postinsert_resident in Hk. destruct Hk as [Hk|Hk]; [now left|].
    right. eauto using resident_after_lookup, resident_after_preinsert.
  - apply postinsert_resident in Hk. destruct Hk as [Hk|Hk]; [now left|].
    right. eauto using resident_after_lookup, resident_after_preinsert.
  - right. eauto using resident_after_lookup.
Qed.

Lemma unflagged_access_resident (req : TLBReq.t) (w : World A C) k :
  resident (w_array (final (Unflagged.access tlb req w))) k ->
  k = TLBReq.pageNum req \/ resident (w_array w) k.
Proof.
  unflagged_cases tlb req w; rewrite Hrun; cbn [final w_array]; intros Hk.
  - apply postinsert_resident in Hk. destruct Hk as [Hk|Hk]; [now left|].
    right. eauto using resident_after_lookup, resident_after_preinsert.
  - apply postinsert_resident in Hk. destruct Hk as [Hk|Hk]; [now left|].
    right. eauto using resident_after_lookup, resident_after_preinsert.
  - right. eauto using resident_after_lookup.
Qed.

Lemma flagged_translate_resident vAddr curCycle (w : World A C) k :
  resident (w_array (final (Flagged.translate tlb vAddr curCycle w))) k ->
  k = translate_key tlb vAddr \/ resident (w_array w) k.
Proof.
  rewrite final_flagged_translate. apply flagged_access_resident.
Qed.

Lemma unflagged_translate_resident vAddr curCycle (w : World A C) k :
  resident (w_array (final (Unflagged.translate tlb vAddr curCycle w))) k ->
  k = translate_key tlb vAddr \/ resident (w_array w) k.
Proof.
  rewrite final_unflagged_translate. apply unflagged_access_resident.
Qed.

Variable translate : TLB -> Address -> Z -> Run A C Z.
Hypothesis translate_resident : forall vAddr curCycle (w : World A C) k,
  resident (w_array (final (translate tlb vAddr curCycle w))) k ->
  k = translate_key tlb vAddr \/ resident (w_array w) k.

Lemma translate_all_resident (reqs : list (Address * Z)) :
  forall (w : World A C) k,
    resident (w_array (final (translate_all translate tlb reqs w))) k ->
    resident (w_array w) k \/
    exists vAddr curCycle,
      In (vAddr, curCycle) reqs /\ k = translate_key tlb vAddr.
Proof.
  induction reqs as [|[vAddr curCycle] reqs IH]; intros w k Hk.
  - now left.
  - cbn [translate_all] in Hk. unfold bind in Hk.
    assert (Hhere :
      resident (w_array (final (translate tlb vAddr curCycle w))) k ->
      resident (w_array w) k \/
      exists v c, In (v, c) ((vAddr, curCycle) :: reqs) /\
                  k = translate_key tlb v).
    { intros Hr. apply translate_resident in Hr.
      destruct Hr as [->|Hr]; [right|now left].
      exists vAddr, curCycle. split; [now left|reflexivity]. }
    destruct (translate tlb vAddr curCycle w) as [r w1|f w1] eqn:E.
    + apply IH in Hk. destruct Hk as [Hk|(v & c & Hin & ->)].
      * apply Hhere. exact Hk.
      * right. exists v, c. split; [now right|reflexivity].
    + apply Hhere. exact Hk.
Qed.

End Residency.

Lemma simple_array_postinsert_resident (a : SimpleArray.t) key req lineId k :
  SimpleArray.resident (SimpleArray.postinsert a key req lineId) k ->
  k = key \/ SimpleArray.resident a k.
Proof.
  unfold SimpleArray.resident, SimpleArray.postinsert; cbn.
  intros Hin. apply list_elem_of_lookup in Hin. destruct Hin as [j Hj].
  apply list_lookup_insert_Some in Hj.
  destruct Hj as [(_ & Heq & _)|(_ & Hj)].
  - left. congruence.
  - right. apply list_elem_of_lookup. eauto.
Qed.

(** C10. In both revisions, every [postinsert] call an access makes is
    passed the key of the original request, [req.pageNum] (the nested
    request is passed at most as the descriptor, never as the key).  An
    access that misses makes exactly one [postinsert] call, with key
    [req.pageNum] and the slot [preinsert] chose, and leaves the array as
    that call returned it (in the unflagged revision also when the run then
    stops at [assert(!skipAccess)]); an access that hits makes none and
    leaves the array as [lookup] returned it.  An access leaves no key
    resident that was not resident before other than [req.pageNum].  Hence,
    for an array that commits exactly the keys [postinsert] is given, after
    any run of [translate] calls every resident key either was resident
    before the run or is the key [procMask | (vAddr >> pageBits)] of one of
    the calls. *)
Theorem resident_keys_are_page_keys {A C : Type}
    `{!CacheArray.T A} `{!CC.T C} `{!ArrayLaws A} (tlb : TLB) :
  wf_TLB tlb ->
  (forall (req : MemReq.t) (w : World A C) (e : Event),
      In e (trace (Flagged.access tlb req) w) ->
      is_postinsert e = true ->
      ev_key e = Some (MemReq.pageNum req)) /\
  (forall (req : TLBReq.t) (w : World A C) (e : Event),
      In e (trace (Unflagged.access tlb req) w) ->
      is_postinsert e = true ->
      ev_key e = Some (TLBReq.pageNum req)) /\
  (forall (req : MemReq.t) (w : World A C),
      let key := MemReq.pageNum req in
      let found := CacheArray.lookup (w_array w) key None false in
      let chosen := CacheArray.preinsert (snd found) key None in
      let slot := fst (fst chosen) in
      if fst found =? -1 then
        exists desc,
          calls is_postinsert (trace (Flagged.access tlb req) w) =
            [EvPostinsert key desc slot] /\
          w_array (final (Flagged.access tlb req w)) =
            CacheArray.postinsert (snd chosen) key desc slot
      else
        calls is_postinsert (trace (Flagged.access tlb req) w) = [] /\
        w_array (final (Flagged.access tlb req w)) = snd found) /\
  (forall (req : TLBReq.t) (w : World A C),
      let key := TLBReq.pageNum req in
      let found := CacheArray.lookup (w_array w) key None false in
      let chosen := CacheArray.preinsert (snd found) key None in
      let slot := fst (fst chosen) in
      if fst found =? -1 then
        exists desc,
          calls is_postinsert (trace (Unflagged.access tlb req) w) =
            [EvPostinsert key desc slot] /\
          w_array (final (Unflagged.access tlb req w)) =
            CacheArray.postinsert (snd chosen) key desc slot
      else
        calls is_postinsert (trace (Unflagged.access tlb req) w) = [] /\
        w_array (final (Unflagged.access tlb req w)) = snd found) /\
  (forall (reqs : list (Address * Z)) (w : World A C) (key : Address),
      resident
        (w_array (final (translate_all Flagged.translate tlb reqs w))) key \/
      resident
        (w_array (final (translate_all Unflagged.translate tlb reqs w))) key ->
      resident (w_array w) key \/
      exists vAddr curCycle,
        In (vAddr, curCycle) reqs /\ key = translate_key tlb vAddr).
Proof.
  intros _. split; [|split; [|split; [|split]]].
  - intros req w e Hin Hpost.
    flagged_cases tlb req w; rewrite Htrace in Hin; cbn [In] in Hin;
      repeat (destruct Hin as [<-|Hin];
              [first [discriminate Hpost | reflexivity]|]);
      contradiction.
  - intros req w e Hin Hpost.
    unflagged_cases tlb req w; rewrite Htrace in Hin; cbn [In] in Hin;
      repeat (destruct Hin as [<-|Hin];
              [first [discriminate Hpost | reflexivity]|]);
      contradiction.
  - intros req w. cbv zeta.
    flagged_cases tlb req w; cbn [fst snd]; rewrite Htrace, Hrun.
    + subst l. rewrite Hpre. cbn. eexists. split; reflexivity.
    + subst l. rewrite Hpre. cbn. eexists. split; reflexivity.
    + destruct (Z.eqb_spec l (-1)); [contradiction|]. split; reflexivity.
  - intros req w. cbv zeta.
    unflagged_cases tlb req w; cbn [fst snd]; rewrite Htrace, Hrun.
    + subst l. rewrite Hpre. cbn. eexists. split; reflexivity.
    + subst l. rewrite Hpre. cbn. eexists. split; reflexivity.
    + destruct (Z.eqb_spec l (-1)); [contradiction|]. split; reflexivity.
  - intros reqs w key [Hk|Hk].
    + eapply translate_all_resident; [|exact Hk].
      apply flagged_translate_resident.
    + eapply translate_all_resident; [|exact Hk].
      apply unflagged_translate_resident.
Qed.

Lemma resident_keys_are_page_keys_witness :
  let tlb := scenario_tlb true in
  let laws :=
    Build_ArrayLaws SimpleArray.t SimpleArray.array SimpleArray.resident
      (fun a key req upd k Hk => Hk) (fun a key req k Hk => Hk)
      simple_array_postinsert_resident in
  (forall (req : MemReq.t) (w : World SimpleArray.t SimpleCC.t) (e : Event),
      In e (trace (Flagged.access tlb req) w) ->
      is_postinsert e = true ->
      ev_key e = Some (MemReq.pageNum req)) /\
  (forall (req : TLBReq.t) (w : World SimpleArray.t SimpleCC.t) (e : Event),
      In e (trace (Unflagged.access tlb req) w) ->
      is_postinsert e = true ->
      ev_key e = Some (TLBReq.pageNum req)) /\
  (forall (req : MemReq.t) (w : World SimpleArray.t SimpleCC.t),
      let key := MemReq.pageNum req in
      let found := CacheArray.lookup (w_array w) key None false in
      let chosen := CacheArray.preinsert (snd found) key None in
      let slot := fst (fst chosen) in
      if fst found =? -1 then
        exists desc,
          calls is_postinsert (trace (Flagged.access tlb req) w) =
            [EvPostinsert key desc slot] /\
          w_array (final (Flagged.access tlb req w)) =
            CacheArray.postinsert (snd chosen) key desc slot
      else
        calls is_postinsert (trace (Flagged.access tlb req) w) = [] /\
        w_array (final (Flagged.access tlb req w)) = snd found) /\
  (forall (req : TLBReq.t) (w : World SimpleArray.t SimpleCC.t),
      let key := TLBReq.pageNum req in
      let found := CacheArray.lookup (w_array w) key None false in
      let chosen := CacheArray.preinsert (snd found) key None in
      let slot := fst (fst chosen) in
      if fst found =? -1 then
        exists desc,
          calls is_postinsert (trace (Unflagged.access tlb req) w) =
            [EvPostinsert key desc slot] /\
          w_array (final (Unflagged.access tlb req w)) =
            CacheArray.postinsert (snd chosen) key desc slot
      else
        calls is_postinsert (trace (Unflagged.access tlb req) w) = [] /\
        w_array (final (Unflagged.access tlb req w)) = snd found) /\
  (forall (reqs : list (Address * Z)) (w : World SimpleArray.t SimpleCC.t) (key : Address),
      SimpleArray.resident
        (w_array (final (translate_all Flagged.translate tlb reqs w))) key \/
      SimpleArray.resident
        (w_array (final (translate_all Unflagged.translate tlb reqs w))) key ->
      SimpleArray.resident (w_array w) key \/
      exists vAddr curCycle,
        In (vAddr, curCycle) reqs /\ key = translate_key tlb vAddr).
Proof.
  intros tlb laws.
  apply (@resident_keys_are_page_keys SimpleArray.t SimpleCC.t _ _ laws tlb).
  apply scenario_tlb_wf.
Defined.

(** The run of the capacity-one scenario: after translating pages 1 and 2
    the only resident key is 2, the key of the second call. *)
Example resident_after_two_translates :
  let w := final (translate_all Flagged.translate (scenario_tlb true)
                    [(4096, 0); (8192, 10)] (scenario_world 1 false 30)) in
  SimpleArray.slots (w_array w) = [Some 2].
Proof. vm_compute. reflexivity. Qed.

(** * Configuration value parsing *)

Section TokenizeFacts.
Variable delimiters : list Ascii.ascii.

Local Abbreviation delim := (Config.is_any_of delimiters).

Lemma first_at_None p s :
  Config.first_at p s = None -> Forall (fun c => p c = false) s.
Proof.
  induction s as [|c s IH]; cbn; intros E; [constructor|].
  destruct (p c) eqn:Hc; [discriminate|].
  destruct (Config.first_at p s); [discriminate|].
  constructor; auto.
Qed.

Lemma first_at_Some p s k :
  Config.first_at p s = Some k ->
  exists tok d rest,
    s = tok ++ d :: rest /\ length tok = k /\
    Forall (fun c => p c = false) tok /\ p d = true.
Proof.
  revert k. induction s as [|c s IH]; cbn; intros k E; [discriminate|].
  destruct (p c) eqn:Hc.
  - injection E as <-. exists [], c, s. repeat split; auto.
  - destruct (Config.first_at p s) as [j|]; [|discriminate].
    injection E as <-.
    destruct (IH j eq_refl) as (tok & d & rest & -> & <- & Htok & Hd).
    exists (c :: tok), d, rest. repeat split; auto.
Qed.

Lemma filter_all_kept (p : Ascii.ascii -> bool) s :
  Forall (fun c => p c = true) s -> List.filter p s = s.
Proof.
  induction 1 as [|c s Hc _ IH]; cbn; [reflexivity|]. now rewrite Hc, IH.
Qed.

Lemma filter_all_dropped (p : Ascii.ascii -> bool) s :
  Forall (fun c => p c = false) s -> List.filter p s = [].
Proof.
  induction 1 as [|c s Hc _ IH]; cbn; [reflexivity|]. now rewrite Hc.
Qed.

Lemma scan_token tok : forall s acc,
  Forall (fun c => delim c = false) tok ->
  Config.scan delimiters (tok ++ s) (Some acc) =
  Config.scan delimiters s (Some (acc ++ tok)).
Proof.
  induction tok as [|c tok IH]; intros s acc Htok; cbn [app Config.scan].
  - now rewrite app_nil_r.
  - apply Forall_cons in Htok. destruct Htok as [Hc Htok].
    rewrite Hc, IH by assumption. now rewrite <- app_assoc.
Qed.

Lemma scan_delims ds : forall s,
  Forall (fun c => negb (delim c) = false) ds ->
  Config.scan delimiters (ds ++ s) None = Config.scan delimiters s None.
Proof.
  induction ds as [|d ds IH]; intros s Hds; cbn [app Config.scan];
    [reflexivity|].
  apply Forall_cons in Hds. destruct Hds as [Hd Hds].
  apply negb_false_iff in Hd. rewrite Hd. now apply IH.
Qed.

Lemma scan_start c s :
  delim c = false ->
  Config.scan delimiters (c :: s) None =
  Config.scan delimiters (c :: s) (Some []).
Proof. intros Hc. cbn [Config.scan]. now rewrite Hc. Qed.

Lemma Tokenize_loop_spec fuel : forall pre rest tokens,
  (length rest < fuel)%nat ->
  exists new,
    Config.Tokenize_loop fuel (pre ++ rest) delimiters (Some (length pre))
      (Config.find_first_of (pre ++ rest) delimiters (Some (length pre)))
      tokens = Config.Ok (tokens ++ new) /\
    new = Config.scan delimiters rest (Some []) /\
    List.concat new = List.filter (fun c => negb (delim c)) rest /\
    Forall (Forall (fun c => delim c = false)) new /\
    new <> [] /\
    Forall (fun t => t <> []) (tl new) /\
    (hd [] new = [] <->
     match rest with [] => True | c :: _ => delim c = true end).
Proof.
  induction fuel as [|fuel IH]; intros pre rest tokens Hfuel; [lia|].
  cbn [Config.find_first_of]. rewrite drop_app_length.
  destruct (Config.first_at (Config.is_any_of delimiters) rest) as [k|] eqn:E.
  - (* a delimiter is found at offset [k] *)
    destruct (first_at_Some _ _ _ E) as (tok & d & rest2 & -> & <- & Htok & Hd).
    cbn [option_map Config.Tokenize_loop Config.substr Config.pos_sub].
    assert (Hle : Nat.leb (length pre) (length (pre ++ tok ++ d :: rest2)) = true)
      by (apply Nat.leb_le; rewrite length_app; lia).
    assert (Hle' : Nat.leb (length pre) (length pre + length tok) = true)
      by (apply Nat.leb_le; lia).
    rewrite Hle, Hle'.
    replace (length pre + length tok - length pre)%nat with (length tok) by lia.
    rewrite drop_app_length, take_app_length.
    cbn [Config.find_first_not_of].
    replace (skipn (length pre + length tok) (pre ++ tok ++ d :: rest2))
      with (d :: rest2)
      by (rewrite app_assoc, <- length_app, drop_app_length; reflexivity).
    destruct (Config.first_at (fun c => negb (Config.is_any_of delimiters c))
                (d :: rest2)) as [j|] eqn:E2.
    + (* a further token starts at offset [j] *)
      destruct (first_at_Some _ _ _ E2) as (ds & c & rest3 & Hsplit & <- & Hds & Hc).
      assert (Hds1 : (1 <= length ds)%nat).
      { destruct ds as [|d' ds']; [|cbn; lia].
        cbn in Hsplit. injection Hsplit as <- _. rewrite Hd in Hc.
        discriminate. }
      cbn [option_map].
      replace (pre ++ tok ++ d :: rest2) with ((pre ++ tok ++ ds) ++ c :: rest3)
        by (rewrite Hsplit, <- !app_assoc; reflexivity).
      replace (length pre + length tok + length ds)%nat
        with (length (pre ++ tok ++ ds)) by (rewrite !length_app; lia).
      destruct (IH (pre ++ tok ++ ds) (c :: rest3) (tokens ++ [tok]))
        as (new & Hrun & Hscan & Hcat & Hnd & Hne & Htl & Hhd).
      { rewrite length_app in Hfuel. cbn [length] in *.
        assert (length (d :: rest2) = length (ds ++ c :: rest3))
          by now rewrite Hsplit.
        rewrite length_app in *. cbn [length] in *. lia. }
      exists (tok :: new). rewrite Hrun, <- app_assoc. split; [reflexivity|].
      apply negb_true_iff in Hc.
      repeat split.
      * rewrite (scan_token tok _ [] Htok). cbn [Config.scan app].
        rewrite Hd. f_equal.
        destruct ds as [|d' ds']; [cbn in Hds1; lia|].
        cbn [app] in Hsplit. injection Hsplit as <- ->.
        apply Forall_cons in Hds. destruct Hds as [_ Hds].
        rewrite (scan_delims ds' _ Hds), (scan_start c rest3 Hc).
        exact Hscan.
      * assert (Htok' : Forall (fun a => negb (delim a) = true) tok)
          by (eapply Forall_impl; [exact Htok|]; cbn; intros a Ha;
              now rewrite Ha).
        cbn [List.concat]. rewrite Hcat, List.filter_app, Hsplit.
        rewrite List.filter_app.
        rewrite (filter_all_kept _ tok Htok'), (filter_all_dropped _ ds Hds).
        reflexivity.
      * constructor; assumption.
      * discriminate.
      * cbn [tl]. destruct new as [|t new']; [contradiction|].
        constructor; [|exact Htl]. cbn [hd] in Hhd. intros ->.
        destruct Hhd as [Hhd _]. specialize (Hhd eq_refl). congruence.
      * cbn [hd]. intros ->. exact Hd.
      * cbn [hd]. destruct tok as [|t0 tok']; [reflexivity|].
        cbn. intros Ht0. apply Forall_inv in Htok. congruence.
    + (* only delimiters remain *)
      cbn [option_map Config.find_first_of].
      exists [tok]. split; [destruct fuel; reflexivity|].
      pose proof (first_at_None _ _ E2) as Hall.
      repeat split.
      * rewrite (scan_token tok _ [] Htok). cbn [Config.scan app].
        rewrite Hd. f_equal.
        apply Forall_cons in Hall. destruct Hall as [_ Hall].
        rewrite <- (app_nil_r rest2), (scan_delims rest2 [] Hall).
        reflexivity.
      * assert (Htok' : Forall (fun a => negb (delim a) = true) tok)
          by (eapply Forall_impl; [exact Htok|]; cbn; intros a Ha;
              now rewrite Ha).
        cbn [List.concat]. rewrite app_nil_r, List.filter_app.
        rewrite (filter_all_kept _ tok Htok').
        rewrite (filter_all_dropped _ (d :: rest2) Hall).
        now rewrite app_nil_r.
      * constructor; [assumption|constructor].
      * discriminate.
      * constructor.
      * cbn [hd]. intros ->. exact Hd.
      * cbn [hd]. destruct tok as [|t0 tok']; [reflexivity|].
        cbn. intros Ht0. apply Forall_inv in Htok. congruence.
  - (* no delimiter: the rest is the last token *)
    cbn [option_map Config.Tokenize_loop Config.substr Config.pos_sub].
    assert (Hle : Nat.leb (length pre) (length (pre ++ rest)) = true)
      by (apply Nat.leb_le; rewrite length_app; lia).
    rewrite Hle, drop_app_length.
    cbn [Config.find_first_not_of Config.find_first_of Config.Tokenize_loop].
    destruct fuel; cbn [Config.Tokenize_loop];
      (exists [rest]; split; [reflexivity|]);
      pose proof (first_at_None _ _ E) as Hall;
      (repeat split;
       [ rewrite <- (app_nil_r rest) at 2;
         rewrite (scan_token rest [] [] Hall); reflexivity
       | cbn [List.concat]; rewrite app_nil_r, filter_all_kept;
         [reflexivity|];
         eapply Forall_impl; [exact Hall|]; cbn; intros a Ha;
         now rewrite Ha
       | constructor; [assumption|constructor]
       | discriminate
       | constructor
       | cbn [hd]; intros ->; exact Logic.I
       | cbn [hd]; destruct rest as [|c0 rest']; [reflexivity|];
         intros Hc0; apply Forall_inv in Hall; congruence ]).
Qed.

End TokenizeFacts.

Lemma Tokenize_scan str tokens delimiters :
  Config.Tokenize str tokens delimiters =
  Config.Ok (tokens ++ Config.scan delimiters str (Some [])).
Proof.
  unfold Config.Tokenize.
  destruct (Tokenize_loop_spec delimiters (S (length str)) [] str tokens)
    as (new & Hrun & -> & _); [lia|].
  exact Hrun.
Qed.

Lemma Tokenize_facts str tokens delimiters :
  exists new,
    Config.Tokenize str tokens delimiters = Config.Ok (tokens ++ new) /\
    List.concat new =
      List.filter (fun c => negb (Config.is_any_of delimiters c)) str /\
    Forall (Forall (fun c => Config.is_any_of delimiters c = false)) new /\
    new <> [] /\
    Forall (fun t => t <> []) (tl new) /\
    (hd [] new = [] <->
     match str with
     | [] => True
     | c :: _ => Config.is_any_of delimiters c = true
     end).
Proof.
  unfold Config.Tokenize.
  destruct (Tokenize_loop_spec delimiters (S (length str)) [] str tokens)
    as (new & Hrun & _ & Hrest); [lia|].
  exists new. split; [exact Hrun|exact Hrest].
Qed.

(** X1. [Tokenize] always returns: [substr] never throws and the loop ends
    within [size + 1] rounds.  It keeps the tokens already in the vector and
    appends tokens that contain no delimiter and that, put together, are the
    string with its delimiters removed. *)
Theorem Tokenize_partitions_string
    (str : list Ascii.ascii) (tokens : list (list Ascii.ascii))
    (delimiters : list Ascii.ascii) :
  exists new,
    Config.Tokenize str tokens delimiters = Config.Ok (tokens ++ new) /\
    Forall (Forall (fun c => Config.is_any_of delimiters c = false)) new /\
    List.concat new =
      List.filter (fun c => negb (Config.is_any_of delimiters c)) str.
Proof.
  destruct (Tokenize_facts str tokens delimiters)
    as (new & Hrun & Hcat & Hnd & _).
  exists new. auto.
Qed.

(** X2. [Tokenize] appends at least one token, also for the empty string.
    Only the first appended token can be empty, and it is empty exactly when
    the string is empty or begins with a delimiter (the leading delimiters
    are deliberately not skipped); delimiters in a row elsewhere, and
    delimiters at the end, produce no empty token. *)
Theorem Tokenize_empty_token_only_first
    (str : list Ascii.ascii) (tokens : list (list Ascii.ascii))
    (delimiters : list Ascii.ascii) :
  exists first others,
    Config.Tokenize str tokens delimiters =
      Config.Ok (tokens ++ first :: others) /\
    Forall (fun t => t <> []) others /\
    (first = [] <->
     match str with
     | [] => True
     | c :: _ => Config.is_any_of delimiters c = true
     end).
Proof.
  destruct (Tokenize_facts str tokens delimiters)
    as (new & Hrun & _ & _ & Hne & Htl & Hhd).
  destruct new as [|first others]; [contradiction|].
  exists first, others. auto.
Qed.

Lemma scan_only_delims delimiters ds cur :
  Forall (fun c => Config.is_any_of delimiters c = true) ds ->
  ds <> [] ->
  Config.scan delimiters ds cur =
  match cur with Some t => [t] | None => [] end.
Proof.
  intros Hds Hne. destruct ds as [|d ds]; [contradiction|].
  apply Forall_cons in Hds. destruct Hds as [Hd Hds].
  cbn [Config.scan]. rewrite Hd.
  assert (Hnone : Config.scan delimiters ds None = []).
  { clear Hne Hd. induction ds as [|d' ds IH]; [reflexivity|].
    apply Forall_cons in Hds. destruct Hds as [Hd' Hds].
    cbn [Config.scan]. rewrite Hd'. now apply IH. }
  rewrite Hnone. now destruct cur.
Qed.

Lemma scan_trailing delimiters ds : forall s cur,
  Forall (fun c => Config.is_any_of delimiters c = true) ds ->
  (s <> [] \/ cur <> None) ->
  Config.scan delimiters (s ++ ds) cur = Config.scan delimiters s cur.
Proof.
  intros s. induction s as [|c s IH]; intros cur Hds Hcur.
  - destruct Hcur as [Hs|Hcur]; [contradiction|].
    destruct ds as [|d ds']; [reflexivity|].
    cbn [app]. rewrite scan_only_delims by (auto; discriminate).
    destruct cur; [reflexivity|contradiction].
  - cbn [app Config.scan].
    destruct (Config.is_any_of delimiters c) eqn:Hc.
    + destruct s as [|c' s'].
      * cbn [app]. destruct ds as [|d ds']; [reflexivity|].
        rewrite scan_only_delims by (auto; discriminate).
        now destruct cur.
      * destruct cur; [f_equal|]; apply IH; auto; left; discriminate.
    + apply IH; [assumption|]. right. discriminate.
Qed.

(** X3. Delimiters at the end of the string do not matter to [Tokenize]:
    appending any run of delimiters to the string leaves the result as it
    was. *)
Theorem Tokenize_ignores_trailing_delimiters
    (str trailing : list Ascii.ascii) (tokens : list (list Ascii.ascii))
    (delimiters : list Ascii.ascii) :
  Forall (fun c => Config.is_any_of delimiters c = true) trailing ->
  Config.Tokenize (str ++ trailing) tokens delimiters =
  Config.Tokenize str tokens delimiters.
Proof.
  intros Htr. rewrite !Tokenize_scan. f_equal. f_equal.
  apply scan_trailing; [assumption|]. right. discriminate.
Qed.

(** X4. A string without any delimiter is its own single token, the empty
    string included. *)
Theorem Tokenize_without_delimiter
    (str : list Ascii.ascii) (tokens : list (list Ascii.ascii))
    (delimiters : list Ascii.ascii) :
  Forall (fun c => Config.is_any_of delimiters c = false) str ->
  Config.Tokenize str tokens delimiters = Config.Ok (tokens ++ [str]).
Proof.
  intros Hstr. rewrite Tokenize_scan. do 2 f_equal.
  rewrite <- (app_nil_r str) at 1.
  rewrite (scan_token delimiters str [] [] Hstr). reflexivity.
Qed.

(** * Ranges and masks *)

Lemma to_int32_bounds x : - 2 ^ 31 <= Config.to_int32 x < 2 ^ 31.
Proof.
  unfold Config.to_int32. cbv zeta.
  pose proof (Z.mod_pos_bound x (2 ^ 32) ltac:(lia)).
  destruct (Z.ltb_spec (x mod 2 ^ 32) (2 ^ 31)); lia.
Qed.

Lemma to_int32_small x : 0 <= x < 2 ^ 31 -> Config.to_int32 x = x.
Proof.
  intros Hx. unfold Config.to_int32. cbv zeta.
  rewrite Z.mod_small by lia.
  destruct (Z.ltb_spec x (2 ^ 31)); lia.
Qed.

Lemma fits_int32_spec x :
  Config.fits_int32 x = true <-> - 2 ^ 31 <= x < 2 ^ 31.
Proof.
  unfold Config.fits_int32. rewrite andb_true_iff, Z.leb_le, Z.ltb_lt. lia.
Qed.

Lemma Range_check_Ok r r' :
  Config.Range_check r = Config.Ok r' ->
  r' = r /\ 0 <= Config.min r < Config.sup r /\ 1 <= Config.step r.
Proof.
  unfold Config.Range_check.
  destruct (Z.ltb_spec (Config.min r) 0); cbn [orb]; [discriminate|].
  destruct (Z.ltb_spec (Config.step r) 0); cbn [orb]; [discriminate|].
  destruct (Z.ltb_spec (Config.sup r) 0); cbn [orb]; [discriminate|].
  destruct (Z.eqb_spec (Config.step r) 0); [discriminate|].
  destruct (Z.leb_spec (Config.sup r) (Config.min r)); [discriminate|].
  intros E. injection E as <-. split; [reflexivity|lia].
Qed.

Lemma Range_new_bounds
    (parse_uint32 : list Ascii.ascii -> option Z) (r : list Ascii.ascii)
    (range : Config.Range) :
  Config.Range_new parse_uint32 r = Config.Ok range ->
  0 <= Config.min range < Config.sup range /\
  Config.sup range < 2 ^ 31 /\
  1 <= Config.step range < 2 ^ 31.
Proof.
  unfold Config.Range_new.
  destruct (Config.Tokenize r [] _) as [t|e]; [|discriminate].
  destruct (Config.parse_numbers parse_uint32 t) as [n|e]; [|discriminate].
  destruct n as [|n0 [|n1 [|n2 [|n3 n]]]]; try discriminate.
  - destruct (Config.fits_int32 (Config.to_int32 n0 + 1)) eqn:Hfit;
      [|discriminate].
    apply fits_int32_spec in Hfit.
    intros E. apply Range_check_Ok in E. destruct E as (-> & Hr & Hs).
    cbn in *. lia.
  - intros E. apply Range_check_Ok in E. destruct E as (-> & Hr & Hs).
    pose proof (to_int32_bounds n1). cbn in *. lia.
  - intros E. apply Range_check_Ok in E. destruct E as (-> & Hr & Hs).
    pose proof (to_int32_bounds n1). pose proof (to_int32_bounds n2).
    cbn in *. lia.
Qed.

(** X5. Every [Range] the constructor returns is well formed:
    [0 <= min < sup], [step >= 1], and all three lie in the non-negative
    half of [int32_t] (a field of 2^31 or more, read as [uint32_t], is
    caught as a negative number). *)
Theorem Range_new_well_formed
    (parse_uint32 : list Ascii.ascii -> option Z) (r : list Ascii.ascii)
    (range : Config.Range) :
  Config.Range_new parse_uint32 r = Config.Ok range ->
  0 <= Config.min range < Config.sup range /\
  Config.sup range < 2 ^ 31 /\
  1 <= Config.step range < 2 ^ 31.
Proof. apply Range_new_bounds. Qed.

Lemma covered_from_step r i n :
  1 <= Config.step r ->
  Config.covered_from r i n <->
  (n = i /\ i < Config.sup r) \/ Config.covered_from r (i + Config.step r) n.
Proof.
  intros Hstep. unfold Config.covered_from. split.
  - intros (k & Hk & Hn & Hsup).
    destruct (Z.eq_dec k 0) as [->|Hk0]; [left; lia|].
    right. exists (k - 1). repeat split; lia.
  - intros [[-> Hsup]|(k & Hk & Hn & Hsup)].
    + exists 0. lia.
    + exists (k + 1). repeat split; lia.
Qed.

Lemma covered_from_ge r i n :
  1 <= Config.step r -> Config.covered_from r i n -> i <= n.
Proof. intros Hstep (k & Hk & -> & _). nia. Qed.

Lemma fill_loop_spec r :
  1 <= Config.step r ->
  forall fuel i mask,
    0 <= i ->
    Config.sup r - i <= Z.of_nat fuel ->
    Z.of_nat (length mask) < 2 ^ 31 ->
    match Config.fill_loop fuel r i mask with
    | Config.Ok mask' =>
        length mask' = length mask /\
        (forall n, Config.covered_from r i n -> n < Z.of_nat (length mask)) /\
        (forall j : nat,
            mask' !! j = Some true <->
            mask !! j = Some true \/ Config.covered_from r i (Z.of_nat j))
    | Config.Err e =>
        (e = Config.OutOfBounds /\
         exists n, Config.covered_from r i n /\ Z.of_nat (length mask) <= n) \/
        (e = Config.SignedOverflow /\ 2 ^ 31 < Config.sup r + Config.step r)
    end.
Proof.
  intros Hstep. induction fuel as [|fuel IH]; intros i mask Hi Hfuel Hlen;
    cbn [Config.fill_loop];
    destruct (Z.ltb_spec i (Config.sup r)) as [Hlt|Hge];
    try lia.
  1, 3: (* the loop has ended *)
    (repeat split; try tauto;
     [ intros n Hn; pose proof (covered_from_ge _ _ _ Hstep Hn);
       destruct Hn as (k & _ & _ & Hsup); lia
     | intros [H|Hn]; [exact H|];
       pose proof (covered_from_ge _ _ _ Hstep Hn);
       destruct Hn as (k & _ & _ & Hsup); lia ]).
  - rewrite to_int32_small by lia.
    destruct (Z.leb_spec (Z.of_nat (length mask)) i) as [Hout|Hin];
      cbn [orb].
    { left. split; [reflexivity|]. exists i. split; [|exact Hout].
      exists 0. lia. }
    destruct (Z.ltb_spec i 0); [lia|].
    destruct (Config.fits_int32 (i + Config.step r)) eqn:Hfit.
    + specialize (IH (i + Config.step r) (<[Z.to_nat i := true]> mask)).
      rewrite length_insert in IH.
      specialize (IH ltac:(lia) ltac:(lia) Hlen).
      destruct (Config.fill_loop fuel r (i + Config.step r) _)
        as [mask'|e].
      * destruct IH as (Hlen' & Hbound & Hbits). repeat split.
        -- exact Hlen'.
        -- intros n Hn. apply covered_from_step in Hn; [|exact Hstep].
           destruct Hn as [[-> _]|Hn]; [lia|auto].
        -- intros Hj. apply Hbits in Hj. destruct Hj as [Hj|Hj].
           ++ destruct (Nat.eq_dec j (Z.to_nat i)) as [->|Hne].
              ** right. apply covered_from_step; [exact Hstep|].
                 left. lia.
              ** left. now rewrite list_lookup_insert_ne in Hj by auto.
           ++ right. apply covered_from_step; [exact Hstep|]. now right.
        -- intros [Hj|Hj]; apply Hbits.
           ++ destruct (Nat.eq_dec j (Z.to_nat i)) as [->|Hne].
              ** left. apply list_lookup_insert_eq. lia.
              ** left. now rewrite list_lookup_insert_ne by auto.
           ++ apply covered_from_step in Hj; [|exact Hstep].
              destruct Hj as [[Hj _]|Hj]; [|now right].
              left. replace j with (Z.to_nat i) by lia.
              apply list_lookup_insert_eq. lia.
      * destruct IH as [(-> & n & Hn & Hout)|(-> & Hov)].
        -- left. split; [reflexivity|]. exists n. split; [|exact Hout].
           apply covered_from_step; [exact Hstep|]. now right.
        -- right. auto.
    + right. split; [reflexivity|].
      assert (Hnot : ~ (- 2 ^ 31 <= i + Config.step r < 2 ^ 31))
        by (rewrite <- fits_int32_spec, Hfit; discriminate).
      lia.
Qed.

Lemma fill_outcome
    (r : Config.Range) (mask : list bool) :
  0 <= Config.min r < Config.sup r ->
  1 <= Config.step r ->
  Z.of_nat (length mask) < 2 ^ 31 ->
  match Config.fill r mask with
  | Config.Ok mask' =>
      length mask' = length mask /\
      (forall n, Config.covers r n -> n < Z.of_nat (length mask)) /\
      (forall j : nat,
          mask' !! j = Some true <->
          mask !! j = Some true \/ Config.covers r (Z.of_nat j))
  | Config.Err e =>
      (e = Config.OutOfBounds /\
       exists n, Config.covers r n /\ Z.of_nat (length mask) <= n) \/
      (e = Config.SignedOverflow /\ 2 ^ 31 < Config.sup r + Config.step r)
  end.
Proof.
  intros Hr Hstep Hlen. unfold Config.fill, Config.covers.
  apply fill_loop_spec; [exact Hstep|lia|lia|exact Hlen].
Qed.

(** X6. What [Range::fill] does with a well-formed range on a mask shorter
    than 2^31.  When it returns, every index of the range ([min],
    [min + step], ... below [sup]) lies inside the mask, the mask keeps its
    length, and a bit is set afterwards exactly when it was set before or
    its index is in the range.  Otherwise it stops either at the
    out-of-bounds panic, and then some index of the range is outside the
    mask, or at an [int32_t] overflow of [i += step], which requires
    [sup + step > 2^31]. *)
Theorem fill_sets_the_range
    (r : Config.Range) (mask : list bool) :
  0 <= Config.min r < Config.sup r ->
  1 <= Config.step r ->
  Z.of_nat (length mask) < 2 ^ 31 ->
  match Config.fill r mask with
  | Config.Ok mask' =>
      length mask' = length mask /\
      (forall n, Config.covers r n -> n < Z.of_nat (length mask)) /\
      (forall j : nat,
          mask' !! j = Some true <->
          mask !! j = Some true \/ Config.covers r (Z.of_nat j))
  | Config.Err e =>
      (e = Config.OutOfBounds /\
       exists n, Config.covers r n /\ Z.of_nat (length mask) <= n) \/
      (e = Config.SignedOverflow /\ 2 ^ 31 < Config.sup r + Config.step r)
  end.
Proof. apply fill_outcome. Qed.

Section MaskFacts.
Variable parse_uint32 : list Ascii.ascii -> option Z.

(** Some range of [ranges] (a non-empty token that the constructor
    accepts) has [n] among its indices. *)
Local Abbreviation hit ranges n :=
  (exists r range,
      In r ranges /\ r <> [] /\
      Config.Range_new parse_uint32 r = Config.Ok range /\
      Config.covers range n).

Lemma ParseMask_loop_spec ranges : forall mask mask',
  Z.of_nat (length mask) < 2 ^ 31 ->
  Config.ParseMask_loop parse_uint32 ranges mask = Config.Ok mask' ->
  length mask' = length mask /\
  (forall j : nat,
      mask' !! j = Some true <->
      mask !! j = Some true \/ hit ranges (Z.of_nat j)).
Proof.
  induction ranges as [|r ranges IH]; intros mask mask' Hlen;
    cbn [Config.ParseMask_loop].
  - intros E. injection E as <-. split; [reflexivity|].
    intros j. split; [now left|].
    intros [H|(r & range & [] & _)]. exact H.
  - destruct r as [|c r]; cbn [length Nat.eqb].
    { intros E. destruct (IH _ _ Hlen E) as (Hl & Hbits).
      split; [exact Hl|]. intros j. rewrite Hbits. split.
      - intros [H|(r & range & Hin & Hrest)]; [now left|].
        right. exists r, range. split; [now right|exact Hrest].
      - intros [H|(r & range & [<-|Hin] & Hne & Hrest)]; [now left| |].
        + contradiction.
        + right. exists r, range. auto. }
    destruct (Config.Range_new parse_uint32 (c :: r)) as [range|e] eqn:Hnew;
      [|discriminate].
    pose proof (Range_new_bounds _ _ _ Hnew) as (Hr & _ & Hstep & _).
    pose proof (fill_outcome range mask Hr Hstep Hlen) as Hfill.
    destruct (Config.fill range mask) as [mask1|e]; [|discriminate].
    destruct Hfill as (Hl1 & _ & Hbits1).
    intros E. destruct (IH mask1 mask' ltac:(lia) E) as (Hl & Hbits).
    split; [congruence|]. intros j. rewrite Hbits, Hbits1. split.
    + intros [[H|Hc]|(r' & range' & Hin & Hrest)].
      * now left.
      * right. exists (c :: r), range.
        split; [now left|]. split; [discriminate|]. split; assumption.
      * right. exists r', range'. split; [now right|exact Hrest].
    + intros [H|(r' & range' & [<-|Hin] & Hne & Hnew' & Hc)].
      * left. now left.
      * left. right. rewrite Hnew in Hnew'. now injection Hnew' as <-.
      * right. exists r', range'. auto.
Qed.

(** X7. When [ParseMask] returns for a size below 2^31, the mask has that
    size and bit [j] is set exactly when some non-empty space-separated
    token of the string is a range that has [j] among its indices. *)
Theorem ParseMask_bits
    (maskStr : list Ascii.ascii) (maskSize : Z) (mask : list bool)
    (ranges : list (list Ascii.ascii)) :
  0 <= maskSize < 2 ^ 31 ->
  Config.Tokenize maskStr [] [Config.space] = Config.Ok ranges ->
  Config.ParseMask parse_uint32 maskStr maskSize = Config.Ok mask ->
  Z.of_nat (length mask) = maskSize /\
  (forall j : nat,
      mask !! j = Some true <->
      exists r range,
        In r ranges /\ r <> [] /\
        Config.Range_new parse_uint32 r = Config.Ok range /\
        Config.covers range (Z.of_nat j)).
Proof.
  intros Hsize Htok. unfold Config.ParseMask.
  rewrite Htok.
  intros E. apply ParseMask_loop_spec in E.
  - destruct E as (Hl & Hbits). rewrite repeat_length in Hl.
    split; [lia|]. intros j. rewrite Hbits. split.
    + intros [H|H]; [|exact H].
      apply list_elem_of_lookup_2, list_elem_of_In, repeat_spec in H.
      discriminate.
    + intros H. now right.
  - rewrite repeat_length. lia.
Qed.

End MaskFacts.

Section ScanFacts.
Variable delimiters : list Ascii.ascii.

Lemma scan_app_delim d s2 : forall s1 cur,
  Config.is_any_of delimiters d = true ->
  Config.scan delimiters (s1 ++ d :: s2) cur =
  Config.scan delimiters s1 cur ++ Config.scan delimiters s2 None.
Proof.
  induction s1 as [|c s1 IH]; intros cur Hd; cbn [app Config.scan].
  - rewrite Hd. now destruct cur.
  - destruct (Config.is_any_of delimiters c).
    + destruct cur; cbn [app]; now rewrite IH.
    + now apply IH.
Qed.

Lemma scan_nonempty s : forall cur,
  match cur with Some t => t <> [] | None => True end ->
  Forall (fun t => Config.nonempty t = true) (Config.scan delimiters s cur).
Proof.
  assert (Hne : forall t : list Ascii.ascii,
             t <> [] -> Config.nonempty t = true)
    by (intros [|c t] H; [contradiction|reflexivity]).
  induction s as [|c s IH]; intros cur Hcur; cbn [Config.scan].
  - destruct cur; constructor; auto.
  - destruct (Config.is_any_of delimiters c).
    + destruct cur; [constructor; auto|]; apply IH; exact Logic.I.
    + apply IH. destruct cur as [t|]; [|discriminate].
      destruct t; discriminate.
Qed.

Lemma filter_nonempty_scan s :
  List.filter Config.nonempty (Config.scan delimiters s (Some [])) =
  Config.scan delimiters s None.
Proof.
  assert (Hall : forall l,
             Forall (fun t => Config.nonempty t = true) l ->
             List.filter Config.nonempty l = l).
  { induction 1 as [|t l Ht _ IH]; cbn; [reflexivity|].
    now rewrite Ht, IH. }
  destruct s as [|c s]; [reflexivity|]. cbn [Config.scan].
  destruct (Config.is_any_of delimiters c).
  - cbn [List.filter Config.nonempty length Nat.eqb negb].
    apply Hall, scan_nonempty. exact Logic.I.
  - cbn [app]. apply Hall, scan_nonempty. discriminate.
Qed.

(** The non-empty tokens of two strings joined by a delimiter are those of
    the first followed by those of the second. *)
Lemma nonempty_tokens_join d s1 s2 :
  Config.is_any_of delimiters d = true ->
  List.filter Config.nonempty
    (Config.scan delimiters (s1 ++ d :: s2) (Some [])) =
  List.filter Config.nonempty (Config.scan delimiters s1 (Some [])) ++
  List.filter Config.nonempty (Config.scan delimiters s2 (Some [])).
Proof.
  intros Hd. rewrite (scan_app_delim d s2 s1 _ Hd), List.filter_app.
  f_equal. rewrite filter_nonempty_scan.
  assert (Hall : Forall (fun t => Config.nonempty t = true)
                   (Config.scan delimiters s2 None))
    by (apply scan_nonempty; exact Logic.I).
  induction Hall as [|t l Ht _ IH]; cbn; [reflexivity|]. now rewrite Ht, IH.
Qed.

End ScanFacts.

Section MaskComposition.
Variable parse_uint32 : list Ascii.ascii -> option Z.

Lemma ParseMask_loop_filter ranges : forall mask,
  Config.ParseMask_loop parse_uint32 ranges mask =
  Config.ParseMask_loop parse_uint32
    (List.filter Config.nonempty ranges) mask.
Proof.
  induction ranges as [|r ranges IH]; intros mask; [reflexivity|].
  cbn [Config.ParseMask_loop List.filter]. unfold Config.nonempty at 1.
  destruct (Nat.eqb (length r) 0) eqn:Hr; cbn [negb].
  - apply IH.
  - cbn [Config.ParseMask_loop]. rewrite Hr.
    destruct (Config.Range_new parse_uint32 r); [|reflexivity].
    destruct (Config.fill t mask); [apply IH|reflexivity].
Qed.

Lemma ParseMask_loop_app ranges1 ranges2 : forall mask,
  Config.ParseMask_loop parse_uint32 (ranges1 ++ ranges2) mask =
  match Config.ParseMask_loop parse_uint32 ranges1 mask with
  | Config.Ok mask1 => Config.ParseMask_loop parse_uint32 ranges2 mask1
  | Config.Err e => Config.Err e
  end.
Proof.
  induction ranges1 as [|r ranges1 IH]; intros mask; [reflexivity|].
  cbn [app Config.ParseMask_loop].
  destruct (Nat.eqb (length r) 0); [apply IH|].
  destruct (Config.Range_new parse_uint32 r); [|reflexivity].
  destruct (Config.fill t mask); [apply IH|reflexivity].
Qed.

(** Whether [fill] returns, and with which error it stops, depends on the
    length of the mask only. *)
Lemma fill_loop_same_outcome r fuel : forall i mask1 mask2,
  length mask1 = length mask2 ->
  match Config.fill_loop fuel r i mask1, Config.fill_loop fuel r i mask2 with
  | Config.Ok a, Config.Ok b => length a = length b
  | Config.Err e1, Config.Err e2 => e1 = e2
  | _, _ => False
  end.
Proof.
  induction fuel as [|fuel IH]; intros i mask1 mask2 Hlen;
    cbn [Config.fill_loop]; rewrite ?Hlen;
    destruct (i <? Config.sup r); try reflexivity; try exact Hlen.
  destruct (_ || _); [reflexivity|].
  destruct (Config.fits_int32 _); [|reflexivity].
  apply IH. now rewrite !length_insert.
Qed.

Lemma ParseMask_loop_same_outcome ranges : forall mask1 mask2,
  length mask1 = length mask2 ->
  match Config.ParseMask_loop parse_uint32 ranges mask1,
        Config.ParseMask_loop parse_uint32 ranges mask2 with
  | Config.Ok a, Config.Ok b => length a = length b
  | Config.Err e1, Config.Err e2 => e1 = e2
  | _, _ => False
  end.
Proof.
  induction ranges as [|r ranges IH]; intros mask1 mask2 Hlen;
    cbn [Config.ParseMask_loop]; [exact Hlen|].
  destruct (Nat.eqb (length r) 0); [now apply IH|].
  destruct (Config.Range_new parse_uint32 r) as [range|e]; [|reflexivity].
  pose proof (fill_loop_same_outcome range
                (Z.to_nat (Config.sup range - Config.min range))
                (Config.min range) mask1 mask2 Hlen) as Hfill.
  unfold Config.fill.
  destruct (Config.fill_loop _ range _ mask1),
           (Config.fill_loop _ range _ mask2);
    try contradiction; [now apply IH|exact Hfill].
Qed.

Lemma same_true_positions (l1 l2 : list bool) :
  length l1 = length l2 ->
  (forall j, l1 !! j = Some true <-> l2 !! j = Some true) ->
  l1 = l2.
Proof.
  intros Hlen Hbits. apply list_eq. intros j.
  destruct (l1 !! j) as [b1|] eqn:E1, (l2 !! j) as [b2|] eqn:E2.
  - destruct b1, b2; try reflexivity.
    + apply Hbits in E1. congruence.
    + apply Hbits in E2. congruence.
  - apply lookup_lt_Some in E1. apply lookup_ge_None in E2. lia.
  - apply lookup_lt_Some in E2. apply lookup_ge_None in E1. lia.
  - reflexivity.
Qed.

(** X8. Mask strings compose: for a size below 2^31, parsing two mask
    strings joined by a space gives the bitwise OR of the masks of the two
    strings, and fails with the error of the first string that fails. *)
Theorem ParseMask_join
    (maskStr1 maskStr2 : list Ascii.ascii) (maskSize : Z) :
  0 <= maskSize < 2 ^ 31 ->
  Config.ParseMask parse_uint32 (maskStr1 ++ Config.space :: maskStr2)
    maskSize =
  match Config.ParseMask parse_uint32 maskStr1 maskSize with
  | Config.Err e => Config.Err e
  | Config.Ok mask1 =>
      match Config.ParseMask parse_uint32 maskStr2 maskSize with
      | Config.Err e => Config.Err e
      | Config.Ok mask2 => Config.Ok (zip_with orb mask1 mask2)
      end
  end.
Proof.
  intros Hsize. unfold Config.ParseMask. rewrite !Tokenize_scan.
  cbn [app].
  set (mask0 := repeat false (Z.to_nat maskSize)).
  assert (Hlen0 : Z.of_nat (length mask0) < 2 ^ 31)
    by (unfold mask0; rewrite repeat_length; lia).
  rewrite (ParseMask_loop_filter (Config.scan _ (maskStr1 ++ _) _)).
  rewrite nonempty_tokens_join by reflexivity.
  rewrite ParseMask_loop_app, <- ParseMask_loop_filter.
  set (ranges1 := Config.scan [Config.space] maskStr1 (Some [])).
  set (ranges2 := Config.scan [Config.space] maskStr2 (Some [])).
  destruct (Config.ParseMask_loop parse_uint32 ranges1 mask0)
    as [mask1|e] eqn:E1; [|reflexivity].
  rewrite <- ParseMask_loop_filter.
  destruct (ParseMask_loop_spec _ _ _ _ Hlen0 E1) as (Hl1 & Hbits1).
  pose proof (ParseMask_loop_same_outcome ranges2 mask1 mask0 Hl1) as Hsame.
  destruct (Config.ParseMask_loop parse_uint32 ranges2 mask1)
    as [mask12|e12] eqn:E12,
    (Config.ParseMask_loop parse_uint32 ranges2 mask0)
    as [mask2|e2] eqn:E2; try contradiction; [|now subst].
  assert (Hlen1 : Z.of_nat (length mask1) < 2 ^ 31) by lia.
  destruct (ParseMask_loop_spec _ _ _ _ Hlen1 E12) as (Hl12 & Hbits12).
  destruct (ParseMask_loop_spec _ _ _ _ Hlen0 E2) as (Hl2 & Hbits2).
  f_equal. apply same_true_positions.
  - rewrite length_zip_with. lia.
  - intros j. rewrite Hbits12, lookup_zip_with.
    assert (Hfalse : mask0 !! j <> Some true).
    { intros H. unfold mask0 in H.
      apply list_elem_of_lookup_2, list_elem_of_In, repeat_spec in H.
      discriminate. }
    destruct (mask1 !! j) as [b1|] eqn:Eb1; cbn.
    + assert (Hj : (j < length mask2)%nat)
        by (apply lookup_lt_Some in Eb1; lia).
      apply lookup_lt_is_Some_2 in Hj. destruct Hj as [b2 Eb2].
      rewrite Eb2. cbn. specialize (Hbits2 j). rewrite Eb2 in Hbits2.
      destruct b1, b2; cbn; split; intros H;
        first [ reflexivity
              | left; reflexivity
              | right; destruct (proj1 Hbits2 eq_refl) as [Hm|Hh];
                [contradiction|exact Hh]
              | destruct H as [H|H]; [discriminate|];
                assert (Some false = Some true)
                  by (apply Hbits2; now right);
                discriminate
              | discriminate ].
    + split; [|discriminate]. intros [H|H]; [discriminate|].
      assert (Hm2 : mask2 !! j = Some true) by (apply Hbits2; now right).
      apply lookup_lt_Some in Hm2. apply lookup_ge_None in Eb1. lia.
Qed.

(** X9. A mask string made of spaces only, the empty string included, gives
    the mask of the requested size with no bit set. *)
Theorem ParseMask_blank (maskStr : list Ascii.ascii) (maskSize : Z) :
  Forall (fun c => c = Config.space) maskStr ->
  Config.ParseMask parse_uint32 maskStr maskSize =
  Config.Ok (repeat false (Z.to_nat maskSize)).
Proof.
  intros Hblank. unfold Config.ParseMask. rewrite Tokenize_scan. cbn [app].
  destruct maskStr as [|c s]; [reflexivity|].
  rewrite scan_only_delims; [reflexivity| |discriminate].
  eapply Forall_impl; [exact Hblank|]. cbn. now intros a ->.
Qed.

End MaskComposition.

(** * Lists *)

Section ListComposition.
Context {T : Type}.
Variable parse : list Ascii.ascii -> option T.

Lemma ParseList_loop_filter nums : forall res,
  Config.ParseList_loop parse nums res =
  Config.ParseList_loop parse (List.filter Config.nonempty nums) res.
Proof.
  induction nums as [|n nums IH]; intros res; [reflexivity|].
  cbn [Config.ParseList_loop List.filter]. unfold Config.nonempty at 1.
  destruct (Nat.eqb (length n) 0) eqn:Hn; cbn [negb].
  - apply IH.
  - cbn [Config.ParseList_loop]. rewrite Hn.
    destruct (parse n); [apply IH|reflexivity].
Qed.

Lemma ParseList_loop_app nums1 nums2 : forall res,
  Config.ParseList_loop parse (nums1 ++ nums2) res =
  match Config.ParseList_loop parse nums1 res with
  | Config.Ok res1 => Config.ParseList_loop parse nums2 res1
  | Config.Err e => Config.Err e
  end.
Proof.
  induction nums1 as [|n nums1 IH]; intros res; [reflexivity|].
  cbn [app Config.ParseList_loop].
  destruct (Nat.eqb (length n) 0); [apply IH|].
  destruct (parse n); [apply IH|reflexivity].
Qed.

Lemma ParseList_loop_acc nums : forall res,
  Config.ParseList_loop parse nums res =
  match Config.ParseList_loop parse nums [] with
  | Config.Ok xs => Config.Ok (res ++ xs)
  | Config.Err e => Config.Err e
  end.
Proof.
  induction nums as [|n nums IH]; intros res; cbn [Config.ParseList_loop].
  - now rewrite app_nil_r.
  - destruct (Nat.eqb (length n) 0); [apply IH|].
    destruct (parse n) as [x|]; [|reflexivity].
    rewrite (IH (res ++ [x])), (IH ([] ++ [x])).
    destruct (Config.ParseList_loop parse nums []); [|reflexivity].
    now rewrite <- app_assoc.
Qed.

(** X10. Lists compose: parsing two list strings joined by a delimiter
    gives the elements of the first followed by those of the second, and
    fails when one of them fails, the first one first. *)
Theorem ParseList_join
    (listStr1 listStr2 delimiters : list Ascii.ascii) (d : Ascii.ascii) :
  Config.is_any_of delimiters d = true ->
  Config.ParseList parse (listStr1 ++ d :: listStr2) delimiters =
  match Config.ParseList parse listStr1 delimiters with
  | Config.Err e => Config.Err e
  | Config.Ok res1 =>
      match Config.ParseList parse listStr2 delimiters with
      | Config.Err e => Config.Err e
      | Config.Ok res2 => Config.Ok (res1 ++ res2)
      end
  end.
Proof.
  intros Hd. unfold Config.ParseList. rewrite !Tokenize_scan. cbn [app].
  rewrite (ParseList_loop_filter (Config.scan _ (listStr1 ++ _) _)).
  rewrite (nonempty_tokens_join _ _ _ _ Hd).
  rewrite ParseList_loop_app, <- ParseList_loop_filter.
  destruct (Config.ParseList_loop parse
              (Config.scan delimiters listStr1 (Some [])) [])
    as [res1|e]; [|reflexivity].
  rewrite <- ParseList_loop_filter. apply ParseList_loop_acc.
Qed.

(** X11. [ParseList] skips empty tokens and nothing else: when it returns,
    its elements are, in order, what the extraction gives for the non-empty
    tokens of the string; it fails exactly when the extraction fails on one
    of them. *)
Theorem ParseList_elements
    (listStr delimiters : list Ascii.ascii)
    (nums : list (list Ascii.ascii)) :
  Config.Tokenize listStr [] delimiters = Config.Ok nums ->
  match Config.ParseList parse listStr delimiters with
  | Config.Ok res =>
      Forall2 (fun n x => parse n = Some x)
              (List.filter Config.nonempty nums) res
  | Config.Err e =>
      e = Config.ItemUnparsed /\
      exists n, In n nums /\ n <> [] /\ parse n = None
  end.
Proof.
  intros Htok. unfold Config.ParseList. rewrite Htok. clear Htok.
  rewrite (ParseList_loop_acc nums []).
  induction nums as [|n nums IH]; cbn [Config.ParseList_loop List.filter].
  - constructor.
  - unfold Config.nonempty at 1.
    destruct (Nat.eqb (length n) 0) eqn:Hn; cbn [negb].
    + destruct (Config.ParseList_loop parse nums []) as [xs|e];
        [exact IH|].
      destruct IH as (-> & n' & Hin & Hrest). split; [reflexivity|].
      exists n'. split; [now right|exact Hrest].
    + destruct (parse n) as [x|] eqn:Hx.
      * rewrite (ParseList_loop_acc nums ([] ++ [x])).
        destruct (Config.ParseList_loop parse nums []) as [xs|e].
        -- cbn [app]. constructor; assumption.
        -- destruct IH as (-> & n' & Hin & Hrest). split; [reflexivity|].
           exists n'. split; [now right|exact Hrest].
      * split; [reflexivity|]. exists n. split; [now left|].
        split; [|exact Hx]. intros ->. discriminate.
Qed.

End ListComposition.

(** ** The stat-tree walks *)

Section StatWalks.

Local Abbreviation count s := (List.length (Stats.values s)).

Lemma StatSize_Aggregate n d r cs :
  Stats.StatSize (Stats.Aggregate n d r cs) = Stats.StatSize_children cs 0.
Proof. reflexivity. Qed.

Lemma DumpWalk_Aggregate n d r cs buf cur :
  Stats.DumpWalk (Stats.Aggregate n d r cs) buf cur =
  Stats.DumpWalk_children cs buf cur.
Proof. reflexivity. Qed.

Lemma StatSize_children_spec (cs : list Stats.Stat) :
  Forall (fun c => Stats.StatSize c =
                   if Stats.recognized c then Stats.Ok (Z.of_nat (count c))
                   else Stats.Err Stats.UnrecognizedStat) cs ->
  forall sz,
    0 <= sz ->
    sz + Z.of_nat (List.length (concat (List.map Stats.values cs))) < 2 ^ 64 ->
    Stats.StatSize_children cs sz =
    if forallb Stats.recognized cs
    then Stats.Ok (sz + Z.of_nat
                          (List.length (concat (List.map Stats.values cs))))
    else Stats.Err Stats.UnrecognizedStat.
Proof.
  induction 1 as [|c cs Hc _ IH]; intros sz Hsz Hfit;
    cbn [Stats.StatSize_children forallb List.map concat] in *.
  - cbn. now rewrite Z.add_0_r.
  - rewrite length_app, Nat2Z.inj_add in Hfit. rewrite Hc.
    destruct (Stats.recognized c); cbn [andb]; [|reflexivity].
    unfold wrap64. rewrite Z.mod_small by lia.
    rewrite IH by lia. destruct (forallb Stats.recognized cs);
      [|reflexivity].
    rewrite length_app, Nat2Z.inj_add. f_equal. lia.
Qed.

Lemma StatSize_outcome (s : Stats.Stat) :
  Z.of_nat (List.length (Stats.values s)) < 2 ^ 64 ->
  Stats.StatSize s =
  if Stats.recognized s
  then Stats.Ok (Z.of_nat (List.length (Stats.values s)))
  else Stats.Err Stats.UnrecognizedStat.
Proof.
  induction s as [n d r cs IH| | |] using Stats.Stat_tree_ind; intros Hfit;
    try reflexivity.
  rewrite StatSize_Aggregate.
  cbn [Stats.values Stats.recognized] in *.
  rewrite StatSize_children_spec; [reflexivity| |lia|lia].
  clear r n d. induction IH as [|c cs Hc _ IHcs]; constructor.
  - apply Hc. cbn [List.map concat] in Hfit. rewrite length_app in Hfit.
    lia.
  - apply IHcs. cbn [List.map concat] in Hfit. rewrite length_app in Hfit.
    lia.
Qed.

(** X12. [StatSize] counts the values of the tree, one per scalar and one
    per vector element, as long as there are fewer than 2^64 of them; on a
    tree with an unrecognized stat anywhere it panics. *)
Theorem StatSize_counts_values (s : Stats.Stat) :
  Z.of_nat (List.length (Stats.values s)) < 2 ^ 64 ->
  Stats.StatSize s =
  if Stats.recognized s
  then Stats.Ok (Z.of_nat (List.length (Stats.values s)))
  else Stats.Err Stats.UnrecognizedStat.
Proof. apply StatSize_outcome. Qed.

Lemma splice_then_splice (buf v1 v2 : list Z) (cur : nat) :
  (cur + List.length v1 + List.length v2 <= List.length buf)%nat ->
  let buf1 := firstn cur buf ++ v1 ++ skipn (cur + List.length v1) buf in
  firstn (cur + List.length v1) buf1 ++ v2 ++
    skipn (cur + List.length v1 + List.length v2) buf1 =
  firstn cur buf ++ (v1 ++ v2) ++
    skipn (cur + List.length (v1 ++ v2)) buf.
Proof.
  intros Hfit buf1. subst buf1.
  assert (Hlen : List.length (firstn cur buf ++ v1) =
                 (cur + List.length v1)%nat).
  { rewrite length_app, length_take. lia. }
  rewrite (app_assoc (firstn cur buf) v1).
  rewrite take_app_length' by (symmetry; exact Hlen).
  rewrite drop_app_add' by (symmetry; exact Hlen).
  rewrite drop_drop, length_app, <- !app_assoc, Nat.add_assoc.
  reflexivity.
Qed.

Lemma splice_length (buf vs : list Z) (cur : nat) :
  (cur + List.length vs <= List.length buf)%nat ->
  List.length (firstn cur buf ++ vs ++ skipn (cur + List.length vs) buf) =
  List.length buf.
Proof.
  intros Hfit. rewrite !length_app, length_take, length_drop. lia.
Qed.

Lemma store_one (buf : list Z) (cur : nat) (v : Z) :
  Stats.store buf cur v = Stats.store_all buf cur [v].
Proof.
  cbn [Stats.store_all].
  destruct (Stats.store buf cur v) as [[b c]|e]; reflexivity.
Qed.

Lemma store_all_spec (vs buf : list Z) (cur : nat) :
  (cur + List.length vs <= List.length buf)%nat ->
  Stats.store_all buf cur vs =
  Stats.Ok (firstn cur buf ++ vs ++ skipn (cur + List.length vs) buf,
            (cur + List.length vs)%nat).
Proof.
  revert buf cur. induction vs as [|v vs IH]; intros buf cur Hfit;
    cbn [Stats.store_all List.length app] in *.
  - rewrite Nat.add_0_r, take_drop. reflexivity.
  - unfold Stats.store.
    destruct (Nat.ltb_spec cur (List.length buf)) as [Hlt|Hge]; [|lia].
    rewrite IH by (rewrite length_insert; lia).
    rewrite insert_take_drop by exact Hlt.
    pose proof (splice_then_splice buf [v] vs cur) as Hs.
    cbn [List.length app] in Hs.
    replace (cur + 1)%nat with (Datatypes.S cur) in Hs by lia.
    rewrite Hs by lia.
    do 2 f_equal. lia.
Qed.

Lemma store_all_overrun (vs buf : list Z) (cur : nat) :
  (List.length buf < cur + List.length vs)%nat ->
  (cur <= List.length buf)%nat ->
  Stats.store_all buf cur vs = Stats.Err Stats.BufferOverrun.
Proof.
  revert buf cur. induction vs as [|v vs IH]; intros buf cur Hover Hin;
    cbn [Stats.store_all List.length] in *; [lia|].
  unfold Stats.store.
  destruct (Nat.ltb_spec cur (List.length buf)) as [Hlt|Hge];
    [|reflexivity].
  apply IH; rewrite length_insert; lia.
Qed.

Lemma DumpWalk_children_spec (cs : list Stats.Stat) :
  Forall (fun c => forall buf cur,
            Stats.recognized c = true ->
            (cur + count c <= List.length buf)%nat ->
            Stats.DumpWalk c buf cur =
            Stats.Ok (firstn cur buf ++ Stats.values c ++
                        skipn (cur + count c) buf,
                      (cur + count c)%nat)) cs ->
  forall buf cur,
    forallb Stats.recognized cs = true ->
    let vs := concat (List.map Stats.values cs) in
    (cur + List.length vs <= List.length buf)%nat ->
    Stats.DumpWalk_children cs buf cur =
    Stats.Ok (firstn cur buf ++ vs ++ skipn (cur + List.length vs) buf,
              (cur + List.length vs)%nat).
Proof.
  induction 1 as [|c cs Hc _ IH]; intros buf cur Hrec vs Hfit; subst vs;
    cbn [Stats.DumpWalk_children forallb List.map concat] in *.
  - cbn [List.length app]. rewrite Nat.add_0_r, take_drop. reflexivity.
  - apply andb_prop in Hrec as [Hrc Hrcs].
    rewrite length_app in Hfit.
    rewrite Hc by (assumption || lia).
    rewrite IH by (try assumption; rewrite splice_length; lia).
    rewrite splice_then_splice by lia.
    rewrite length_app. do 2 f_equal. lia.
Qed.

Lemma DumpWalk_spec (s : Stats.Stat) (buf : list Z) (cur : nat) :
  Stats.recognized s = true ->
  (cur + count s <= List.length buf)%nat ->
  Stats.DumpWalk s buf cur =
  Stats.Ok (firstn cur buf ++ Stats.values s ++ skipn (cur + count s) buf,
            (cur + count s)%nat).
Proof.
  revert buf cur.
  induction s as [n d r cs IH|n d v|n d vs names|n d]
    using Stats.Stat_tree_ind; intros buf cur Hrec Hfit.
  - rewrite DumpWalk_Aggregate. now apply DumpWalk_children_spec.
  - cbn [Stats.DumpWalk]. rewrite store_one.
    apply (store_all_spec [v]). exact Hfit.
  - now apply store_all_spec.
  - discriminate.
Qed.

(** X13. On a tree without unrecognized stats that fits between the pointer
    and the end of the buffer, [DumpWalk] writes the values of the tree, in
    order, from the pointer on, leaves every other cell as it was, and
    returns the pointer advanced by the number of values. *)
Theorem DumpWalk_writes_values (s : Stats.Stat) (buf : list Z) (cur : nat) :
  Stats.recognized s = true ->
  (cur + List.length (Stats.values s) <= List.length buf)%nat ->
  Stats.DumpWalk s buf cur =
  Stats.Ok (firstn cur buf ++ Stats.values s ++
              skipn (cur + List.length (Stats.values s)) buf,
            (cur + List.length (Stats.values s))%nat).
Proof. apply DumpWalk_spec. Qed.

Lemma DumpWalk_children_overrun (cs : list Stats.Stat) :
  Forall (fun c => forall buf cur,
            Stats.recognized c = true ->
            (cur <= List.length buf < cur + count c)%nat ->
            Stats.DumpWalk c buf cur = Stats.Err Stats.BufferOverrun) cs ->
  forall buf cur,
    forallb Stats.recognized cs = true ->
    (cur <= List.length buf <
     cur + List.length (concat (List.map Stats.values cs)))%nat ->
    Stats.DumpWalk_children cs buf cur = Stats.Err Stats.BufferOverrun.
Proof.
  induction 1 as [|c cs Hc _ IH]; intros buf cur Hrec Hover;
    cbn [Stats.DumpWalk_children forallb List.map concat List.length]
      in *; [lia|].
  apply andb_prop in Hrec as [Hrc Hrcs]. rewrite length_app in Hover.
  destruct (Nat.le_gt_cases (cur + count c) (List.length buf))
    as [Hfit|Hnofit].
  - rewrite DumpWalk_spec by assumption.
    apply IH; [assumption|]. rewrite splice_length by exact Hfit. lia.
  - rewrite Hc by (assumption || lia). reflexivity.
Qed.

(** X14. On a tree without unrecognized stats that does not fit between the
    pointer and the end of the buffer, [DumpWalk] runs past the end of the
    buffer. *)
Theorem DumpWalk_overruns_short_buffer
    (s : Stats.Stat) (buf : list Z) (cur : nat) :
  Stats.recognized s = true ->
  (cur <= List.length buf < cur + List.length (Stats.values s))%nat ->
  Stats.DumpWalk s buf cur = Stats.Err Stats.BufferOverrun.
Proof.
  revert buf cur.
  induction s as [n d r cs IH|n d v|n d vs names|n d]
    using Stats.Stat_tree_ind; intros buf cur Hrec Hover.
  - rewrite DumpWalk_Aggregate. now apply DumpWalk_children_overrun.
  - cbn [Stats.DumpWalk]. rewrite store_one.
    apply (store_all_overrun [v]); cbn [List.length Stats.values] in *; lia.
  - apply store_all_overrun; cbn [Stats.values] in *; lia.
  - discriminate.
Qed.

Lemma shape_count (s : Stats.Stat) : count (Stats.shape s) = count s.
Proof.
  induction s as [n d r cs IH|n d v|n d vs names|n d]
    using Stats.Stat_tree_ind; cbn [Stats.shape Stats.values];
    [|reflexivity|now rewrite repeat_length|reflexivity].
  induction IH as [|c cs Hc _ IH]; [reflexivity|].
  cbn [List.map concat]. rewrite !length_app. congruence.
Qed.

Lemma shape_recognized (s : Stats.Stat) :
  Stats.recognized (Stats.shape s) = Stats.recognized s.
Proof.
  induction s as [n d r cs IH|n d v|n d vs names|n d]
    using Stats.Stat_tree_ind; cbn [Stats.shape Stats.recognized];
    try reflexivity.
  induction IH as [|c cs Hc _ IH]; [reflexivity|].
  cbn [List.map forallb]. congruence.
Qed.

Section Increments.
Variable counter_inc : Z -> Z -> Z.

Lemma zip_with_app_drop (v1 v2 l : list Z) :
  (List.length v1 <= List.length l)%nat ->
  zip_with counter_inc (v1 ++ v2) l =
  zip_with counter_inc v1 l ++
  zip_with counter_inc v2 (skipn (List.length v1) l).
Proof.
  revert l. induction v1 as [|v v1 IH]; intros [|x l] Hlen;
    cbn [List.length] in Hlen; try lia; [reflexivity..|].
  cbn [app zip_with List.length skipn]. f_equal. apply IH. lia.
Qed.

Lemma inc_all_spec (vs buf : list Z) (cur : nat) :
  (cur + List.length vs <= List.length buf)%nat ->
  Stats.inc_all counter_inc buf cur vs =
  Stats.Ok (zip_with counter_inc vs (skipn cur buf),
            (cur + List.length vs)%nat).
Proof.
  revert cur. induction vs as [|v vs IH]; intros cur Hfit;
    cbn [Stats.inc_all List.length] in *.
  - rewrite Nat.add_0_r. reflexivity.
  - destruct (buf !! cur) as [delta|] eqn:Hd.
    + rewrite IH by lia. rewrite (drop_S _ _ _ Hd).
      cbn [zip_with]. do 2 f_equal. lia.
    + apply lookup_ge_None in Hd. lia.
Qed.

Lemma IncWalk_Aggregate n d r cs buf cur :
  Stats.IncWalk counter_inc (Stats.Aggregate n d r cs) buf cur =
  match Stats.IncWalk_children counter_inc cs buf cur with
  | Stats.Ok (cs', cur') => Stats.Ok (Stats.Aggregate n d r cs', cur')
  | Stats.Err e => Stats.Err e
  end.
Proof.
  cbn [Stats.IncWalk].
  match goal with
  | |- match ?loop cs cur with _ => _ end = _ =>
      assert (Hloop : forall cs cur,
                 loop cs cur = Stats.IncWalk_children counter_inc cs buf cur)
  end.
  { clear cs cur. induction cs as [|c cs IH]; intros cur; [reflexivity|].
    cbn [Stats.IncWalk_children].
    destruct (Stats.IncWalk counter_inc c buf cur) as [[c' cur']|e];
      [|reflexivity].
    now rewrite IH. }
  now rewrite Hloop.
Qed.

Lemma IncWalk_children_spec (cs : list Stats.Stat) (buf : list Z) :
  Forall (fun c => forall cur,
            Stats.recognized c = true ->
            (cur + count c <= List.length buf)%nat ->
            exists c',
              Stats.IncWalk counter_inc c buf cur =
                Stats.Ok (c', (cur + count c)%nat) /\
              Stats.shape c' = Stats.shape c /\
              Stats.values c' =
                zip_with counter_inc (Stats.values c) (skipn cur buf)) cs ->
  forall cur,
    forallb Stats.recognized cs = true ->
    let vs := concat (List.map Stats.values cs) in
    (cur + List.length vs <= List.length buf)%nat ->
    exists cs',
      Stats.IncWalk_children counter_inc cs buf cur =
        Stats.Ok (cs', (cur + List.length vs)%nat) /\
      List.map Stats.shape cs' = List.map Stats.shape cs /\
      concat (List.map Stats.values cs') =
        zip_with counter_inc vs (skipn cur buf).
Proof.
  induction 1 as [|c cs Hc _ IH]; intros cur Hrec vs Hfit; subst vs;
    cbn [Stats.IncWalk_children forallb List.map concat] in *.
  - exists []. cbn [List.length]. rewrite Nat.add_0_r. now repeat split.
  - apply andb_prop in Hrec as [Hrc Hrcs]. rewrite length_app in Hfit.
    destruct (Hc cur Hrc) as (c' & -> & Hshape & Hvals); [lia|].
    destruct (IH (cur + count c)%nat Hrcs) as (cs' & -> & Hshapes & Hvalss);
      [lia|].
    exists (c' :: cs'). cbn [List.map concat].
    rewrite length_app, Nat.add_assoc. split; [reflexivity|].
    split; [congruence|].
    rewrite zip_with_app_drop by (rewrite length_drop; lia).
    rewrite drop_drop. congruence.
Qed.

Lemma IncWalk_spec (s : Stats.Stat) (buf : list Z) (cur : nat) :
  Stats.recognized s = true ->
  (cur + count s <= List.length buf)%nat ->
  exists s',
    Stats.IncWalk counter_inc s buf cur =
      Stats.Ok (s', (cur + count s)%nat) /\
    Stats.shape s' = Stats.shape s /\
    Stats.values s' =
      zip_with counter_inc (Stats.values s) (skipn cur buf).
Proof.
  revert cur.
  induction s as [n d r cs IH|n d v|n d vs names|n d]
    using Stats.Stat_tree_ind; intros cur Hrec Hfit.
  - rewrite IncWalk_Aggregate.
    destruct (IncWalk_children_spec cs buf IH cur Hrec Hfit)
      as (cs' & -> & Hshapes & Hvals).
    exists (Stats.Aggregate n d r cs'). cbn [Stats.shape Stats.values].
    split; [reflexivity|]. split; [now rewrite Hshapes|exact Hvals].
  - cbn [Stats.IncWalk Stats.values List.length] in *.
    destruct (buf !! cur) as [delta|] eqn:Hd.
    + eexists. split; [rewrite Nat.add_1_r; reflexivity|].
      split; [reflexivity|]. now rewrite (drop_S _ _ _ Hd).
    + apply lookup_ge_None in Hd. lia.
  - cbn [Stats.IncWalk Stats.values] in *. rewrite inc_all_spec by exact Hfit.
    eexists. split; [reflexivity|]. split; [|reflexivity].
    cbn [Stats.shape]. rewrite length_zip_with, length_drop.
    do 2 f_equal. lia.
  - discriminate.
Qed.

(** X15. On a tree without unrecognized stats that fits between the pointer
    and the end of the buffer, [IncWalk] returns the pointer advanced by the
    number of values and changes only values: kinds, names, flags and sizes
    stay, and the i-th value of the tree, in the order [DumpWalk] writes
    them, is incremented by the i-th cell from the pointer on. *)
Theorem IncWalk_adds_buffer (s : Stats.Stat) (buf : list Z) (cur : nat) :
  Stats.recognized s = true ->
  (cur + List.length (Stats.values s) <= List.length buf)%nat ->
  exists s',
    Stats.IncWalk counter_inc s buf cur =
      Stats.Ok (s', (cur + List.length (Stats.values s))%nat) /\
    Stats.shape s' = Stats.shape s /\
    Stats.values s' =
      zip_with counter_inc (Stats.values s) (skipn cur buf).
Proof. apply IncWalk_spec. Qed.

(** X16. The two walks line up: dumping a tree [d] into a buffer of its
    size and walking a tree [s] of the same shape over that buffer
    increments each value of [s] by the value of [d] at the same place. *)
Theorem IncWalk_after_DumpWalk (d s : Stats.Stat) (buf : list Z) :
  Stats.recognized d = true ->
  Stats.shape s = Stats.shape d ->
  List.length buf = List.length (Stats.values d) ->
  exists buf' s',
    Stats.DumpWalk d buf 0 =
      Stats.Ok (buf', List.length (Stats.values d)) /\
    Stats.IncWalk counter_inc s buf' 0 =
      Stats.Ok (s', List.length (Stats.values d)) /\
    Stats.shape s' = Stats.shape d /\
    Stats.values s' =
      zip_with counter_inc (Stats.values s) (Stats.values d).
Proof.
  intros Hrec Hshape Hlen.
  assert (Hcount : count s = count d).
  { rewrite <- (shape_count s), Hshape. apply shape_count. }
  assert (Hrecs : Stats.recognized s = true).
  { rewrite <- (shape_recognized s), Hshape, shape_recognized.
    exact Hrec. }
  rewrite (DumpWalk_spec d buf 0 Hrec) by (cbn; lia).
  cbn [Nat.add firstn app]. rewrite <- Hlen, drop_all, app_nil_r.
  destruct (IncWalk_spec s (Stats.values d) 0%nat Hrecs)
    as (s' & Hinc & Hs' & Hvals); [cbn; lia|].
  exists (Stats.values d), s'. cbn [Nat.add skipn] in Hinc, Hvals.
  rewrite Hlen, <- Hcount. repeat split; try assumption. congruence.
Qed.

End Increments.

Lemma replStat_Aggregate n d r cs name desc :
  Stats.replStat (Stats.Aggregate n d r cs) name desc =
  match Stats.replStat_children cs with
  | Stats.Ok cs' =>
      Stats.Ok (Stats.Aggregate
                  (match name with Some x => x | None => n end)
                  (match desc with Some x => x | None => d end) r cs')
  | Stats.Err e => Stats.Err e
  end.
Proof. reflexivity. Qed.

Lemma StatSize_children_shape (cs : list Stats.Stat) :
  Forall (fun c => Stats.StatSize (Stats.shape c) = Stats.StatSize c) cs ->
  forall sz,
    Stats.StatSize_children (List.map Stats.shape cs) sz =
    Stats.StatSize_children cs sz.
Proof.
  induction 1 as [|c cs Hc _ IH]; intros sz; [reflexivity|].
  cbn [List.map Stats.StatSize_children]. rewrite Hc.
  destruct (Stats.StatSize c); [apply IH|reflexivity].
Qed.

Lemma StatSize_shape (s : Stats.Stat) :
  Stats.StatSize (Stats.shape s) = Stats.StatSize s.
Proof.
  induction s as [n d r cs IH|n d v|n d vs names|n d]
    using Stats.Stat_tree_ind; cbn [Stats.shape]; try reflexivity.
  - rewrite !StatSize_Aggregate. now apply StatSize_children_shape.
  - cbn [Stats.StatSize]. now rewrite repeat_length.
Qed.

Lemma values_shape (s : Stats.Stat) :
  Stats.values (Stats.shape s) = repeat 0 (count s).
Proof.
  induction s as [n d r cs IH|n d v|n d vs names|n d]
    using Stats.Stat_tree_ind; cbn [Stats.shape Stats.values];
    try reflexivity.
  induction IH as [|c cs Hc _ IH]; [reflexivity|].
  cbn [List.map concat]. rewrite length_app, repeat_app. congruence.
Qed.

Lemma replStat_children_copy (cs : list Stats.Stat) :
  Forall (fun c => Stats.recognized c = true ->
                   Stats.nameless c = true ->
                   Stats.replStat c None None = Stats.Ok (Stats.shape c)) cs ->
  forallb Stats.recognized cs = true ->
  forallb Stats.nameless cs = true ->
  Stats.replStat_children cs = Stats.Ok (List.map Stats.shape cs).
Proof.
  induction 1 as [|c cs Hc _ IH]; intros Hrec Hnl; [reflexivity|].
  cbn [forallb] in Hrec, Hnl.
  apply andb_prop in Hrec as [Hrc Hrcs]. apply andb_prop in Hnl as [Hnc Hncs].
  cbn [Stats.replStat_children List.map].
  now rewrite Hc, IH.
Qed.

Lemma replStat_copy (s : Stats.Stat) :
  Stats.recognized s = true ->
  Stats.nameless s = true ->
  Stats.replStat s None None = Stats.Ok (Stats.shape s).
Proof.
  induction s as [n d r cs IH|n d v|n d vs names|n d]
    using Stats.Stat_tree_ind; intros Hrec Hnl.
  - rewrite replStat_Aggregate, replStat_children_copy by assumption.
    reflexivity.
  - reflexivity.
  - cbn [Stats.nameless] in Hnl. destruct names; [discriminate|reflexivity].
  - discriminate.
Qed.

Lemma replStat_good
    (s : Stats.Stat) (name desc : option String.string) :
  Stats.recognized s = true ->
  Stats.nameless s = true ->
  exists s',
    Stats.replStat s name desc = Stats.Ok s' /\
    Stats.StatSize s' = Stats.StatSize s /\
    Stats.values s' = repeat 0 (List.length (Stats.values s)) /\
    Stats.name_of s' =
      match name with Some n => n | None => Stats.name_of s end /\
    Stats.desc_of s' =
      match desc with Some d => d | None => Stats.desc_of s end.
Proof.
  intros Hrec Hnl.
  destruct s as [n d r cs|n d v|n d vs names|n d].
  - rewrite replStat_Aggregate.
    rewrite replStat_children_copy; try assumption.
    + eexists. split; [reflexivity|]. repeat split.
      * rewrite <- (StatSize_shape (Stats.Aggregate n d r cs)). reflexivity.
      * rewrite <- (values_shape (Stats.Aggregate n d r cs)). reflexivity.
    + apply Forall_forall. intros c _. apply replStat_copy.
  - eexists. split; [reflexivity|]. now repeat split.
  - cbn [Stats.nameless] in Hnl. destruct names; [discriminate|].
    eexists. split; [reflexivity|]. repeat split.
    cbn [Stats.StatSize]. now rewrite repeat_length.
  - discriminate.
Qed.

(** X17. On a tree without unrecognized stats and without named vectors,
    [replStat] returns a tree of the same [StatSize] whose values are all
    zero; its root carries the given name and description, or those of the
    original where none is given. *)
Theorem replStat_zeroed_copy
    (s : Stats.Stat) (name desc : option String.string) :
  Stats.recognized s = true ->
  Stats.nameless s = true ->
  exists s',
    Stats.replStat s name desc = Stats.Ok s' /\
    Stats.StatSize s' = Stats.StatSize s /\
    Stats.values s' = repeat 0 (List.length (Stats.values s)) /\
    Stats.name_of s' =
      match name with Some n => n | None => Stats.name_of s end /\
    Stats.desc_of s' =
      match desc with Some d => d | None => Stats.desc_of s end.
Proof. apply replStat_good. Qed.

Lemma replStat_children_fail (cs : list Stats.Stat) :
  Forall (fun c => Stats.recognized c && Stats.nameless c = false ->
                   exists e, Stats.replStat c None None = Stats.Err e) cs ->
  forallb Stats.recognized cs && forallb Stats.nameless cs = false ->
  exists e, Stats.replStat_children cs = Stats.Err e.
Proof.
  induction 1 as [|c cs Hc _ IH]; intros Hbad; [discriminate|].
  cbn [forallb Stats.replStat_children] in *.
  destruct (Stats.recognized c && Stats.nameless c) eqn:Hgood.
  - apply andb_prop in Hgood as [Hrc Hnc]. rewrite Hrc, Hnc in Hbad.
    destruct (IH Hbad) as [e ->].
    destruct (Stats.replStat c None None); eauto.
  - destruct (Hc eq_refl) as [e ->]. eauto.
Qed.

Lemma replStat_bad
    (s : Stats.Stat) (name desc : option String.string) :
  Stats.recognized s && Stats.nameless s = false ->
  Stats.replStat s name desc = Stats.Err Stats.UnrecognizedStat \/
  Stats.replStat s name desc = Stats.Err Stats.CounterNames.
Proof.
  assert (Herr : forall s name desc e,
             Stats.replStat s name desc = Stats.Err e ->
             e = Stats.UnrecognizedStat \/ e = Stats.CounterNames).
  { clear. intros s.
    induction s as [n d r cs IH|n d v|n d vs names|n d]
      using Stats.Stat_tree_ind; intros name desc e.
    - rewrite replStat_Aggregate.
      assert (Hcs : forall e, Stats.replStat_children cs = Stats.Err e ->
                 e = Stats.UnrecognizedStat \/ e = Stats.CounterNames).
      { clear e. induction IH as [|c cs Hc _ IHcs]; intros e;
          [discriminate|].
        cbn [Stats.replStat_children].
        destruct (Stats.replStat c None None) eqn:Hrc.
        - destruct (Stats.replStat_children cs); [discriminate|].
          intros [= <-]. now apply IHcs.
        - intros [= <-]. now apply (Hc None None). }
      destruct (Stats.replStat_children cs); [discriminate|].
      intros [= <-]. now apply Hcs.
    - discriminate.
    - cbn [Stats.replStat]. destruct names; [|discriminate].
      intros [= <-]. now right.
    - intros [= <-]. now left. }
  assert (Hfail : forall s name desc,
             Stats.recognized s && Stats.nameless s = false ->
             exists e, Stats.replStat s name desc = Stats.Err e).
  { clear. intros s.
    induction s as [n d r cs IH|n d v|n d vs names|n d]
      using Stats.Stat_tree_ind; intros name desc Hbad.
    - rewrite replStat_Aggregate.
      destruct (replStat_children_fail cs) as [e ->]; eauto.
      eapply Forall_impl; [exact IH|]. cbn. intros c Hc. apply Hc.
    - discriminate.
    - cbn [Stats.recognized Stats.nameless andb] in Hbad.
      destruct names; [|discriminate]. cbn. eauto.
    - cbn. eauto. }
  intros Hbad. destruct (Hfail s name desc Hbad) as [e He].
  rewrite He. destruct (Herr _ _ _ _ He) as [-> | ->]; auto.
Qed.

(** X18. On a tree with an unrecognized stat or a vector with counter names
    anywhere, [replStat] does not return: it panics or fails its
    assertion. *)
Theorem replStat_rejects
    (s : Stats.Stat) (name desc : option String.string) :
  Stats.recognized s && Stats.nameless s = false ->
  Stats.replStat s name desc = Stats.Err Stats.UnrecognizedStat \/
  Stats.replStat s name desc = Stats.Err Stats.CounterNames.
Proof. apply replStat_bad. Qed.

End StatWalks.

(** ** More on the access routines *)

(** X19. The flagged [access] always returns, and hands exactly one request
    to [processAccess]: its own nested request when the lookup missed and
    [pageWalk] is set, the caller's request otherwise.  The cycle that call
    returns is the completion cycle. *)
Theorem flagged_access_one_processAccess {A C : Type}
    `{!CacheArray.T A} `{!CC.T C}
    (tlb : TLB) (req : MemReq.t) (w : World A C) :
  exists r req' w' o preq lineId startCycle,
    Flagged.access tlb req w = Done (r, req') w' /\
    calls is_processAccess (trace (Flagged.access tlb req) w) =
      [EvProcessAccess o preq lineId startCycle r] /\
    o = (if (fst (CacheArray.lookup (w_array w) (MemReq.pageNum req)
                    None false) =? -1) && pageWalk tlb
         then NestedReq else CallerReq).
Proof.
  flagged_cases tlb req w; rewrite Htrace, Hrun; cbn [fst];
    do 7 eexists; (split; [reflexivity|]); (split; [reflexivity|]).
  - subst l. reflexivity.
  - subst l. reflexivity.
  - destruct (Z.eqb_spec l (-1)); [contradiction|reflexivity].
Qed.

(** X20. In the unflagged revision a hit is local to the level: the access
    returns the issuing cycle plus [accLat] (mod 2^64), calls nothing but
    [lookup], and leaves the controller as it was. *)
Theorem unflagged_hit_is_local {A C : Type} `{!CacheArray.T A} `{!CC.T C}
    (tlb : TLB) (req : TLBReq.t) (w : World A C) :
  fst (CacheArray.lookup (w_array w) (TLBReq.pageNum req) None false)
    <> -1 ->
  exists w',
    Unflagged.access tlb req w =
      Done (wrap64 (TLBReq.cycle req + accLat tlb)) w' /\
    w_cc w' = w_cc w /\
    trace (Unflagged.access tlb req) w =
      [EvLookup (TLBReq.pageNum req)
         (fst (CacheArray.lookup (w_array w) (TLBReq.pageNum req)
                 None false))].
Proof.
  intros Hhit.
  unflagged_cases tlb req w; cbn [fst] in *; try contradiction.
  rewrite Htrace, Hrun. eexists. repeat split.
Qed.

Lemma unflagged_hit_is_local_witness :
  exists w',
    Unflagged.access (scenario_tlb true) (TLBReq.mk 7 100 0) inv_world =
      Done 102 w' /\
    w_cc w' = w_cc inv_world /\
    trace (Unflagged.access (scenario_tlb true) (TLBReq.mk 7 100 0))
      inv_world = [EvLookup 7 0].
Proof.
  assert (Hhit : fst (CacheArray.lookup (w_array inv_world) 7 None false)
                 <> -1) by (vm_compute; discriminate).
  exact (unflagged_hit_is_local (scenario_tlb true) (TLBReq.mk 7 100 0)
           inv_world Hhit).
Defined.

Lemma lor_disjoint_inj (m p1 p2 : Z) :
  Z.land m p1 = 0 -> Z.land m p2 = 0 -> Z.lor m p1 = Z.lor m p2 -> p1 = p2.
Proof.
  intros H1 H2 Heq. apply Z.bits_inj'. intros i Hi.
  pose proof (f_equal (fun x => Z.testbit x i) Heq) as Hb.
  pose proof (f_equal (fun x => Z.testbit x i) H1) as Hb1.
  pose proof (f_equal (fun x => Z.testbit x i) H2) as Hb2.
  cbn beta in Hb, Hb1, Hb2.
  rewrite !Z.lor_spec in Hb.
  rewrite Z.land_spec, Z.bits_0 in Hb1, Hb2.
  destruct (Z.testbit m i), (Z.testbit p1 i), (Z.testbit p2 i);
    cbn in *; congruence.
Qed.

(** X21. Under a process mask that shares no bit with the page numbers, two
    virtual addresses get the same array key exactly when they lie in the
    same page. *)
Theorem translate_key_separates_pages (tlb : TLB) (vAddr1 vAddr2 : Address) :
  Z.land (procMask tlb) (Z.shiftr vAddr1 (pageBits tlb)) = 0 ->
  Z.land (procMask tlb) (Z.shiftr vAddr2 (pageBits tlb)) = 0 ->
  translate_key tlb vAddr1 = translate_key tlb vAddr2 <->
  Z.shiftr vAddr1 (pageBits tlb) = Z.shiftr vAddr2 (pageBits tlb).
Proof.
  intros H1 H2. unfold translate_key. split.
  - now apply lor_disjoint_inj.
  - now intros ->.
Qed.

Lemma translate_key_separates_pages_witness :
  translate_key (masked_tlb (2 ^ 60)) 4096 =
  translate_key (masked_tlb (2 ^ 60)) 8191 <->
  Z.shiftr 4096 12 = Z.shiftr 8191 12.
Proof.
  exact (translate_key_separates_pages (masked_tlb (2 ^ 60)) 4096 8191
           eq_refl eq_refl).
Defined.

(** ** [ProcStats::update] *)

Section UpdateFacts.

Local Abbreviation count s := (List.length (Stats.values s)).
Local Abbreviation sumZ vs := (fold_right Z.add 0 vs).

Lemma sumZ_app (l1 l2 : list Z) : sumZ (l1 ++ l2) = sumZ l1 + sumZ l2.
Proof. induction l1 as [|x l1 IH]; cbn [app fold_right]; lia. Qed.

Lemma wrap64_eq_add (a a' b b' : Z) :
  wrap64 a = wrap64 a' -> wrap64 b = wrap64 b' ->
  wrap64 (a + b) = wrap64 (a' + b').
Proof.
  unfold wrap64. intros Ha Hb.
  rewrite (Z.add_mod a b), (Z.add_mod a' b') by lia. now rewrite Ha, Hb.
Qed.

Lemma wrap64_eq_sub (a a' b b' : Z) :
  wrap64 a = wrap64 a' -> wrap64 b = wrap64 b' ->
  wrap64 (a - b) = wrap64 (a' - b').
Proof.
  unfold wrap64. intros Ha Hb.
  rewrite (Zminus_mod a b), (Zminus_mod a' b'). now rewrite Ha, Hb.
Qed.

Lemma wrap64_idem (a : Z) : wrap64 (wrap64 a) = wrap64 a.
Proof. unfold wrap64. apply Z.mod_mod. lia. Qed.

(** Success of [DumpWalk], read backwards. *)
Lemma store_all_inv (vs buf buf' : list Z) (cur cur' : nat) :
  Stats.store_all buf cur vs = Stats.Ok (buf', cur') ->
  cur' = (cur + List.length vs)%nat /\
  buf' = firstn cur buf ++ vs ++ skipn (cur + List.length vs) buf /\
  (vs = [] \/ (cur + List.length vs <= List.length buf)%nat).
Proof.
  destruct vs as [|v vs].
  - cbn. intros [= <- <-]. rewrite Nat.add_0_r, take_drop. auto.
  - intros Hrun.
    destruct (Nat.le_gt_cases (cur + List.length (v :: vs))
                (List.length buf)) as [Hfit|Hover].
    + rewrite store_all_spec in Hrun by exact Hfit.
      injection Hrun as <- <-. auto.
    + destruct (Nat.le_gt_cases cur (List.length buf)) as [Hin|Hout].
      * rewrite store_all_overrun in Hrun by lia. discriminate.
      * cbn [Stats.store_all] in Hrun. unfold Stats.store in Hrun.
        destruct (Nat.ltb_spec cur (List.length buf)); [lia|discriminate].
Qed.

Lemma DumpWalk_children_inv (cs : list Stats.Stat) :
  Forall (fun c => forall buf cur buf' cur',
            Stats.DumpWalk c buf cur = Stats.Ok (buf', cur') ->
            cur' = (cur + count c)%nat /\
            buf' = firstn cur buf ++ Stats.values c ++
                     skipn (cur + count c) buf /\
            (Stats.values c = [] \/
             (cur + count c <= List.length buf)%nat)) cs ->
  forall buf cur buf' cur',
    Stats.DumpWalk_children cs buf cur = Stats.Ok (buf', cur') ->
    let vs := concat (List.map Stats.values cs) in
    cur' = (cur + List.length vs)%nat /\
    buf' = firstn cur buf ++ vs ++ skipn (cur + List.length vs) buf /\
    (vs = [] \/ (cur + List.length vs <= List.length buf)%nat).
Proof.
  induction 1 as [|c cs Hc _ IH]; intros buf cur buf' cur' Hrun vs; subst vs;
    cbn [Stats.DumpWalk_children List.map concat] in *.
  - injection Hrun as <- <-. cbn. rewrite Nat.add_0_r, take_drop. auto.
  - destruct (Stats.DumpWalk c buf cur) as [[buf1 cur1]|e] eqn:Hd;
      [|discriminate].
    destruct (Hc _ _ _ _ Hd) as (-> & -> & Hfit1).
    destruct (IH _ _ _ _ Hrun) as (-> & -> & Hfit2).
    set (v1 := Stats.values c) in *.
    set (v2 := concat (List.map Stats.values cs)) in *.
    destruct Hfit1 as [Hnil|Hfit1].
    + rewrite Hnil in *. cbn [app List.length] in *.
      rewrite Nat.add_0_r, take_drop in *. auto.
    + rewrite splice_length in Hfit2 by exact Hfit1.
      destruct Hfit2 as [Hnil|Hfit2].
      * rewrite Hnil. cbn [List.length]. rewrite app_nil_r, Nat.add_0_r.
        split; [reflexivity|]. split; [|now right].
        pose proof (splice_then_splice buf v1 [] cur) as Hs.
        cbn [List.length] in Hs. rewrite Nat.add_0_r, app_nil_r in Hs.
        apply Hs. exact Hfit1.
      * rewrite length_app, Nat.add_assoc. split; [reflexivity|].
        split; [|right; lia].
        pose proof (splice_then_splice buf v1 v2 cur) as Hs.
        rewrite length_app, Nat.add_assoc in Hs. apply Hs. lia.
Qed.

Lemma DumpWalk_inv (s : Stats.Stat) (buf buf' : list Z) (cur cur' : nat) :
  Stats.DumpWalk s buf cur = Stats.Ok (buf', cur') ->
  cur' = (cur + count s)%nat /\
  buf' = firstn cur buf ++ Stats.values s ++ skipn (cur + count s) buf /\
  (Stats.values s = [] \/ (cur + count s <= List.length buf)%nat).
Proof.
  revert buf buf' cur cur'.
  induction s as [n d r cs IH|n d v|n d vs names|n d]
    using Stats.Stat_tree_ind; intros buf buf' cur cur' Hrun.
  - rewrite DumpWalk_Aggregate in Hrun.
    eapply DumpWalk_children_inv; [|exact Hrun].
    eapply Forall_impl; [exact IH|]. cbn. intros c Hc b cu b' cu'.
    apply Hc.
  - cbn [Stats.DumpWalk] in Hrun. rewrite store_one in Hrun.
    now apply (store_all_inv [v]).
  - now apply store_all_inv.
  - discriminate.
Qed.

Section Accounting.
Variable counter_inc : Z -> Z -> Z.

(** Success of [IncWalk], read backwards. *)
Lemma inc_all_inv (vs buf vs' : list Z) (cur cur' : nat) :
  Stats.inc_all counter_inc buf cur vs = Stats.Ok (vs', cur') ->
  cur' = (cur + List.length vs)%nat /\
  vs' = zip_with counter_inc vs (skipn cur buf) /\
  (List.length vs <= List.length (skipn cur buf))%nat.
Proof.
  revert cur vs' cur'. induction vs as [|v vs IH]; intros cur vs' cur' Hrun;
    cbn [Stats.inc_all List.length] in *.
  - injection Hrun as <- <-. rewrite Nat.add_0_r. repeat split. lia.
  - destruct (buf !! cur) as [delta|] eqn:Hd; [|discriminate].
    destruct (Stats.inc_all counter_inc buf (Datatypes.S cur) vs)
      as [[vs1 cur1]|e] eqn:Hrest; [|discriminate].
    injection Hrun as <- <-.
    destruct (IH _ _ _ Hrest) as (-> & -> & Hlen).
    rewrite (drop_S _ _ _ Hd). cbn [zip_with List.length].
    repeat split; lia.
Qed.

Lemma IncWalk_children_inv (cs : list Stats.Stat) (buf : list Z) :
  Forall (fun c => forall cur c' cur',
            Stats.IncWalk counter_inc c buf cur = Stats.Ok (c', cur') ->
            cur' = (cur + count c)%nat /\
            Stats.shape c' = Stats.shape c /\
            Stats.values c' =
              zip_with counter_inc (Stats.values c) (skipn cur buf) /\
            (count c <= List.length (skipn cur buf))%nat) cs ->
  forall cur cs' cur',
    Stats.IncWalk_children counter_inc cs buf cur = Stats.Ok (cs', cur') ->
    let vs := concat (List.map Stats.values cs) in
    cur' = (cur + List.length vs)%nat /\
    List.map Stats.shape cs' = List.map Stats.shape cs /\
    concat (List.map Stats.values cs') =
      zip_with counter_inc vs (skipn cur buf) /\
    (List.length vs <= List.length (skipn cur buf))%nat.
Proof.
  induction 1 as [|c cs Hc _ IH]; intros cur cs' cur' Hrun vs; subst vs;
    cbn [Stats.IncWalk_children List.map concat] in *.
  - injection Hrun as <- <-. cbn [List.length]. rewrite Nat.add_0_r.
    repeat split. lia.
  - destruct (Stats.IncWalk counter_inc c buf cur) as [[c1 cur1]|e] eqn:Hw;
      [|discriminate].
    destruct (Stats.IncWalk_children counter_inc cs buf cur1)
      as [[cs1 cur2]|e] eqn:Hrest; [|discriminate].
    injection Hrun as <- <-.
    destruct (Hc _ _ _ Hw) as (-> & Hshape & Hvals & Hlen).
    destruct (IH _ _ _ Hrest) as (-> & Hshapes & Hvalss & Hlens).
    cbn [List.map concat]. rewrite length_app, Nat.add_assoc.
    split; [reflexivity|]. split; [congruence|].
    rewrite length_drop in *.
    split; [|lia].
    rewrite zip_with_app_drop by (rewrite length_drop; lia).
    rewrite drop_drop. congruence.
Qed.

Lemma IncWalk_inv (s s' : Stats.Stat) (buf : list Z) (cur cur' : nat) :
  Stats.IncWalk counter_inc s buf cur = Stats.Ok (s', cur') ->
  cur' = (cur + count s)%nat /\
  Stats.shape s' = Stats.shape s /\
  Stats.values s' = zip_with counter_inc (Stats.values s) (skipn cur buf) /\
  (count s <= List.length (skipn cur buf))%nat.
Proof.
  revert s' cur cur'.
  induction s as [n d r cs IH|n d v|n d vs names|n d]
    using Stats.Stat_tree_ind; intros s' cur cur' Hrun.
  - rewrite IncWalk_Aggregate in Hrun.
    destruct (Stats.IncWalk_children counter_inc cs buf cur)
      as [[cs1 cur1]|e] eqn:Hw; [|discriminate].
    injection Hrun as <- <-.
    assert (IH' : Forall (fun c => forall cur c' cur',
              Stats.IncWalk counter_inc c buf cur = Stats.Ok (c', cur') ->
              cur' = (cur + count c)%nat /\
              Stats.shape c' = Stats.shape c /\
              Stats.values c' =
                zip_with counter_inc (Stats.values c) (skipn cur buf) /\
              (count c <= List.length (skipn cur buf))%nat) cs).
    { eapply Forall_impl; [exact IH|]. cbn. intros c Hc cu c' cu'.
      apply Hc. }
    destruct (IncWalk_children_inv cs buf IH' _ _ _ Hw)
      as (-> & Hshapes & Hvals & Hlen).
    cbn [Stats.shape Stats.values]. rewrite Hshapes. auto.
  - cbn [Stats.IncWalk Stats.values List.length] in *.
    destruct (buf !! cur) as [delta|] eqn:Hd; [|discriminate].
    injection Hrun as <- <-. rewrite (drop_S _ _ _ Hd).
    cbn [Stats.shape Stats.values zip_with List.length].
    repeat split; lia.
  - cbn [Stats.IncWalk Stats.values] in *.
    destruct (Stats.inc_all counter_inc buf cur vs) as [[vs1 cur1]|e] eqn:Hw;
      [|discriminate].
    injection Hrun as <- <-.
    destruct (inc_all_inv _ _ _ _ _ Hw) as (-> & -> & Hlen).
    cbn [Stats.shape Stats.values]. rewrite length_zip_with.
    repeat split; try assumption. do 2 f_equal. lia.
  - discriminate.
Qed.

Hypothesis counter_inc_adds : forall v delta,
  counter_inc v delta = wrap64 (v + delta).

Lemma sumZ_zip_with_inc (vs ds : list Z) :
  (List.length vs <= List.length ds)%nat ->
  wrap64 (sumZ (zip_with counter_inc vs ds)) =
  wrap64 (sumZ vs + sumZ (firstn (List.length vs) ds)).
Proof.
  revert ds. induction vs as [|v vs IH]; intros [|d ds] Hlen;
    cbn [List.length] in Hlen; try lia; [reflexivity..|].
  cbn [zip_with fold_right List.length firstn].
  rewrite counter_inc_adds.
  transitivity (wrap64 ((v + d) + (sumZ vs + sumZ (firstn (List.length vs) ds)))).
  - apply wrap64_eq_add; [apply wrap64_idem|apply IH; lia].
  - f_equal. lia.
Qed.

Lemma StatSize_Ok_count (s : Stats.Stat) (n : Z) :
  Stats.StatSize s = Stats.Ok n ->
  Z.of_nat (count s) < 2 ^ 64 ->
  n = Z.of_nat (count s).
Proof.
  intros Hsize Hfit. rewrite StatSize_outcome in Hsize by exact Hfit.
  destruct (Stats.recognized s); [|discriminate]. now injection Hsize.
Qed.

Lemma sumZ_replace_child (l : list Stats.Stat) (k : nat) (x y : Stats.Stat) :
  l !! k = Some x ->
  sumZ (concat (List.map Stats.values (<[k := y]> l))) =
  sumZ (concat (List.map Stats.values l))
  - sumZ (Stats.values x) + sumZ (Stats.values y).
Proof.
  intros Hk. pose proof (lookup_lt_Some _ _ _ Hk) as Hlt.
  rewrite insert_take_drop by exact Hlt.
  rewrite <- (take_drop_middle l k x Hk) at 3.
  rewrite !List.map_app, !concat_app, !sumZ_app.
  cbn [List.map concat]. rewrite !sumZ_app. lia.
Qed.

Lemma account_spec (i c : Z) (s : Stats.Stat)
    (zinfo : ProcStats.GlobSimInfo)
    (P P' : ProcStats.AggregateStat) (buf : list Z) (start start' : Z) :
  ProcStats.account counter_inc zinfo i c s P buf start
    = ProcStats.Done (P', start') ->
  0 <= start < 2 ^ 64 ->
  Z.of_nat (List.length buf) < 2 ^ 64 ->
  Z.of_nat (count s) < 2 ^ 64 ->
  start' = start + Z.of_nat (count s) /\
  (count s <= List.length (skipn (Z.to_nat start) buf))%nat /\
  wrap64 (sumZ (Stats.values (ProcStats.upcast P'))) =
  wrap64 (sumZ (Stats.values (ProcStats.upcast P))
          + sumZ (firstn (count s) (skipn (Z.to_nat start) buf))).
Proof.
  unfold ProcStats.account. intros Hrun Hstart Hbuf Hcount.
  destruct s as [n d r cores| | |]; cbn [ProcStats.as_aggregate] in Hrun;
    try discriminate.
  unfold ProcStats.get in Hrun.
  destruct (ProcStats.children P !! _) as [g|] eqn:Hg; [|discriminate].
  destruct g as [gn gd gr gcs| | |]; cbn [ProcStats.as_aggregate] in Hrun;
    try discriminate.
  cbn [ProcStats.children] in Hrun.
  destruct (gcs !! Z.to_nat i) as [ps|] eqn:Hps; [|discriminate].
  change (ProcStats.upcast (ProcStats.mkAggregate n d r cores))
    with (Stats.Aggregate n d r cores) in Hrun.
  set (s := Stats.Aggregate n d r cores) in *.
  destruct (Stats.StatSize s) as [size|e] eqn:Hsize; [|discriminate].
  destruct (Stats.StatSize ps) as [psize|e] eqn:Hpsize; [|discriminate].
  destruct (Z.eqb_spec size psize) as [<-|]; [|discriminate].
  destruct (Stats.IncWalk counter_inc ps buf (Z.to_nat start))
    as [[ps' cur']|e] eqn:Hwalk; [|discriminate].
  injection Hrun as <- <-.
  destruct (IncWalk_inv _ _ _ _ _ Hwalk) as (_ & _ & Hvals & Hlen).
  pose proof (StatSize_Ok_count _ _ Hsize Hcount) as ->.
  assert (Hpcount : Z.of_nat (count ps) < 2 ^ 64)
    by (rewrite length_drop in Hlen; lia).
  pose proof (StatSize_Ok_count _ _ Hpsize Hpcount) as Heq.
  apply Nat2Z.inj in Heq.
  rewrite wrap64_small by (rewrite Heq, length_drop in *; lia).
  split; [reflexivity|]. rewrite Heq. split; [exact Hlen|].
  unfold ProcStats.set, ProcStats.upcast.
  cbn [ProcStats.children ProcStats.name ProcStats.desc ProcStats.isRegular
       Stats.values].
  rewrite (sumZ_replace_child _ _ _ _ Hg). cbn [Stats.values].
  rewrite (sumZ_replace_child _ _ _ _ Hps).
  rewrite Hvals.
  match goal with
  | |- wrap64 (?p - ?g + (?g - ?x + ?y)) = _ =>
      replace (p - g + (g - x + y)) with ((p - x) + y) by lia
  end.
  rewrite (wrap64_eq_add _ _ _ _ eq_refl (sumZ_zip_with_inc _ _ Hlen)).
  f_equal. lia.
Qed.

Lemma segment_app (buf : list Z) (start n1 n2 : nat) :
  firstn (n1 + n2) (skipn start buf) =
  firstn n1 (skipn start buf) ++ firstn n2 (skipn (start + n1) buf).
Proof. rewrite <- drop_drop. symmetry. apply take_take_drop. Qed.

Lemma cores_loop_spec (zinfo : ProcStats.GlobSimInfo) (i : Z)
    (cores : list Stats.Stat) (buf : list Z) :
  Z.of_nat (List.length buf) < 2 ^ 64 ->
  forall (c : Z) (P P' : ProcStats.AggregateStat) (start start' : Z),
    ProcStats.cores_loop counter_inc zinfo i cores c P buf start
      = ProcStats.Done (P', start') ->
    0 <= start < 2 ^ 64 ->
    let n := List.length (concat (List.map Stats.values cores)) in
    Z.of_nat n < 2 ^ 64 ->
    start' = start + Z.of_nat n /\
    (n <= List.length (skipn (Z.to_nat start) buf))%nat /\
    wrap64 (sumZ (Stats.values (ProcStats.upcast P'))) =
    wrap64 (sumZ (Stats.values (ProcStats.upcast P))
            + sumZ (firstn n (skipn (Z.to_nat start) buf))).
Proof.
  intros Hbuf. induction cores as [|s cores IH];
    intros c P P' start start' Hrun Hstart n Hn; subst n;
    cbn [ProcStats.cores_loop List.map concat] in *.
  - injection Hrun as <- <-. cbn [List.length firstn fold_right].
    rewrite !Z.add_0_r. repeat split. lia.
  - destruct (ProcStats.account counter_inc zinfo i c s P buf start)
      as [[P1 start1]|f] eqn:Hacc; [|discriminate].
    rewrite length_app, Nat2Z.inj_add in Hn.
    destruct (account_spec _ _ _ _ _ _ _ _ _ Hacc Hstart Hbuf)
      as (-> & Hlen1 & Hsum1); [lia|].
    rewrite length_drop in Hlen1.
    assert (Hstart1 : 0 <= start + Z.of_nat (count s) < 2 ^ 64) by lia.
    destruct (IH _ _ _ _ _ Hrun Hstart1) as (-> & Hlen2 & Hsum2); [lia|].
    rewrite Z2Nat.inj_add, Nat2Z.id in Hlen2, Hsum2 by lia.
    rewrite length_drop in Hlen2.
    rewrite length_app, Nat2Z.inj_add, length_drop.
    split; [lia|]. split; [lia|].
    rewrite segment_app, sumZ_app, Hsum2.
    rewrite Z.add_assoc. apply wrap64_eq_add; [exact Hsum1|reflexivity].
Qed.

Lemma stats_loop_spec (zinfo : ProcStats.GlobSimInfo)
    (stats : list Stats.Stat) (buf : list Z) :
  Z.of_nat (List.length buf) < 2 ^ 64 ->
  forall (i : Z) (P P' : ProcStats.AggregateStat) (start start' : Z),
    ProcStats.stats_loop counter_inc zinfo stats i P buf start
      = ProcStats.Done (P', start') ->
    0 <= start < 2 ^ 64 ->
    let n := List.length (concat (List.map Stats.values stats)) in
    Z.of_nat n < 2 ^ 64 ->
    start' = start + Z.of_nat n /\
    (n <= List.length (skipn (Z.to_nat start) buf))%nat /\
    wrap64 (sumZ (Stats.values (ProcStats.upcast P'))) =
    wrap64 (sumZ (Stats.values (ProcStats.upcast P))
            + sumZ (firstn n (skipn (Z.to_nat start) buf))).
Proof.
  intros Hbuf. induction stats as [|s stats IH];
    intros i P P' start start' Hrun Hstart n Hn; subst n;
    cbn [ProcStats.stats_loop List.map concat] in *.
  - injection Hrun as <- <-. cbn [List.length firstn fold_right].
    rewrite !Z.add_0_r. repeat split. lia.
  - destruct s as [sn sd sr cores| | |]; cbn [ProcStats.as_aggregate] in Hrun;
      try discriminate.
    cbn [ProcStats.children Stats.values] in *.
    destruct (ProcStats.cores_loop counter_inc zinfo i cores 0 P buf start)
      as [[P1 start1]|f] eqn:Hcores; [|discriminate].
    rewrite length_app, Nat2Z.inj_add in Hn.
    destruct (cores_loop_spec _ _ _ _ Hbuf _ _ _ _ _ Hcores Hstart)
      as (-> & Hlen1 & Hsum1); [lia|].
    rewrite length_drop in Hlen1.
    set (n1 := List.length (concat (List.map Stats.values cores))) in *.
    assert (Hstart1 : 0 <= start + Z.of_nat n1 < 2 ^ 64) by lia.
    destruct (IH _ _ _ _ _ Hrun Hstart1) as (-> & Hlen2 & Hsum2); [lia|].
    rewrite Z2Nat.inj_add, Nat2Z.id in Hlen2, Hsum2 by lia.
    rewrite length_drop in Hlen2.
    rewrite length_app, Nat2Z.inj_add, length_drop.
    split; [lia|]. split; [lia|].
    rewrite segment_app, sumZ_app, Hsum2.
    rewrite Z.add_assoc. apply wrap64_eq_add; [exact Hsum1|reflexivity].
Qed.

End Accounting.

Lemma diff_loop_spec (n : nat) (buf : list Z) :
  forall (i : nat) (lastBuf lastBuf' : list Z),
    ProcStats.diff_loop n i buf lastBuf = ProcStats.Done lastBuf' ->
    List.length lastBuf' = List.length lastBuf /\
    firstn i lastBuf' = firstn i lastBuf /\
    (n = 0%nat \/
     (i + n <= List.length buf)%nat /\ (i + n <= List.length lastBuf)%nat) /\
    wrap64 (sumZ (firstn n (skipn i lastBuf'))) =
    wrap64 (sumZ (firstn n (skipn i buf))
            - sumZ (firstn n (skipn i lastBuf))).
Proof.
  induction n as [|n IH]; intros i lastBuf lastBuf' Hrun;
    cbn [ProcStats.diff_loop] in Hrun.
  - injection Hrun as <-. repeat split. now left.
  - destruct (buf !! i) as [b|] eqn:Hb; [|discriminate].
    destruct (lastBuf !! i) as [l|] eqn:Hl; [|discriminate].
    destruct (IH _ _ _ Hrun) as (Hlen & Htake & Hfit & Hsum).
    rewrite length_insert in Hlen, Hfit.
    pose proof (lookup_lt_Some _ _ _ Hb) as Hbi.
    pose proof (lookup_lt_Some _ _ _ Hl) as Hli.
    assert (Hl' : lastBuf' !! i = Some (wrap64 (b - l))).
    { pose proof (f_equal (fun t => t !! i) Htake) as Hi. cbn beta in Hi.
      rewrite !lookup_take_lt in Hi by lia.
      rewrite Hi. apply list_lookup_insert_eq. exact Hli. }
    split; [exact Hlen|]. split.
    { pose proof (f_equal (firstn i) Htake) as Hi.
      rewrite !take_take in Hi.
      replace (Nat.min i (Datatypes.S i)) with i in Hi by lia.
      rewrite Hi. apply take_insert_ge. lia. }
    split; [right; lia|].
    rewrite (drop_S _ _ _ Hl'), (drop_S _ _ _ Hb), (drop_S _ _ _ Hl).
    cbn [firstn fold_right].
    rewrite drop_insert_lt in Hsum by lia.
    match goal with
    | |- wrap64 (?w + ?x) = wrap64 (?b + ?y - (?l + ?z)) =>
        replace (b + y - (l + z)) with ((b - l) + (y - z)) by lia
    end.
    apply wrap64_eq_add; [apply wrap64_idem|exact Hsum].
Qed.

End UpdateFacts.

Lemma update_outcome
    (counter_inc : Z -> Z -> Z) (zinfo : ProcStats.GlobSimInfo)
    (ps ps' : ProcStats.t) :
  (forall v delta, counter_inc v delta = wrap64 (v + delta)) ->
  Z.of_nat (List.length (ProcStats.lastBuf ps)) < 2 ^ 64 ->
  ProcStats.lastUpdatePhase ps <> ProcStats.numPhases zinfo ->
  ProcStats.update counter_inc zinfo ps = ProcStats.Done ps' ->
  let core := Stats.values (ProcStats.upcast (ProcStats.coreStats ps)) in
  let n := Z.to_nat (ProcStats.bufSize ps) in
  ProcStats.lastUpdatePhase ps' = ProcStats.numPhases zinfo /\
  ProcStats.coreStats ps' = ProcStats.coreStats ps /\
  ProcStats.bufSize ps' = ProcStats.bufSize ps /\
  firstn n (ProcStats.lastBuf ps') = core /\
  ProcStats.total
    (Stats.values (ProcStats.upcast (ProcStats.procStats ps'))) =
  wrap64
    (ProcStats.total
       (Stats.values (ProcStats.upcast (ProcStats.procStats ps)))
     + ProcStats.total core
     - ProcStats.total (firstn n (ProcStats.lastBuf ps))).
Proof.
  intros Hinc Hlast Hphase Hrun core n. unfold ProcStats.update in Hrun.
  destruct (Z.eqb_spec (ProcStats.lastUpdatePhase ps)
              (ProcStats.numPhases zinfo)) as [|_]; [contradiction|].
  destruct (ProcStats.lastUpdatePhase ps <? ProcStats.numPhases zinfo);
    cbn [negb] in Hrun; [|discriminate].
  destruct (Stats.DumpWalk _ (ProcStats.buf ps) 0)
    as [[buf1 endBuf]|e] eqn:Hdump; [|discriminate].
  destruct (Z.eqb_spec (ProcStats.bufSize ps) (Z.of_nat endBuf))
    as [Hsize|]; cbn [negb] in Hrun; [|discriminate].
  destruct (ProcStats.diff_loop _ 0 buf1 (ProcStats.lastBuf ps))
    as [lastBuf1|f] eqn:Hdiff; [|discriminate].
  destruct (ProcStats.stats_loop counter_inc zinfo _ 0 _ lastBuf1 0)
    as [[P' start]|f] eqn:Hloop; [|discriminate].
  destruct (start =? ProcStats.bufSize ps); cbn [negb] in Hrun;
    [|discriminate].
  injection Hrun as <-. cbn [ProcStats.lastUpdatePhase ProcStats.coreStats
    ProcStats.bufSize ProcStats.lastBuf ProcStats.procStats].
  destruct (DumpWalk_inv _ _ _ _ _ Hdump) as (-> & -> & _).
  fold core in Hsize, Hdiff |- *.
  assert (Hn : n = List.length core)
    by (subst n; rewrite Hsize; apply Nat2Z.id).
  fold n in Hdiff. rewrite Hn in *. clear Hn n.
  destruct (diff_loop_spec _ _ _ _ _ Hdiff) as (Hlen & _ & Hfit & Hsum).
  rewrite ?firstn_O, ?drop_0 in *. cbn [Nat.add app] in *.
  rewrite take_app_length in *.
  assert (Hcore : Z.of_nat (List.length core) < 2 ^ 64).
  { destruct Hfit as [->|[_ Hfit]]; cbn [Nat.add] in *; lia. }
  destruct (stats_loop_spec counter_inc Hinc zinfo _ lastBuf1
              ltac:(rewrite Hlen; exact Hlast) _ _ _ _ _ Hloop)
    as (_ & _ & Hacc); [lia|exact Hcore|].
  cbn [Z.to_nat skipn] in Hacc.
  change (concat (List.map Stats.values
                    (ProcStats.children (ProcStats.coreStats ps))))
    with core in Hacc.
  repeat split. unfold ProcStats.total.
  rewrite Hacc. rewrite <- Z.add_sub_assoc.
  apply wrap64_eq_add; [symmetry; apply wrap64_idem|].
  change (Z.to_nat 0) with 0%nat. rewrite drop_0, Hsum.
  apply wrap64_eq_sub; symmetry; apply wrap64_idem.
Qed.

Lemma update_buffers
    (counter_inc : Z -> Z -> Z) (zinfo : ProcStats.GlobSimInfo)
    (ps ps' : ProcStats.t) :
  ProcStats.lastUpdatePhase ps <> ProcStats.numPhases zinfo ->
  ProcStats.update counter_inc zinfo ps = ProcStats.Done ps' ->
  List.length (ProcStats.buf ps') = List.length (ProcStats.lastBuf ps) /\
  List.length (ProcStats.lastBuf ps') = List.length (ProcStats.buf ps).
Proof.
  intros Hphase Hrun. unfold ProcStats.update in Hrun.
  destruct (Z.eqb_spec (ProcStats.lastUpdatePhase ps)
              (ProcStats.numPhases zinfo)) as [|_]; [contradiction|].
  destruct (ProcStats.lastUpdatePhase ps <? ProcStats.numPhases zinfo);
    cbn [negb] in Hrun; [|discriminate].
  destruct (Stats.DumpWalk _ (ProcStats.buf ps) 0)
    as [[buf1 endBuf]|e] eqn:Hdump; [|discriminate].
  destruct (negb _); [discriminate|].
  destruct (ProcStats.diff_loop _ 0 buf1 (ProcStats.lastBuf ps))
    as [lastBuf1|f] eqn:Hdiff; [|discriminate].
  destruct (ProcStats.stats_loop counter_inc zinfo _ 0 _ lastBuf1 0)
    as [[P' start]|f]; [|discriminate].
  destruct (negb _); [discriminate|].
  injection Hrun as <-. cbn [ProcStats.buf ProcStats.lastBuf].
  destruct (diff_loop_spec _ _ _ _ _ Hdiff) as (Hlen & _).
  split; [exact Hlen|].
  destruct (DumpWalk_inv _ _ _ _ _ Hdump) as (_ & -> & Hfit).
  destruct Hfit as [->|Hfit].
  - cbn [app List.length]. rewrite Nat.add_0_r, take_drop. reflexivity.
  - apply splice_length. exact Hfit.
Qed.

(** X22. What an [update] in a new phase does to the books, for counters
    that add modulo 2^64 and buffers shorter than 2^64: when it returns, the
    phase is recorded, [lastBuf] holds the values of the core stats as
    [DumpWalk] lays them out, and the sum of all per-process counters has
    grown by the sum of the core counters minus the sum recorded in
    [lastBuf] at the previous update (modulo 2^64). *)
Theorem update_accounts_core_deltas
    (counter_inc : Z -> Z -> Z) (zinfo : ProcStats.GlobSimInfo)
    (ps ps' : ProcStats.t) :
  (forall v delta, counter_inc v delta = wrap64 (v + delta)) ->
  Z.of_nat (List.length (ProcStats.lastBuf ps)) < 2 ^ 64 ->
  ProcStats.lastUpdatePhase ps <> ProcStats.numPhases zinfo ->
  ProcStats.update counter_inc zinfo ps = ProcStats.Done ps' ->
  let core := Stats.values (ProcStats.upcast (ProcStats.coreStats ps)) in
  let n := Z.to_nat (ProcStats.bufSize ps) in
  ProcStats.lastUpdatePhase ps' = ProcStats.numPhases zinfo /\
  ProcStats.coreStats ps' = ProcStats.coreStats ps /\
  ProcStats.bufSize ps' = ProcStats.bufSize ps /\
  firstn n (ProcStats.lastBuf ps') = core /\
  ProcStats.total
    (Stats.values (ProcStats.upcast (ProcStats.procStats ps'))) =
  wrap64
    (ProcStats.total
       (Stats.values (ProcStats.upcast (ProcStats.procStats ps)))
     + ProcStats.total core
     - ProcStats.total (firstn n (ProcStats.lastBuf ps))).
Proof. apply update_outcome. Qed.

(** X23. [update] keeps the books balanced: if the per-process counters add
    up to the core values recorded in [lastBuf] before the call, they do so
    after it, and after an update in a new phase they add up to the current
    values of the core stats (modulo 2^64). *)
Theorem update_keeps_books_balanced
    (counter_inc : Z -> Z -> Z) (zinfo : ProcStats.GlobSimInfo)
    (ps ps' : ProcStats.t) :
  (forall v delta, counter_inc v delta = wrap64 (v + delta)) ->
  ProcStats.balanced ps ->
  ProcStats.update counter_inc zinfo ps = ProcStats.Done ps' ->
  ProcStats.balanced ps' /\
  (ProcStats.lastUpdatePhase ps <> ProcStats.numPhases zinfo ->
   ProcStats.total
     (Stats.values (ProcStats.upcast (ProcStats.procStats ps'))) =
   ProcStats.total
     (Stats.values (ProcStats.upcast (ProcStats.coreStats ps)))).
Proof.
  intros Hinc (Hbuf & Hlast & Hbal) Hrun.
  destruct (Z.eq_dec (ProcStats.lastUpdatePhase ps)
              (ProcStats.numPhases zinfo)) as [Hsame|Hnew].
  - split; [|contradiction]. unfold ProcStats.update in Hrun.
    apply Z.eqb_eq in Hsame. rewrite Hsame in Hrun.
    injection Hrun as <-. repeat split; assumption.
  - destruct (update_outcome _ _ _ _ Hinc Hlast Hnew Hrun)
      as (_ & _ & Hsize & Hrec & Htotal).
    assert (Hcore :
      ProcStats.total
        (Stats.values (ProcStats.upcast (ProcStats.procStats ps'))) =
      ProcStats.total
        (Stats.values (ProcStats.upcast (ProcStats.coreStats ps)))).
    { rewrite Htotal, Hbal, Z.add_simpl_l. apply wrap64_idem. }
    split; [|intros _; exact Hcore].
    destruct (update_buffers _ _ _ _ Hnew Hrun) as (Hb & Hl).
    unfold ProcStats.balanced. rewrite Hb, Hl, Hsize, Hrec.
    repeat split; assumption.
Qed.

(** X24. [update] does its work once per phase: an [update] right after one
    that returned changes nothing. *)
Theorem update_once_per_phase
    (counter_inc : Z -> Z -> Z) (zinfo : ProcStats.GlobSimInfo)
    (ps ps' : ProcStats.t) :
  ProcStats.update counter_inc zinfo ps = ProcStats.Done ps' ->
  ProcStats.update counter_inc zinfo ps' = ProcStats.Done ps'.
Proof.
  intros Hrun.
  assert (Hphase : ProcStats.lastUpdatePhase ps' = ProcStats.numPhases zinfo).
  { unfold ProcStats.update in Hrun.
    destruct (Z.eqb_spec (ProcStats.lastUpdatePhase ps)
                (ProcStats.numPhases zinfo)) as [Hsame|_].
    - now injection Hrun as <-.
    - repeat match type of Hrun with
             | (if ?b then _ else _) = _ => destruct b; try discriminate
             | match ?x with _ => _ end = _ =>
                 destruct x as [[? ?]|?] eqn:?; try discriminate
             | match ?x with _ => _ end = _ =>
                 destruct x eqn:?; try discriminate
             end.
      now injection Hrun as <-. }
  unfold ProcStats.update. apply Z.eqb_eq in Hphase. now rewrite Hphase.
Qed.

(** ** The [ProcStats] constructor *)

Lemma replStat_Ok_inv (s s' : Stats.Stat) (name desc : option String.string) :
  Stats.replStat s name desc = Stats.Ok s' ->
  Stats.StatSize s' = Stats.StatSize s /\
  Stats.values s' = repeat 0 (List.length (Stats.values s)) /\
  Stats.name_of s' =
    match name with Some n => n | None => Stats.name_of s end /\
  Stats.desc_of s' =
    match desc with Some d => d | None => Stats.desc_of s end.
Proof.
  intros Hrun.
  destruct (Stats.recognized s && Stats.nameless s) eqn:Hgood.
  - apply andb_prop in Hgood as [Hrec Hnl].
    destruct (replStat_good s name desc Hrec Hnl) as (s'' & Heq & Hs'').
    rewrite Heq in Hrun. injection Hrun as <-. exact Hs''.
  - destruct (replStat_bad s name desc Hgood) as [Heq|Heq];
      rewrite Heq in Hrun; discriminate.
Qed.

Lemma replicate_core0_spec (stats rs : list Stats.Stat) :
  ProcStats.replicate_core0 stats = ProcStats.Done rs ->
  Forall2 ProcStats.replica_of rs stats.
Proof.
  revert rs. induction stats as [|s stats IH]; intros rs Hrun;
    cbn [ProcStats.replicate_core0] in Hrun.
  - injection Hrun as <-. constructor.
  - destruct s as [n d regular cores| | |];
      cbn [ProcStats.as_aggregate] in Hrun; try discriminate.
    cbn [ProcStats.isRegular ProcStats.name ProcStats.desc] in Hrun.
    destruct regular; cbn [negb] in Hrun; [|discriminate].
    unfold ProcStats.get in Hrun. cbn [ProcStats.children] in Hrun.
    destruct cores as [|core0 cores]; [cbn in Hrun; discriminate|].
    change ((core0 :: cores) !! Z.to_nat 0) with (Some core0) in Hrun.
    cbv iota beta in Hrun.
    destruct (Stats.replStat core0 (Some n) (Some d)) as [r|e] eqn:Hrepl;
      [|discriminate].
    destruct (ProcStats.replicate_core0 stats) as [rs'|f]; [|discriminate].
    injection Hrun as <-.
    destruct (replStat_Ok_inv _ _ _ _ Hrepl) as (Hsize & Hvals & Hn & Hd).
    constructor; [|now apply IH].
    cbn [ProcStats.replica_of]. auto.
Qed.

Lemma replicas_sum_zero (rs stats : list Stats.Stat) :
  Forall2 ProcStats.replica_of rs stats ->
  fold_right Z.add 0 (concat (List.map Stats.values rs)) = 0.
Proof.
  induction 1 as [|r s rs stats Hr _ IH]; [reflexivity|].
  cbn [List.map concat].
  rewrite fold_right_app, IH.
  destruct s as [n d regular [|core0 cores]| | |];
    cbn [ProcStats.replica_of] in Hr; try contradiction.
  destruct Hr as (_ & _ & _ & _ & ->).
  induction (List.length (Stats.values core0)) as [|k IHk];
    [reflexivity|exact IHk].
Qed.

Lemma make_groups_spec (Str : Z -> String.string)
    (coreStats : ProcStats.AggregateStat) (n : nat) :
  forall (p : Z) (groups : list Stats.Stat),
    ProcStats.make_groups Str coreStats n p = ProcStats.Done groups ->
    List.length groups = n /\
    Forall (fun g =>
              match g with
              | Stats.Aggregate _ _ false rs =>
                  Forall2 ProcStats.replica_of rs
                    (ProcStats.children coreStats)
              | _ => False
              end) groups.
Proof.
  induction n as [|n IH]; intros p groups Hrun;
    cbn [ProcStats.make_groups] in Hrun.
  - injection Hrun as <-. split; [reflexivity|constructor].
  - destruct (ProcStats.replicate_core0 _) as [rs|f] eqn:Hrs;
      [|discriminate].
    destruct (ProcStats.make_groups Str coreStats n (p + 1))
      as [groups'|f] eqn:Hrest; [|discriminate].
    injection Hrun as <-. destruct (IH _ _ Hrest) as (Hlen & Hall).
    split; [cbn [List.length]; congruence|].
    constructor; [|exact Hall]. now apply replicate_core0_spec.
Qed.

Lemma StatSize_children_range (cs : list Stats.Stat) :
  forall sz n,
    Stats.StatSize_children cs sz = Stats.Ok n ->
    0 <= sz < 2 ^ 64 -> 0 <= n < 2 ^ 64.
Proof.
  induction cs as [|c cs IH]; intros sz n Hrun Hsz;
    cbn [Stats.StatSize_children] in Hrun.
  - now injection Hrun as <-.
  - destruct (Stats.StatSize c) as [k|e]; [|discriminate].
    apply (IH _ _ Hrun). unfold wrap64. apply Z.mod_pos_bound. lia.
Qed.

Lemma new_outcome
    (zinfo : ProcStats.GlobSimInfo) (Str : Z -> String.string)
    (parentStat coreStats parentStat' : ProcStats.AggregateStat)
    (ps : ProcStats.t) :
  ProcStats.new zinfo Str parentStat coreStats
    = ProcStats.Done (ps, parentStat') ->
  ProcStats.coreStats ps = coreStats /\
  ProcStats.lastUpdatePhase ps = 0 /\
  Stats.StatSize (ProcStats.upcast coreStats)
    = Stats.Ok (ProcStats.bufSize ps) /\
  ProcStats.buf ps = repeat 0 (Z.to_nat (ProcStats.bufSize ps)) /\
  ProcStats.lastBuf ps = repeat 0 (Z.to_nat (ProcStats.bufSize ps)) /\
  parentStat' =
    ProcStats.append parentStat (ProcStats.upcast (ProcStats.procStats ps)) /\
  List.length (ProcStats.children (ProcStats.procStats ps))
    = Z.to_nat (ProcStats.lineSize zinfo) /\
  Forall (fun g =>
            match g with
            | Stats.Aggregate _ _ false rs =>
                Forall2 ProcStats.replica_of rs
                  (ProcStats.children coreStats)
            | _ => False
            end) (ProcStats.children (ProcStats.procStats ps)).
Proof.
  unfold ProcStats.new. intros Hrun.
  destruct (ProcStats.check_per_core zinfo _) as [[]|f]; [|discriminate].
  destruct (Stats.StatSize _) as [bufSize|e] eqn:Hsize; [|discriminate].
  destruct (ProcStats.make_groups Str coreStats _ 0) as [groups|f] eqn:Hg;
    [|discriminate].
  injection Hrun as <- <-.
  destruct (make_groups_spec _ _ _ _ _ Hg) as (Hlen & Hall).
  cbn. repeat split; assumption.
Qed.

(** X25. What the constructor leaves when it returns: phase 0, two zeroed
    buffers of [StatSize(coreStats)] cells, and under [parentStat] a new
    last child with one group per process group ([zinfo->lineSize] of them),
    each holding, for every per-core stat, a replica named after it with
    the size of the stat of core 0 and zeroed counters. *)
Theorem constructor_replicates_core0
    (zinfo : ProcStats.GlobSimInfo) (Str : Z -> String.string)
    (parentStat coreStats parentStat' : ProcStats.AggregateStat)
    (ps : ProcStats.t) :
  ProcStats.new zinfo Str parentStat coreStats
    = ProcStats.Done (ps, parentStat') ->
  ProcStats.coreStats ps = coreStats /\
  ProcStats.lastUpdatePhase ps = 0 /\
  Stats.StatSize (ProcStats.upcast coreStats)
    = Stats.Ok (ProcStats.bufSize ps) /\
  ProcStats.buf ps = repeat 0 (Z.to_nat (ProcStats.bufSize ps)) /\
  ProcStats.lastBuf ps = repeat 0 (Z.to_nat (ProcStats.bufSize ps)) /\
  parentStat' =
    ProcStats.append parentStat (ProcStats.upcast (ProcStats.procStats ps)) /\
  List.length (ProcStats.children (ProcStats.procStats ps))
    = Z.to_nat (ProcStats.lineSize zinfo) /\
  Forall (fun g =>
            match g with
            | Stats.Aggregate _ _ false rs =>
                Forall2 ProcStats.replica_of rs
                  (ProcStats.children coreStats)
            | _ => False
            end) (ProcStats.children (ProcStats.procStats ps)).
Proof. apply new_outcome. Qed.

Lemma sumZ_repeat_zero (n : nat) : fold_right Z.add 0 (repeat 0 n) = 0.
Proof. induction n as [|n IH]; [reflexivity|exact IH]. Qed.

(** X26. The constructor leaves the books balanced: all per-process counters
    and all recorded core values are zero, and the buffers are shorter than
    2^64. *)
Theorem constructor_balances_books
    (zinfo : ProcStats.GlobSimInfo) (Str : Z -> String.string)
    (parentStat coreStats parentStat' : ProcStats.AggregateStat)
    (ps : ProcStats.t) :
  ProcStats.new zinfo Str parentStat coreStats
    = ProcStats.Done (ps, parentStat') ->
  ProcStats.balanced ps.
Proof.
  intros Hrun.
  destruct (new_outcome _ _ _ _ _ _ Hrun)
    as (_ & _ & Hsize & Hbuf & Hlast & _ & _ & Hgroups).
  assert (Hrange : 0 <= ProcStats.bufSize ps < 2 ^ 64).
  { unfold ProcStats.upcast in Hsize. rewrite StatSize_Aggregate in Hsize.
    apply (StatSize_children_range _ _ _ Hsize). lia. }
  unfold ProcStats.balanced. rewrite Hbuf, Hlast, !repeat_length.
  split; [lia|]. split; [lia|].
  unfold ProcStats.total. f_equal.
  rewrite firstn_all2 by (rewrite repeat_length; lia).
  rewrite sumZ_repeat_zero.
  unfold ProcStats.upcast. cbn [Stats.values].
  induction Hgroups as [|g groups Hg _ IH]; [reflexivity|].
  cbn [List.map concat]. rewrite fold_right_app, IH.
  destruct g as [gn gd [|] rs| | |]; try contradiction.
  cbn [Stats.values]. exact (replicas_sum_zero _ _ Hg).
Qed.

(** X27. The constructor accepts per-core stats only: if some child of
    [coreStats] is not a regular aggregate with [zinfo->numCores] children,
    it ends in the "is not per-core" panic, before any buffer or stat is
    created. *)
Theorem constructor_rejects_flat_stats
    (zinfo : ProcStats.GlobSimInfo) (Str : Z -> String.string)
    (parentStat coreStats : ProcStats.AggregateStat) :
  forallb (ProcStats.per_core zinfo) (ProcStats.children coreStats) = false ->
  ProcStats.new zinfo Str parentStat coreStats
    = ProcStats.Fail ProcStats.NotPerCore.
Proof.
  intros Hbad. unfold ProcStats.new.
  assert (Hcheck : ProcStats.check_per_core zinfo
                     (ProcStats.children coreStats)
                   = ProcStats.Fail ProcStats.NotPerCore).
  { induction (ProcStats.children coreStats) as [|s stats IH];
      [discriminate|].
    cbn [forallb ProcStats.check_per_core] in *.
    destruct s as [n d regular cores| | |]; try reflexivity.
    cbn [ProcStats.per_core] in Hbad.
    destruct regular; cbn [negb andb] in *; [|reflexivity].
    destruct (Z.of_nat (List.length cores) =? ProcStats.numCores zinfo);
      cbn [negb andb] in *; [now apply IH|reflexivity]. }
  now rewrite Hcheck.
Qed.

(** ** The properties on sample inputs *)

Lemma Tokenize_ignores_trailing_delimiters_witness :
  Config.Tokenize (Config.Samples.evens_and_five_str ++ Config.Samples.blanks)
    [] [Config.space] =
  Config.Tokenize Config.Samples.evens_and_five_str [] [Config.space].
Proof.
  apply (Tokenize_ignores_trailing_delimiters
           Config.Samples.evens_and_five_str Config.Samples.blanks []
           [Config.space]).
  repeat constructor.
Defined.

Lemma Tokenize_without_delimiter_witness :
  Config.Tokenize Config.Samples.word [] [Config.Samples.comma] =
  Config.Ok ([] ++ [Config.Samples.word]).
Proof.
  apply (Tokenize_without_delimiter Config.Samples.word []
           [Config.Samples.comma]).
  repeat constructor.
Defined.

Lemma Range_new_well_formed_witness :
  0 <= Config.min Config.Samples.evens < Config.sup Config.Samples.evens /\
  Config.sup Config.Samples.evens < 2 ^ 31 /\
  1 <= Config.step Config.Samples.evens < 2 ^ 31.
Proof.
  apply (Range_new_well_formed Config.parse_digits Config.Samples.evens_str
           Config.Samples.evens).
  vm_compute. reflexivity.
Defined.

Lemma fill_sets_the_range_witness :
  match Config.fill Config.Samples.evens (repeat false 8) with
  | Config.Ok mask' =>
      length mask' = length (repeat false 8) /\
      (forall n, Config.covers Config.Samples.evens n ->
                 n < Z.of_nat (length (repeat false 8))) /\
      (forall j : nat,
          mask' !! j = Some true <->
          repeat false 8 !! j = Some true \/
          Config.covers Config.Samples.evens (Z.of_nat j))
  | Config.Err e =>
      (e = Config.OutOfBounds /\
       exists n, Config.covers Config.Samples.evens n /\
                 Z.of_nat (length (repeat false 8)) <= n) \/
      (e = Config.SignedOverflow /\
       2 ^ 31 < Config.sup Config.Samples.evens
                + Config.step Config.Samples.evens)
  end.
Proof.
  apply (fill_sets_the_range Config.Samples.evens (repeat false 8));
    vm_compute; try split; congruence.
Defined.

Lemma ParseMask_bits_witness :
  Z.of_nat (length Config.Samples.evens_and_five) = 8 /\
  (forall j : nat,
      Config.Samples.evens_and_five !! j = Some true <->
      exists r range,
        In r [Config.Samples.evens_str; Config.Samples.five_str] /\
        r <> [] /\
        Config.Range_new Config.parse_digits r = Config.Ok range /\
        Config.covers range (Z.of_nat j)).
Proof.
  apply (ParseMask_bits Config.parse_digits
           Config.Samples.evens_and_five_str 8
           Config.Samples.evens_and_five
           [Config.Samples.evens_str; Config.Samples.five_str]).
  - lia.
  - vm_compute. reflexivity.
  - vm_compute. reflexivity.
Defined.

Lemma ParseMask_join_witness :
  Config.ParseMask Config.parse_digits
    (Config.Samples.evens_str ++ Config.space :: Config.Samples.five_str) 8 =
  match Config.ParseMask Config.parse_digits Config.Samples.evens_str 8 with
  | Config.Err e => Config.Err e
  | Config.Ok mask1 =>
      match Config.ParseMask Config.parse_digits Config.Samples.five_str 8
      with
      | Config.Err e => Config.Err e
      | Config.Ok mask2 => Config.Ok (zip_with orb mask1 mask2)
      end
  end.
Proof.
  apply (ParseMask_join Config.parse_digits Config.Samples.evens_str
           Config.Samples.five_str 8).
  lia.
Defined.

Lemma ParseMask_blank_witness :
  Config.ParseMask Config.parse_digits Config.Samples.blanks 4 =
  Config.Ok (repeat false (Z.to_nat 4)).
Proof.
  apply (ParseMask_blank Config.parse_digits Config.Samples.blanks 4).
  repeat constructor.
Defined.

Lemma ParseList_join_witness :
  Config.ParseList Config.parse_digits
    (Config.Samples.one_two ++ Config.Samples.comma :: Config.Samples.three)
    [Config.space; Config.Samples.comma] =
  match Config.ParseList Config.parse_digits Config.Samples.one_two
          [Config.space; Config.Samples.comma] with
  | Config.Err e => Config.Err e
  | Config.Ok res1 =>
      match Config.ParseList Config.parse_digits Config.Samples.three
              [Config.space; Config.Samples.comma] with
      | Config.Err e => Config.Err e
      | Config.Ok res2 => Config.Ok (res1 ++ res2)
      end
  end.
Proof.
  apply (ParseList_join Config.parse_digits Config.Samples.one_two
           Config.Samples.three [Config.space; Config.Samples.comma]
           Config.Samples.comma).
  reflexivity.
Defined.

Lemma ParseList_elements_witness :
  match Config.ParseList Config.parse_digits Config.Samples.gap_one_two
          [Config.Samples.comma] with
  | Config.Ok res =>
      Forall2 (fun n x => Config.parse_digits n = Some x)
              (List.filter Config.nonempty
                 Config.Samples.gap_one_two_tokens) res
  | Config.Err e =>
      e = Config.ItemUnparsed /\
      exists n, In n Config.Samples.gap_one_two_tokens /\ n <> [] /\
                Config.parse_digits n = None
  end.
Proof.
  apply (ParseList_elements Config.parse_digits Config.Samples.gap_one_two
           [Config.Samples.comma] Config.Samples.gap_one_two_tokens).
  vm_compute. reflexivity.
Defined.

Lemma StatSize_counts_values_witness :
  Stats.StatSize Stats.Samples.core0 =
  if Stats.recognized Stats.Samples.core0
  then Stats.Ok (Z.of_nat (List.length (Stats.values Stats.Samples.core0)))
  else Stats.Err Stats.UnrecognizedStat.
Proof.
  apply (StatSize_counts_values Stats.Samples.core0).
  vm_compute. reflexivity.
Defined.

Lemma DumpWalk_writes_values_witness :
  Stats.DumpWalk Stats.Samples.core0 (repeat 9 8) 1 =
  Stats.Ok (firstn 1 (repeat 9 8) ++ Stats.values Stats.Samples.core0 ++
              skipn (1 + List.length (Stats.values Stats.Samples.core0))
                (repeat 9 8),
            (1 + List.length (Stats.values Stats.Samples.core0))%nat).
Proof.
  apply (DumpWalk_writes_values Stats.Samples.core0 (repeat 9 8) 1).
  - reflexivity.
  - vm_compute. lia.
Defined.

Lemma DumpWalk_overruns_short_buffer_witness :
  Stats.DumpWalk Stats.Samples.core0 (repeat 9 8) 3 =
  Stats.Err Stats.BufferOverrun.
Proof.
  apply (DumpWalk_overruns_short_buffer Stats.Samples.core0 (repeat 9 8) 3).
  - reflexivity.
  - vm_compute. lia.
Defined.

Lemma IncWalk_adds_buffer_witness :
  exists s',
    Stats.IncWalk Stats.Samples.add64 Stats.Samples.core1
      [0; 2 ^ 64 - 1; 1; 2; 3; 4; 5; 0] 1 =
      Stats.Ok (s', (1 + List.length
                           (Stats.values Stats.Samples.core1))%nat) /\
    Stats.shape s' = Stats.shape Stats.Samples.core1 /\
    Stats.values s' =
      zip_with Stats.Samples.add64 (Stats.values Stats.Samples.core1)
        (skipn 1 [0; 2 ^ 64 - 1; 1; 2; 3; 4; 5; 0]).
Proof.
  apply (IncWalk_adds_buffer Stats.Samples.add64 Stats.Samples.core1
           [0; 2 ^ 64 - 1; 1; 2; 3; 4; 5; 0] 1).
  - reflexivity.
  - vm_compute. lia.
Defined.

Lemma IncWalk_after_DumpWalk_witness :
  exists buf' s',
    Stats.DumpWalk Stats.Samples.core0 (repeat 0 6) 0 =
      Stats.Ok (buf', List.length (Stats.values Stats.Samples.core0)) /\
    Stats.IncWalk Stats.Samples.add64 Stats.Samples.core1 buf' 0 =
      Stats.Ok (s', List.length (Stats.values Stats.Samples.core0)) /\
    Stats.shape s' = Stats.shape Stats.Samples.core0 /\
    Stats.values s' =
      zip_with Stats.Samples.add64 (Stats.values Stats.Samples.core1)
        (Stats.values Stats.Samples.core0).
Proof.
  apply (IncWalk_after_DumpWalk Stats.Samples.add64 Stats.Samples.core0
           Stats.Samples.core1 (repeat 0 6)); reflexivity.
Defined.

Lemma replStat_zeroed_copy_witness :
  exists s',
    Stats.replStat Stats.Samples.core0 None None = Stats.Ok s' /\
    Stats.StatSize s' = Stats.StatSize Stats.Samples.core0 /\
    Stats.values s' =
      repeat 0 (List.length (Stats.values Stats.Samples.core0)) /\
    Stats.name_of s' = Stats.name_of Stats.Samples.core0 /\
    Stats.desc_of s' = Stats.desc_of Stats.Samples.core0.
Proof.
  apply (replStat_zeroed_copy Stats.Samples.core0 None None); reflexivity.
Defined.

Lemma replStat_rejects_witness :
  Stats.replStat Stats.Samples.foreign None None =
    Stats.Err Stats.UnrecognizedStat \/
  Stats.replStat Stats.Samples.foreign None None =
    Stats.Err Stats.CounterNames.
Proof.
  apply (replStat_rejects Stats.Samples.foreign None None). reflexivity.
Defined.

Lemma update_accounts_core_deltas_witness :
  let core :=
    Stats.values (ProcStats.upcast
                    (ProcStats.coreStats ProcStats.Samples.fresh)) in
  let n := Z.to_nat (ProcStats.bufSize ProcStats.Samples.fresh) in
  ProcStats.lastUpdatePhase ProcStats.Samples.updated
    = ProcStats.numPhases ProcStats.Samples.zinfo /\
  ProcStats.coreStats ProcStats.Samples.updated
    = ProcStats.coreStats ProcStats.Samples.fresh /\
  ProcStats.bufSize ProcStats.Samples.updated
    = ProcStats.bufSize ProcStats.Samples.fresh /\
  firstn n (ProcStats.lastBuf ProcStats.Samples.updated) = core /\
  ProcStats.total
    (Stats.values (ProcStats.upcast
                     (ProcStats.procStats ProcStats.Samples.updated))) =
  wrap64
    (ProcStats.total
       (Stats.values (ProcStats.upcast
                        (ProcStats.procStats ProcStats.Samples.fresh)))
     + ProcStats.total core
     - ProcStats.total (firstn n (ProcStats.lastBuf ProcStats.Samples.fresh))).
Proof.
  apply (update_accounts_core_deltas Stats.Samples.add64
           ProcStats.Samples.zinfo ProcStats.Samples.fresh
           ProcStats.Samples.updated).
  - intros v delta. reflexivity.
  - vm_compute. reflexivity.
  - vm_compute. discriminate.
  - vm_compute. reflexivity.
Defined.

Lemma update_keeps_books_balanced_witness :
  ProcStats.balanced ProcStats.Samples.updated /\
  (ProcStats.lastUpdatePhase ProcStats.Samples.fresh
     <> ProcStats.numPhases ProcStats.Samples.zinfo ->
   ProcStats.total
     (Stats.values (ProcStats.upcast
                      (ProcStats.procStats ProcStats.Samples.updated))) =
   ProcStats.total
     (Stats.values (ProcStats.upcast
                      (ProcStats.coreStats ProcStats.Samples.fresh)))).
Proof.
  apply (update_keeps_books_balanced Stats.Samples.add64
           ProcStats.Samples.zinfo ProcStats.Samples.fresh
           ProcStats.Samples.updated).
  - intros v delta. reflexivity.
  - vm_compute. repeat split.
  - vm_compute. reflexivity.
Defined.

Lemma update_once_per_phase_witness :
  ProcStats.update Stats.Samples.add64 ProcStats.Samples.zinfo
    ProcStats.Samples.updated
  = ProcStats.Done ProcStats.Samples.updated.
Proof.
  apply (update_once_per_phase Stats.Samples.add64 ProcStats.Samples.zinfo
           ProcStats.Samples.fresh ProcStats.Samples.updated).
  vm_compute. reflexivity.
Defined.

Lemma constructor_replicates_core0_witness :
  ProcStats.coreStats ProcStats.Samples.fresh = ProcStats.Samples.coreStats /\
  ProcStats.lastUpdatePhase ProcStats.Samples.fresh = 0 /\
  Stats.StatSize (ProcStats.upcast ProcStats.Samples.coreStats)
    = Stats.Ok (ProcStats.bufSize ProcStats.Samples.fresh) /\
  ProcStats.buf ProcStats.Samples.fresh
    = repeat 0 (Z.to_nat (ProcStats.bufSize ProcStats.Samples.fresh)) /\
  ProcStats.lastBuf ProcStats.Samples.fresh
    = repeat 0 (Z.to_nat (ProcStats.bufSize ProcStats.Samples.fresh)) /\
  ProcStats.append ProcStats.Samples.root
    (ProcStats.upcast (ProcStats.procStats ProcStats.Samples.fresh)) =
    ProcStats.append ProcStats.Samples.root
      (ProcStats.upcast (ProcStats.procStats ProcStats.Samples.fresh)) /\
  List.length (ProcStats.children
                 (ProcStats.procStats ProcStats.Samples.fresh))
    = Z.to_nat (ProcStats.lineSize ProcStats.Samples.zinfo) /\
  Forall (fun g =>
            match g with
            | Stats.Aggregate _ _ false rs =>
                Forall2 ProcStats.replica_of rs
                  (ProcStats.children ProcStats.Samples.coreStats)
            | _ => False
            end)
         (ProcStats.children (ProcStats.procStats ProcStats.Samples.fresh)).
Proof.
  apply (constructor_replicates_core0 ProcStats.Samples.zinfo
           ProcStats.Samples.Str ProcStats.Samples.root
           ProcStats.Samples.coreStats
           (ProcStats.append ProcStats.Samples.root
              (ProcStats.upcast
                 (ProcStats.procStats ProcStats.Samples.fresh)))
           ProcStats.Samples.fresh).
  vm_compute. reflexivity.
Defined.

Lemma constructor_balances_books_witness :
  ProcStats.balanced ProcStats.Samples.fresh.
Proof.
  apply (constructor_balances_books ProcStats.Samples.zinfo
           ProcStats.Samples.Str ProcStats.Samples.root
           ProcStats.Samples.coreStats
           (ProcStats.append ProcStats.Samples.root
              (ProcStats.upcast
                 (ProcStats.procStats ProcStats.Samples.fresh)))
           ProcStats.Samples.fresh).
  vm_compute. reflexivity.
Defined.

Lemma constructor_rejects_flat_stats_witness :
  ProcStats.new ProcStats.Samples.zinfo ProcStats.Samples.Str
    ProcStats.Samples.root ProcStats.Samples.flat
  = ProcStats.Fail ProcStats.NotPerCore.
Proof.
  apply (constructor_rejects_flat_stats ProcStats.Samples.zinfo
           ProcStats.Samples.Str ProcStats.Samples.root
           ProcStats.Samples.flat).
  reflexivity.
Defined.
